(** * A lock-free radix tree (src/radix.h): shallow embedding and properties

    The tree maps fixed-width integer keys to values.  Every shared word is
    an atomic slot holding a tagged pointer; lookups read slots with atomic
    loads and insertions publish leaves and nodes with compare-and-swap.

    The embedding keeps the representation of the source: a slot is a
    machine word (a [Z]), the heap maps node addresses to arrays of
    [CHILD_PER_LEVEL] slots, and [insert]/[get] are small-step machines that
    perform one atomic access per step, so that threads can be interleaved.

    The last part of the file embeds the JSON value container of
    src/univalue/lib/univalue.cpp. *)

From Stdlib Require Import ZArith Lia List Bool.
From stdpp Require Import base tactics option list gmap strings.

Local Open Scope Z_scope.

Section RadixTree.

(** The template parameter [T]: [sizeof_K] is [sizeof(K)] for the key type
    [K = decltype(T::getId())] and [getId p] is the id stored in the object
    at address [p]. *)
Variable sizeof_K : Z.
Variable getId : Z → Z.

(** ** Compile-time constants of [RadixTree] *)

Definition BITS : Z := 4.
Definition MASK : Z := Z.shiftl 1 BITS - 1.
Definition CHILD_PER_LEVEL : nat := Z.to_nat (Z.shiftl 1 BITS).
Definition KEY_BITS : Z := 8 * sizeof_K.
Definition TOP_LEVEL : Z := (KEY_BITS - 1) / BITS.

(** Width of [uint32_t], the type of [level]. *)
Definition LEVEL_BITS : Z := 32.

(** ** [RadixElement]: the tagged slot word *)

Definition DISCRIMINANT : Z := 1.

Definition getDiscriminent (raw : Z) : bool :=
  negb (Z.land raw DISCRIMINANT =? 0).

(** A [uintptr_t] is a non-negative integer; the only operations the source
    applies to it are [| DISCRIMINANT], [& DISCRIMINANT] and
    [& ~DISCRIMINANT], and [~DISCRIMINANT] has every bit set but the lowest. *)

(** [RadixElement()] *)
Definition RadixElement_empty : Z := DISCRIMINANT.
(** [RadixElement(RadixNode *nodeIn)] *)
Definition RadixElement_node (nodeIn : Z) : Z := nodeIn.
(** [RadixElement(T *leafIn)] *)
Definition RadixElement_leaf (leafIn : Z) : Z := Z.lor leafIn DISCRIMINANT.

Definition isNode (raw : Z) : bool := negb (getDiscriminent raw).
Definition isLeaf (raw : Z) : bool := getDiscriminent raw.

(** The accessors assert their tag; [None] is the assertion failure. *)
Definition getNode (raw : Z) : option Z :=
  if isNode raw then Some raw else None.

Definition getLeaf (raw : Z) : option Z :=
  if isLeaf raw
  then Some (Z.land raw (Z.lnot DISCRIMINANT))
  else None.

(** A usable object address: non-null and with alignment at least 2 (the two
    [static_assert]s of the source). *)
Definition valid_ptr (p : Z) : bool := (0 <? p) && Z.even p.

(** ** [RadixNode] *)

(** [level--] on a [uint32_t]. *)
Definition level_dec (level : Z) : Z := (level - 1) mod 2 ^ LEVEL_BITS.

(** [level * BITS], computed in [uint32_t]. *)
Definition shift_amount (level : Z) : Z := (level * BITS) mod 2 ^ LEVEL_BITS.

(** [(key >> (level * BITS)) & MASK] *)
Definition child_index (level key : Z) : Z :=
  Z.land (Z.shiftr key (shift_amount level)) MASK.

(** [RadixNode::get(level, key)]: the index of the selected child.  The
    shift is undefined once the amount reaches the width of the (promoted)
    key type; [None] stands for that undefined behaviour. *)
Definition RadixNode_get (level key : Z) : option nat :=
  if shift_amount level <? Z.max KEY_BITS 32
  then Some (Z.to_nat (child_index level key))
  else None.

(** [RadixNode(level, key, e)]: all children empty, then [e] stored at the
    child selected by [key] at [level]. *)
Definition RadixNode_new (level key e : Z) : option (list Z) :=
  match RadixNode_get level key with
  | Some i => Some (<[i := e]> (replicate CHILD_PER_LEVEL RadixElement_empty))
  | None => None
  end.

(** ** The shared heap *)

(** A [std::atomic<RadixElement> *]: the root or a child of a node. *)
Inductive SlotRef : Type :=
| RootSlot
| ChildSlot (node : Z) (i : nat).

#[global] Instance SlotRef_eq_dec : EqDecision SlotRef.
Proof. solve_decision. Defined.

Record Heap : Type := mkHeap {
  root : Z;
  nodes : gmap Z (list Z)
}.

(** [RadixTree()] *)
Definition empty_tree : Heap := mkHeap RadixElement_empty ∅.

Definition load (h : Heap) (ref : SlotRef) : option Z :=
  match ref with
  | RootSlot => Some (root h)
  | ChildSlot n i =>
      match nodes h !! n with
      | Some cs => cs !! i
      | None => None
      end
  end.

Definition store (h : Heap) (ref : SlotRef) (w : Z) : Heap :=
  match ref with
  | RootSlot => mkHeap w (nodes h)
  | ChildSlot n i =>
      match nodes h !! n with
      | Some cs => mkHeap (root h) (<[n := <[i := w]> cs]> (nodes h))
      | None => h
      end
  end.

(** [compare_exchange_strong(expected, desired)]: success flag, the value
    observed and the heap. *)
Definition compare_exchange_strong (h : Heap) (ref : SlotRef)
    (expected desired : Z) : option (bool * Z * Heap) :=
  match load h ref with
  | Some cur =>
      if cur =? expected
      then Some (true, expected, store h ref desired)
      else Some (false, cur, h)
  | None => None
  end.

(** The allocator may return any aligned, non-null address that holds no
    node.  Values live outside this map; the tag bit keeps a leaf word and a
    node word apart whatever the two addresses are. *)
Definition alloc_ok (h : Heap) (a : Z) : bool :=
  valid_ptr a && bool_decide (nodes h !! a = None).

Definition alloc_node (h : Heap) (a : Z) (cs : list Z) : Heap :=
  mkHeap (root h) (<[a := cs]> (nodes h)).

Definition free_node (h : Heap) (a : Z) : Heap :=
  mkHeap (root h) (delete a (nodes h)).

(** ** Threads *)

(** Program points of the private [insert(key, value)]. *)
Inductive InsertPC : Type :=
| InsLoad                       (* [RadixElement e = eptr->load();] *)
| InsTest (e : Z)               (* [while (e.isNode())] *)
| InsLeaf (e : Z)               (* [const K &leafKey = ...] *)
| InsCas (e : Z) (newChild : Z) (* the second [compare_exchange_strong] *).

(** Program points of [get(key)]. *)
Inductive GetPC : Type :=
| GetLoad                       (* [RadixElement e = root.load();] *)
| GetTest (e : Z)               (* [while (e.isNode())] *).

Inductive Thread : Type :=
| Insert (key value : Z) (eptr : SlotRef) (level : Z) (pc : InsertPC)
| InsertRet (key value : Z) (r : bool)
| Get (key : Z) (level : Z) (pc : GetPC)
| GetRet (key : Z) (r : Z).

(** What a step did to the shared memory. *)
Inductive Event : Type :=
| EvLoad | EvDescend | EvLocal | EvAlloc | EvReturn
| EvLeafCasOk | EvLeafCasFail | EvSplitCasOk | EvSplitCasFail.

Inductive Outcome : Type :=
| Next (ev : Event) (h : Heap) (t : Thread)
| Fault       (* failed assertion or undefined behaviour *)
| Blocked     (* no step: the call has returned, or the address offered by
                 the allocator is not usable *).

(** Calls as the public interface starts them. *)
Definition insert_call (value : Z) : Thread :=
  Insert (getId value) value RootSlot TOP_LEVEL InsLoad.

Definition get_call (key : Z) : Thread :=
  Get key TOP_LEVEL GetLoad.

(** The body shared by both walks: [e.getNode()->get(level--, key)] followed
    by the load of the selected child. *)
Definition descend (h : Heap) (e level key : Z) : option (SlotRef * Z * Z) :=
  match getNode e, RadixNode_get level key with
  | Some n, Some i =>
      match load h (ChildSlot n i) with
      | Some e' => Some (ChildSlot n i, level_dec level, e')
      | None => None
      end
  | _, _ => None
  end.

(** One step of the private [insert(key, value)]; [a] is the address the
    allocator would return. *)
Definition insert_step (a : Z) (h : Heap) (key value : Z) (eptr : SlotRef)
    (level : Z) (pc : InsertPC) : Outcome :=
  match pc with
  | InsLoad =>
      match load h eptr with
      | Some e => Next EvLoad h (Insert key value eptr level (InsTest e))
      | None => Fault
      end
  | InsTest e =>
      if isNode e then
        match descend h e level key with
        | Some (eptr', level', e') =>
            Next EvDescend h (Insert key value eptr' level' (InsTest e'))
        | None => Fault
        end
      else
        match getLeaf e with
        | Some leaf =>
            if leaf =? 0 then
              match compare_exchange_strong h eptr e (RadixElement_leaf value) with
              | Some (true, _, h') =>
                  Next EvLeafCasOk h' (InsertRet key value true)
              | Some (false, e', _) =>
                  Next EvLeafCasFail h
                    (Insert key value eptr level
                       (if isNode e' then InsTest e' else InsLeaf e'))
              | None => Fault
              end
            else Next EvLocal h (Insert key value eptr level (InsLeaf e))
        | None => Fault
        end
  | InsLeaf e =>
      match getLeaf e with
      | Some leaf =>
          if leaf =? 0 then Fault
          else
            let leafKey := getId leaf in
            if key =? leafKey then Next EvReturn h (InsertRet key value false)
            else
              match RadixNode_new level leafKey e with
              | Some cs =>
                  if alloc_ok h a
                  then Next EvAlloc (alloc_node h a cs)
                         (Insert key value eptr level (InsCas e a))
                  else Blocked
              | None => Fault
              end
      | None => Fault
      end
  | InsCas e newChild =>
      match compare_exchange_strong h eptr e (RadixElement_node newChild) with
      | Some (true, _, h') =>
          Next EvSplitCasOk h' (Insert key value eptr level InsLoad)
      | Some (false, _, _) =>
          Next EvSplitCasFail (free_node h newChild)
            (Insert key value eptr level InsLoad)
      | None => Fault
      end
  end.

(** One step of [get(key)]. *)
Definition get_step (h : Heap) (key level : Z) (pc : GetPC) : Outcome :=
  match pc with
  | GetLoad => Next EvLoad h (Get key level (GetTest (root h)))
  | GetTest e =>
      if isNode e then
        match descend h e level key with
        | Some (_, level', e') => Next EvDescend h (Get key level' (GetTest e'))
        | None => Fault
        end
      else
        match getLeaf e with
        | Some leaf =>
            if (leaf =? 0) || negb (getId leaf =? key)
            then Next EvReturn h (GetRet key 0)
            else Next EvReturn h (GetRet key leaf)
        | None => Fault
        end
  end.

Definition thread_step (a : Z) (h : Heap) (t : Thread) : Outcome :=
  match t with
  | Insert key value eptr level pc => insert_step a h key value eptr level pc
  | Get key level pc => get_step h key level pc
  | InsertRet _ _ _ | GetRet _ _ => Blocked
  end.

(** ** Concurrent executions: interleavings of thread steps *)

Record System : Type := mkSystem {
  heap : Heap;
  threads : list Thread
}.

(** Thread [i] takes one step; the allocator may offer any address. *)
Inductive sys_step (σ : System) : nat * Event → System → Prop :=
| sys_step_thread i a t ev h' t' :
    threads σ !! i = Some t →
    thread_step a (heap σ) t = Next ev h' t' →
    sys_step σ (i, ev) (mkSystem h' (<[i := t']> (threads σ))).

Inductive exec : System → list (nat * Event) → System → Prop :=
| exec_nil σ : exec σ [] σ
| exec_snoc σ1 σ2 σ3 tr l :
    exec σ1 tr σ2 → sys_step σ2 l σ3 → exec σ1 (tr ++ [l]) σ3.

(** The events of thread [i] in a trace. *)
Definition events_of (i : nat) (tr : list (nat * Event)) : list Event :=
  snd <$> filter (λ l, fst l = i) tr.

Definition is_descend (ev : Event) : bool :=
  match ev with EvDescend => true | _ => false end.

Definition is_cas_fail (ev : Event) : bool :=
  match ev with EvLeafCasFail | EvSplitCasFail => true | _ => false end.

Definition count_events (f : Event → bool) (evs : list Event) : nat :=
  length (List.filter f evs).

(** The steps that read or write a slot: the atomic loads (a descent loads
    the child slot) and the compare-and-swaps. *)
Definition is_cas (ev : Event) : bool :=
  match ev with
  | EvLeafCasOk | EvLeafCasFail | EvSplitCasOk | EvSplitCasFail => true
  | _ => false
  end.

Definition is_slot_access (ev : Event) : bool :=
  match ev with
  | EvLoad | EvDescend => true
  | _ => is_cas ev
  end.

(** ** Sequential executions: one thread run to completion *)

(** A deterministic allocator: an even address above every node in use. *)
Definition fresh_addr (h : Heap) : Z :=
  2 * (1 + foldr Z.max 0 (fst <$> map_to_list (nodes h))).

Definition returned (t : Thread) : bool :=
  match t with
  | InsertRet _ _ _ | GetRet _ _ => true
  | _ => false
  end.

Fixpoint run (fuel : nat) (h : Heap) (t : Thread)
    : option (list Event * Heap * Thread) :=
  if returned t then Some ([], h, t)
  else
    match fuel with
    | O => None
    | S fuel' =>
        match thread_step (fresh_addr h) h t with
        | Next ev h' t' =>
            match run fuel' h' t' with
            | Some (evs, h'', t'') => Some (ev :: evs, h'', t'')
            | None => None
            end
        | _ => None
        end
    end.

Definition top : nat := Z.to_nat TOP_LEVEL.

Definition insert_fuel : nat := 6 * (top + 2).
Definition get_fuel : nat := top + 3.

(** [bool insert(T *value)] on a quiescent tree. *)
Definition RadixTree_insert (h : Heap) (value : Z) : option (bool * Heap) :=
  match run insert_fuel h (insert_call value) with
  | Some (_, h', InsertRet _ _ r) => Some (r, h')
  | _ => None
  end.

(** [T *get(const K &key)] on a quiescent tree; [0] is [nullptr]. *)
Definition RadixTree_get (h : Heap) (key : Z) : option Z :=
  match run get_fuel h (get_call key) with
  | Some (_, _, GetRet _ r) => Some r
  | _ => None
  end.

(** Inserting a list of values one after the other. *)
Fixpoint insert_all (h : Heap) (values : list Z) : option Heap :=
  match values with
  | [] => Some h
  | v :: vs =>
      match RadixTree_insert h v with
      | Some (_, h') => insert_all h' vs
      | None => None
      end
  end.

(** ** Paths, contents and invariants *)

(** The level held by a walk that has descended [d] times. *)
Definition level_at (d : nat) : Z :=
  (TOP_LEVEL - Z.of_nat d) mod 2 ^ LEVEL_BITS.

Definition is_key (k : Z) : Prop := 0 ≤ k < 2 ^ KEY_BITS.

(** Two keys select the same child in the first [d] descents. *)
Definition agree_upto (d : nat) (k k' : Z) : Prop :=
  ∀ j : nat, (j < d)%nat →
    child_index (level_at j) k = child_index (level_at j) k'.

(** [on_path h key ref d]: the walk for [key] reaches slot [ref] after [d]
    descents. *)
Inductive on_path (h : Heap) (key : Z) : SlotRef → nat → Prop :=
| on_path_root : on_path h key RootSlot 0
| on_path_child ref d n :
    on_path h key ref d →
    load h ref = Some n →
    isNode n = true →
    on_path h key
      (ChildSlot n (Z.to_nat (child_index (level_at d) key))) (S d).

(** [lookup h key w]: the walk for [key] ends on a slot holding [w]. *)
Definition lookup (h : Heap) (key w : Z) : Prop :=
  ∃ ref d, on_path h key ref d ∧ load h ref = Some w ∧ isNode w = false.

(** The tree holds the value at address [p]. *)
Definition holds (h : Heap) (p : Z) : Prop :=
  valid_ptr p = true ∧ lookup h (getId p) (RadixElement_leaf p).

(** The tree holds some value whose id is [key]. *)
Definition present (h : Heap) (key : Z) : Prop :=
  ∃ p, holds h p ∧ getId p = key.

(** What a slot reached after [d] descents of the walk for [key] may hold. *)
Definition leaf_ok (d : nat) (key e : Z) : Prop :=
  ∃ p, e = RadixElement_leaf p ∧ valid_ptr p = true ∧
       agree_upto d (getId p) key.

Definition slot_ok (h : Heap) (key : Z) (d : nat) (w : Z) : Prop :=
  if isNode w
  then (d ≤ top)%nat ∧ valid_ptr w = true ∧ is_Some (nodes h !! w)
  else w = RadixElement_empty ∨ leaf_ok d key w.

Record heap_inv (h : Heap) : Prop := {
  nodes_wf : ∀ n cs, nodes h !! n = Some cs → length cs = CHILD_PER_LEVEL;
  path_depth : ∀ k ref d, on_path h k ref d → (d ≤ S top)%nat;
  path_ok : ∀ k ref d w,
    on_path h k ref d → load h ref = Some w → slot_ok h k d w;
  path_unique : ∀ k k' ref d d',
    on_path h k ref d → on_path h k' ref d' → d = d' ∧ agree_upto d k k'
}.

(** No slot reachable from the root refers to node [n]. *)
Definition unreferenced (h : Heap) (n : Z) : Prop :=
  ∀ k ref d, on_path h k ref d → load h ref ≠ Some n.

(** What a thread knows about a word [e] it read from slot [ref] of the
    walk for [key], however long ago. *)
Definition leaf_seen (h : Heap) (key : Z) (d : nat) (e : Z) : Prop :=
  ∃ p, e = RadixElement_leaf p ∧ agree_upto d (getId p) key ∧ holds h p.

Definition seen (h : Heap) (key : Z) (ref : SlotRef) (d : nat) (e : Z) : Prop :=
  if isNode e then load h ref = Some e
  else e = RadixElement_empty ∨ leaf_seen h key d e.

Definition insert_pc_inv (h : Heap) (key : Z) (eptr : SlotRef) (d : nat)
    (pc : InsertPC) : Prop :=
  match pc with
  | InsLoad => True
  | InsTest e => seen h key eptr d e
  | InsLeaf e => leaf_seen h key d e
  | InsCas e n =>
      ∃ p cs, e = RadixElement_leaf p ∧ agree_upto d (getId p) key ∧
              holds h p ∧ getId p ≠ key ∧
              valid_ptr n = true ∧ unreferenced h n ∧
              RadixNode_new (level_at d) (getId p) e = Some cs ∧
              nodes h !! n = Some cs
  end.

Definition thread_inv (h : Heap) (t : Thread) : Prop :=
  match t with
  | Insert key value eptr level pc =>
      valid_ptr value = true ∧ getId value = key ∧
      ∃ d, on_path h key eptr d ∧ level = level_at d ∧
           insert_pc_inv h key eptr d pc
  | InsertRet key value r =>
      valid_ptr value = true ∧ getId value = key ∧
      if r then holds h value else present h key
  | Get key level pc =>
      match pc with
      | GetLoad => level = TOP_LEVEL
      | GetTest e =>
          ∃ ref d, on_path h key ref d ∧ level = level_at d ∧
                   seen h key ref d e
      end
  | GetRet key r => r = 0 ∨ (holds h r ∧ getId r = key)
  end.

(** The node a thread has allocated and not yet published, if any. *)
Definition owned (t : Thread) : option Z :=
  match t with
  | Insert _ _ _ _ (InsCas _ n) => Some n
  | _ => None
  end.

Record sys_inv (σ : System) : Prop := {
  sys_heap : heap_inv (heap σ);
  sys_threads : ∀ i t, threads σ !! i = Some t → thread_inv (heap σ) t;
  sys_owned : ∀ i j ti tj n,
    threads σ !! i = Some ti → threads σ !! j = Some tj →
    owned ti = Some n → owned tj = Some n → i = j
}.

(** The leaves below word [w], exploring at most [d] levels of nodes. *)
Fixpoint leaves_from (h : Heap) (d : nat) (w : Z) : list Z :=
  if isNode w then
    match d with
    | O => []
    | S d' =>
        match nodes h !! w with
        | Some cs => flat_map (leaves_from h d') cs
        | None => []
        end
    end
  else
    match getLeaf w with
    | Some p => if p =? 0 then [] else [p]
    | None => []
    end.

(** The leaves reachable from the root. *)
Definition reachable_leaves (h : Heap) : list Z :=
  leaves_from h (S top) (root h).

(** How one step may change a slot. *)
Definition slot_transition (w w' : Z) : Prop :=
  w = w' ∨
  (w = RadixElement_empty ∧ isLeaf w' = true ∧ w' ≠ RadixElement_empty) ∨
  (isLeaf w = true ∧ w ≠ RadixElement_empty ∧ isNode w' = true).

(** What [get(key)] returns when its walk ends on word [w]. *)
Definition result (key w : Z) : Z :=
  match getLeaf w with
  | Some leaf => if (leaf =? 0) || negb (getId leaf =? key) then 0 else leaf
  | None => 0
  end.

Definition found (h : Heap) (key r : Z) : Prop :=
  ∃ w, lookup h key w ∧ result key w = r.

(** Two heaps that differ at most in the node at address [a]. *)
Definition same_but (a : Z) (h h' : Heap) : Prop :=
  root h' = root h ∧ ∀ n, n ≠ a → nodes h' !! n = nodes h !! n.

(** The part of the heap that threads rely on only grows. *)
Record heap_le (h h' : Heap) : Prop := {
  le_path : ∀ k r d, on_path h k r d → on_path h' k r d;
  le_node : ∀ k r d m,
    on_path h k r d → load h r = Some m → isNode m = true →
    load h' r = Some m;
  le_holds : ∀ p, holds h p → holds h' p
}.

(** What one step does to the heap. *)
Inductive Change : Type :=
| ChNone
| ChAlloc (a : Z) (cs : list Z)
| ChFree (n : Z)
| ChLeaf (ref : SlotRef) (v : Z)
| ChPublish (ref : SlotRef) (n : Z).

Definition apply_change (h : Heap) (c : Change) : Heap :=
  match c with
  | ChNone => h
  | ChAlloc a cs => alloc_node h a cs
  | ChFree n => free_node h n
  | ChLeaf ref v => store h ref (RadixElement_leaf v)
  | ChPublish ref n => store h ref (RadixElement_node n)
  end.

Definition change_ok (h : Heap) (c : Change) : Prop :=
  match c with
  | ChNone => True
  | ChAlloc a cs =>
      valid_ptr a = true ∧ nodes h !! a = None ∧ length cs = CHILD_PER_LEVEL
  | ChFree n => unreferenced h n
  | ChLeaf ref v =>
      valid_ptr v = true ∧ load h ref = Some RadixElement_empty ∧
      ∃ d, on_path h (getId v) ref d
  | ChPublish ref n =>
      valid_ptr n = true ∧ unreferenced h n ∧
      ∃ d p cs, on_path h (getId p) ref d ∧
                load h ref = Some (RadixElement_leaf p) ∧
                valid_ptr p = true ∧ (d ≤ top)%nat ∧
                RadixNode_new (level_at d) (getId p) (RadixElement_leaf p)
                  = Some cs ∧
                nodes h !! n = Some cs
  end.

(** The node a change publishes or releases. *)
Definition change_node (c : Change) : option Z :=
  match c with
  | ChFree n | ChPublish _ n => Some n
  | _ => None
  end.

(** The value a change inserts. *)
Definition change_value (c : Change) : option Z :=
  match c with
  | ChLeaf _ v => Some v
  | _ => None
  end.

(** What a step guarantees, given the invariant before it. *)
Definition step_ok (h : Heap) (t : Thread) (ev : Event) (h' : Heap)
    (t' : Thread) : Prop :=
  ∃ c, change_ok h c ∧ h' = apply_change h c ∧ thread_inv h' t' ∧
       (∀ n, change_node c = Some n → owned t = Some n) ∧
       (∀ m, owned t' = Some m →
             (owned t = Some m ∧ change_node c = None) ∨ nodes h !! m = None) ∧
       (∀ v, change_value c = Some v →
             ev = EvLeafCasOk ∧ t' = InsertRet (getId v) v true) ∧
       (∀ k v, t' = InsertRet k v true → change_value c = Some v) ∧
       (ev = EvLeafCasOk → is_Some (change_value c)).

(** The level held by a running call. *)
Definition level_of (t : Thread) : Z :=
  match t with
  | Insert _ _ _ level _ | Get _ level _ => level
  | _ => 0
  end.

(** What a sequential [insert] of [v] (id [key]) guarantees when it starts
    [r] levels above the bottom, runs with events [evs] and returns [b]. *)
Definition insert_post (h : Heap) (key v : Z) (r : nat) (evs : list Event)
    (h' : Heap) (b : bool) : Prop :=
  heap_inv h' ∧
  (count_events is_descend evs ≤ r)%nat ∧
  count_events is_cas_fail evs = 0%nat ∧
  if b then
    found h key 0 ∧ found h' key v ∧
    ∀ k res, k ≠ key → found h k res ↔ found h' k res
  else h' = h ∧ ∃ p, p ≠ 0 ∧ found h key p.

(** A tree obtained from the empty tree by sequential insertions. *)
Definition built_by_inserts (h : Heap) : Prop :=
  ∃ vs, Forall (λ v, valid_ptr v = true) vs ∧ insert_all empty_tree vs = Some h.

(** A call that has not started yet. *)
Definition is_call (t : Thread) : Prop :=
  (∃ v, valid_ptr v = true ∧ t = insert_call v) ∨ (∃ k, t = get_call k).

(** A state of the system reached from the empty tree by some calls. *)
Definition reachable (σ : System) : Prop :=
  ∃ ts tr, Forall is_call ts ∧ exec (mkSystem empty_tree ts) tr σ.

(** Which call a thread is executing: [inl (key, value)] for an [insert],
    [inr key] for a [get]. *)
Definition thread_id (t : Thread) : Z * Z + Z :=
  match t with
  | Insert key value _ _ _ | InsertRet key value _ => inl (key, value)
  | Get key _ _ | GetRet key _ => inr key
  end.

(** The call has returned [true] from an insertion with id [k]. *)
Definition returned_true (k : Z) (t : Thread) : bool :=
  match t with
  | InsertRet k' _ true => k' =? k
  | _ => false
  end.

Definition winners (k : Z) (ts : list Thread) : nat :=
  length (List.filter (returned_true k) ts).

Definition is_leaf_cas_ok (ev : Event) : bool :=
  match ev with EvLeafCasOk => true | _ => false end.

(** The key [k] is in the tree exactly when one insertion of [k] has won. *)
Definition win_inv (k : Z) (σ : System) : Prop :=
  ∃ r, found (heap σ) k r ∧
       winners k (threads σ) = if decide (r = 0) then 0%nat else 1%nat.

(** A call returns [true] from [insert] in the step in which its CAS of an
    empty slot succeeds. *)
Definition cas_inv (tr : list (nat * Event)) (σ : System) : Prop :=
  ∀ i t, threads σ !! i = Some t →
    count_events is_leaf_cas_ok (events_of i tr) =
    match t with InsertRet _ _ true => 1%nat | _ => 0%nat end.

(** The number of descents of a call is the depth it has reached. *)
Definition depth_inv (tr : list (nat * Event)) (σ : System) : Prop :=
  ∀ i t, threads σ !! i = Some t →
    (count_events is_descend (events_of i tr) ≤ S top)%nat ∧
    (returned t = false →
     level_of t = level_at (count_events is_descend (events_of i tr))).

(** Running the threads in the order given by a schedule: each entry names
    the thread that steps and the address the allocator offers to it. *)
Fixpoint run_schedule (s : list (nat * Z)) (σ : System)
    : option (list (nat * Event) * System) :=
  match s with
  | [] => Some ([], σ)
  | (i, a) :: s' =>
      match threads σ !! i with
      | Some t =>
          match thread_step a (heap σ) t with
          | Next ev h' t' =>
              match run_schedule s' (mkSystem h' (<[i := t']> (threads σ))) with
              | Some (tr, σ') => Some ((i, ev) :: tr, σ')
              | None => None
              end
          | _ => None
          end
      | None => None
      end
  end.

(** ** Measures and further invariants of running calls *)

(** The levels a call holding [level] has still to visit. *)
Definition remaining (level : Z) : nat :=
  if level =? 2 ^ LEVEL_BITS - 1 then 0%nat else S (Z.to_nat level).

Definition slot_is_node (h : Heap) (ref : SlotRef) : bool :=
  match load h ref with
  | Some w => isNode w
  | None => false
  end.

(** An upper bound on the steps a call has still to take. *)
Definition budget (h : Heap) (t : Thread) : nat :=
  match t with
  | Insert _ _ eptr level pc =>
      6 * remaining level +
      match pc with
      | InsLoad => if slot_is_node h eptr then 2 else 6
      | InsTest e => if isNode e then 1 else 5
      | InsLeaf _ => 4
      | InsCas _ _ => 3
      end
  | Get _ level pc =>
      remaining level + match pc with GetLoad => 2 | GetTest _ => 1 end
  | InsertRet _ _ _ | GetRet _ _ => 0
  end.

(** The steps a call may take in all. *)
Definition call_fuel (t : Thread) : nat :=
  match t with
  | Insert _ _ _ _ _ | InsertRet _ _ _ => insert_fuel
  | Get _ _ _ | GetRet _ _ => get_fuel
  end.

(** The slot [ref] still holds the word [e] read from it, or holds a node. *)
Definition cur_or_node (h : Heap) (ref : SlotRef) (e : Z) : Prop :=
  ∃ w, load h ref = Some w ∧ (w = e ∨ isNode w = true).

(** What a call knows about the slot from which it read a leaf. *)
Definition stale_ok (h : Heap) (t : Thread) : Prop :=
  match t with
  | Insert _ _ eptr _ (InsTest e) =>
      isNode e = false → e ≠ RadixElement_empty → cur_or_node h eptr e
  | Insert _ _ eptr _ (InsLeaf e) | Insert _ _ eptr _ (InsCas e _) =>
      cur_or_node h eptr e
  | _ => True
  end.

(** Every call stays within its budget. *)
Definition budget_inv (tr : list (nat * Event)) (σ : System) : Prop :=
  ∀ i t, threads σ !! i = Some t →
    stale_ok (heap σ) t ∧
    (length (events_of i tr) + budget (heap σ) t ≤ call_fuel t)%nat.

(** Some slot of the tree refers to node [n]. *)
Definition referenced (h : Heap) (n : Z) : Prop :=
  ∃ k ref d, on_path h k ref d ∧ load h ref = Some (RadixElement_node n) ∧
             isNode n = true.

(** Every allocated node is in the tree or in the hands of the call that
    allocated it. *)
Definition no_garbage (σ : System) : Prop :=
  ∀ n, is_Some (nodes (heap σ) !! n) →
    referenced (heap σ) n ∨
    ∃ i t, threads σ !! i = Some t ∧ owned t = Some n.

(** Every value in the tree was put there by a call that returned [true]. *)
Definition held_inv (σ : System) : Prop :=
  ∀ p, holds (heap σ) p →
    ∃ i, threads σ !! i = Some (InsertRet (getId p) p true).

(** The first value of [vs] whose id is [k], or null. *)
Definition first_with_id (k : Z) (vs : list Z) : Z :=
  match List.filter (λ v, getId v =? k) vs with
  | v :: _ => v
  | [] => 0
  end.

(** What a [get] of the id of [v] knows once the tree holds [v]. *)
Definition get_sees (v : Z) (t : Thread) : Prop :=
  match t with
  | Get k _ GetLoad => k = getId v
  | Get k _ (GetTest e) =>
      k = getId v ∧ (isNode e = false → e = RadixElement_leaf v)
  | GetRet k r => k = getId v ∧ r = v
  | _ => False
  end.

(** ** Assumptions on the template parameter

    [K] is an integer type of at least one byte, and [getId] returns a [K]. *)
Hypothesis sizeof_K_pos : 0 < sizeof_K.
Hypothesis sizeof_K_small : sizeof_K < 2 ^ 28.
Hypothesis getId_range : ∀ p, is_key (getId p).

(** ** Tagged words *)

Lemma isNode_testbit w : isNode w = negb (Z.testbit w 0).
Proof.
  unfold isNode, getDiscriminent, DISCRIMINANT.
  rewrite Z.bit0_odd, negb_involutive.
  change 1 with (Z.ones 1). rewrite Z.land_ones by lia.
  change (2 ^ 1) with 2. rewrite Zmod_odd.
  destruct (Z.odd w); reflexivity.
Qed.

Lemma isLeaf_isNode w : isLeaf w = negb (isNode w).
Proof. unfold isNode, isLeaf. by rewrite negb_involutive. Qed.

Lemma valid_ptr_spec p : valid_ptr p = true ↔ 0 < p ∧ Z.even p = true.
Proof. unfold valid_ptr. rewrite andb_true_iff, Z.ltb_lt. tauto. Qed.

Lemma even_testbit p : Z.even p = true → Z.testbit p 0 = false.
Proof. rewrite Z.bit0_odd, <- Z.negb_even. by intros ->. Qed.

Lemma isNode_even p : Z.even p = true → isNode p = true.
Proof. intros H. by rewrite isNode_testbit, even_testbit. Qed.

Lemma isNode_valid p : valid_ptr p = true → isNode p = true.
Proof. rewrite valid_ptr_spec. intros [_ H]. by apply isNode_even. Qed.

Lemma isNode_leaf p : isNode (RadixElement_leaf p) = false.
Proof.
  rewrite isNode_testbit. unfold RadixElement_leaf, DISCRIMINANT.
  rewrite Z.lor_spec. change (Z.testbit 1 0) with true.
  by rewrite orb_true_r.
Qed.

Lemma isNode_empty : isNode RadixElement_empty = false.
Proof. reflexivity. Qed.

Lemma clear_tag_leaf p :
  Z.even p = true →
  Z.land (RadixElement_leaf p) (Z.lnot DISCRIMINANT) = p.
Proof.
  intros Hev. apply Z.bits_inj'. intros n Hn.
  unfold RadixElement_leaf, DISCRIMINANT.
  rewrite Z.land_spec, Z.lor_spec, Z.lnot_spec by lia.
  destruct (decide (n = 0)) as [->|Hne].
  - rewrite even_testbit by done. reflexivity.
  - replace (Z.testbit 1 n) with false.
    + by rewrite orb_false_r, andb_true_r.
    + symmetry. change 1 with (Z.ones 1). apply Z.ones_spec_high. lia.
Qed.

Lemma getLeaf_leaf p :
  Z.even p = true → getLeaf (RadixElement_leaf p) = Some p.
Proof.
  intros Hev. unfold getLeaf. rewrite isLeaf_isNode, isNode_leaf. cbn.
  by rewrite clear_tag_leaf.
Qed.

Lemma getLeaf_empty : getLeaf RadixElement_empty = Some 0.
Proof. reflexivity. Qed.

Lemma getLeaf_Some e p :
  getLeaf e = Some p → isNode e = false ∧ e = RadixElement_leaf p ∧ Z.even p = true.
Proof.
  unfold getLeaf. rewrite isLeaf_isNode.
  destruct (isNode e) eqn:Hn; [done|]. cbn. intros [= <-].
  rewrite isNode_testbit in Hn. apply negb_false_iff in Hn.
  split; [done|]. split.
  - apply Z.bits_inj'. intros n Hpos.
    unfold RadixElement_leaf, DISCRIMINANT.
    rewrite Z.lor_spec, Z.land_spec, Z.lnot_spec by lia.
    destruct (decide (n = 0)) as [->|Hne].
    + rewrite Hn. reflexivity.
    + replace (Z.testbit 1 n) with false.
      * by rewrite orb_false_r, andb_true_r.
      * symmetry. change 1 with (Z.ones 1). apply Z.ones_spec_high. lia.
  - rewrite <- Z.negb_odd, <- Z.bit0_odd, Z.land_spec, Z.lnot_spec by lia.
    unfold DISCRIMINANT. change (Z.testbit 1 0) with true. cbn.
    by rewrite andb_false_r.
Qed.

Lemma getLeaf_None e : getLeaf e = None ↔ isNode e = true.
Proof.
  unfold getLeaf. rewrite isLeaf_isNode. destruct (isNode e); cbn; split; done.
Qed.

Lemma getLeaf_null e : getLeaf e = Some 0 ↔ e = RadixElement_empty.
Proof.
  split.
  - intros H. by apply getLeaf_Some in H as (_ & -> & _).
  - intros ->. reflexivity.
Qed.

Lemma leaf_inj p q :
  Z.even p = true → Z.even q = true →
  RadixElement_leaf p = RadixElement_leaf q → p = q.
Proof.
  intros Hp Hq Heq. apply getLeaf_leaf in Hp, Hq.
  rewrite Heq in Hp. congruence.
Qed.

Lemma leaf_not_empty p :
  valid_ptr p = true → RadixElement_leaf p ≠ RadixElement_empty.
Proof.
  rewrite valid_ptr_spec. intros [Hpos Hev] Heq.
  apply getLeaf_leaf in Hev. rewrite Heq, getLeaf_empty in Hev.
  injection Hev as Hp. lia.
Qed.

(** ** Levels and key chunks *)

Lemma MASK_ones : MASK = Z.ones 4.
Proof. reflexivity. Qed.

Lemma CHILD_PER_LEVEL_16 : CHILD_PER_LEVEL = 16%nat.
Proof. reflexivity. Qed.

Lemma TOP_LEVEL_bounds :
  0 ≤ TOP_LEVEL ∧ TOP_LEVEL * 4 < KEY_BITS ∧ KEY_BITS ≤ TOP_LEVEL * 4 + 4 ∧
  KEY_BITS < 2 ^ 31.
Proof.
  unfold TOP_LEVEL, KEY_BITS, BITS.
  assert (2 ^ 28 = 268435456) as E28 by reflexivity.
  assert (2 ^ 31 = 2147483648) as E31 by reflexivity.
  pose proof (Z.div_mod (8 * sizeof_K - 1) 4 ltac:(lia)).
  pose proof (Z.mod_pos_bound (8 * sizeof_K - 1) 4 ltac:(lia)).
  lia.
Qed.

Lemma top_TOP_LEVEL : Z.of_nat top = TOP_LEVEL.
Proof. unfold top. pose proof TOP_LEVEL_bounds. lia. Qed.

Lemma level_at_small d : (d ≤ top)%nat → level_at d = TOP_LEVEL - Z.of_nat d.
Proof.
  intros Hd. unfold level_at, LEVEL_BITS.
  pose proof TOP_LEVEL_bounds. pose proof top_TOP_LEVEL.
  assert (2 ^ 31 = 2147483648) as E31 by reflexivity.
  assert (2 ^ 32 = 4294967296) as E32 by reflexivity.
  apply Z.mod_small. lia.
Qed.

Lemma level_at_0 : level_at 0 = TOP_LEVEL.
Proof. rewrite level_at_small by lia. cbn. lia. Qed.

Lemma level_at_bottom : level_at (S top) = 2 ^ 32 - 1.
Proof.
  unfold level_at, LEVEL_BITS. pose proof top_TOP_LEVEL.
  replace (TOP_LEVEL - Z.of_nat (S top)) with (-1) by lia. reflexivity.
Qed.

Lemma level_dec_level_at d : level_dec (level_at d) = level_at (S d).
Proof.
  unfold level_dec, level_at. rewrite Zminus_mod_idemp_l.
  f_equal. lia.
Qed.

Lemma shift_amount_level_at d :
  (d ≤ top)%nat →
  shift_amount (level_at d) = 4 * (TOP_LEVEL - Z.of_nat d) ∧
  0 ≤ shift_amount (level_at d) < KEY_BITS.
Proof.
  intros Hd. rewrite level_at_small by done. unfold shift_amount, BITS, LEVEL_BITS.
  pose proof TOP_LEVEL_bounds. pose proof top_TOP_LEVEL.
  assert (2 ^ 31 = 2147483648) as E31 by reflexivity.
  assert (2 ^ 32 = 4294967296) as E32 by reflexivity.
  rewrite Z.mod_small by lia. lia.
Qed.

Lemma RadixNode_get_level_at d k :
  (d ≤ top)%nat →
  RadixNode_get (level_at d) k = Some (Z.to_nat (child_index (level_at d) k)).
Proof.
  intros Hd. unfold RadixNode_get.
  destruct (shift_amount_level_at d Hd) as [_ Hr].
  destruct (Z.ltb_spec (shift_amount (level_at d)) (Z.max KEY_BITS 32)); [done|lia].
Qed.

Lemma RadixNode_get_bottom k : RadixNode_get (level_at (S top)) k = None.
Proof.
  unfold RadixNode_get. rewrite level_at_bottom.
  pose proof TOP_LEVEL_bounds as (_ & _ & _ & Hk).
  assert (2 ^ 31 = 2147483648) as E31 by reflexivity.
  replace (shift_amount (2 ^ 32 - 1)) with 4294967292 by reflexivity.
  destruct (Z.ltb_spec 4294967292 (Z.max KEY_BITS 32)); [lia|done].
Qed.

Lemma child_index_range l k : 0 ≤ child_index l k < 16.
Proof.
  unfold child_index. rewrite MASK_ones, Z.land_ones by lia.
  change (2 ^ 4) with 16. apply Z.mod_pos_bound. lia.
Qed.

Lemma child_index_lt l k : (Z.to_nat (child_index l k) < CHILD_PER_LEVEL)%nat.
Proof. rewrite CHILD_PER_LEVEL_16. pose proof (child_index_range l k). lia. Qed.

Lemma RadixNode_get_lt l k i :
  RadixNode_get l k = Some i → (i < CHILD_PER_LEVEL)%nat.
Proof.
  unfold RadixNode_get. case_match; [|done]. intros [= <-]. apply child_index_lt.
Qed.

Lemma agree_upto_refl d k : agree_upto d k k.
Proof. by intros j Hj. Qed.

Lemma agree_upto_sym d k k' : agree_upto d k k' → agree_upto d k' k.
Proof. intros H j Hj. symmetry. by apply H. Qed.

Lemma agree_upto_trans d k1 k2 k3 :
  agree_upto d k1 k2 → agree_upto d k2 k3 → agree_upto d k1 k3.
Proof. intros H1 H2 j Hj. rewrite H1 by done. by apply H2. Qed.

Lemma agree_upto_le d d' k k' :
  (d' ≤ d)%nat → agree_upto d k k' → agree_upto d' k k'.
Proof. intros Hle H j Hj. apply H. lia. Qed.

Lemma agree_upto_S d k k' :
  agree_upto (S d) k k' ↔
  agree_upto d k k' ∧ child_index (level_at d) k = child_index (level_at d) k'.
Proof.
  split.
  - intros H. split; [by eapply agree_upto_le; [|done]; lia | apply H; lia].
  - intros [H1 H2] j Hj. destruct (decide (j = d)) as [->|]; [done|].
    apply H1. lia.
Qed.

Lemma child_index_testbit l k n :
  0 ≤ n < 4 → 0 ≤ shift_amount l →
  Z.testbit (child_index l k) n = Z.testbit k (n + shift_amount l).
Proof.
  intros Hn Hs. unfold child_index.
  rewrite MASK_ones, Z.land_spec, Z.shiftr_spec by lia.
  rewrite Z.ones_spec_low by lia. by rewrite andb_true_r.
Qed.

Lemma key_testbit_high k n : is_key k → KEY_BITS ≤ n → Z.testbit k n = false.
Proof.
  intros [H0 H1] Hn. pose proof TOP_LEVEL_bounds.
  destruct (decide (k = 0)) as [->|]; [apply Z.bits_0|].
  apply Z.bits_above_log2; [lia|].
  assert (Z.log2 k < KEY_BITS); [|lia].
  apply Z.log2_lt_pow2; lia.
Qed.

(** Two keys of width [KEY_BITS] that agree on every chunk are equal. *)
Lemma agree_upto_all k k' :
  is_key k → is_key k' → agree_upto (S top) k k' → k = k'.
Proof.
  intros Hk Hk' Hag. apply Z.bits_inj'. intros n Hn.
  destruct (Z_lt_le_dec n KEY_BITS) as [Hlt|Hge].
  2: { by rewrite !key_testbit_high. }
  pose proof TOP_LEVEL_bounds as (HT0 & HT1 & HT2 & _).
  pose proof top_TOP_LEVEL as Htop.
  pose proof (Z.div_mod n 4 ltac:(lia)) as Hdm.
  pose proof (Z.mod_pos_bound n 4 ltac:(lia)) as Hmod.
  assert (0 ≤ n / 4 ≤ TOP_LEVEL) as Hq by lia.
  set (d := Z.to_nat (TOP_LEVEL - n / 4)).
  assert (d ≤ top)%nat as Hd by (unfold d; lia).
  destruct (shift_amount_level_at d Hd) as [Hsh _].
  assert (shift_amount (level_at d) = 4 * (n / 4)) as Hsh'.
  { rewrite Hsh. unfold d. lia. }
  specialize (Hag d ltac:(lia)).
  apply (f_equal (λ x, Z.testbit x (n mod 4))) in Hag.
  rewrite !child_index_testbit in Hag by lia.
  rewrite Hsh' in Hag. by replace (n mod 4 + 4 * (n / 4)) with n in Hag by lia.
Qed.

(** ** Loads and stores *)

Lemma load_store_eq h ref w :
  is_Some (load h ref) → load (store h ref w) ref = Some w.
Proof.
  destruct ref as [|n i]; cbn; [done|].
  destruct (nodes h !! n) as [cs|] eqn:Hn; cbn.
  - intros Hi. rewrite lookup_insert_eq.
    apply list_lookup_insert_eq. by apply lookup_lt_is_Some.
  - by intros [? ?].
Qed.

Lemma load_store_ne h ref ref' w :
  ref ≠ ref' → load (store h ref w) ref' = load h ref'.
Proof.
  intros Hne. destruct ref as [|n i], ref' as [|n' i']; cbn; try done.
  - by destruct (nodes h !! n).
  - destruct (nodes h !! n) as [cs|] eqn:Hn; cbn; [|done].
    destruct (decide (n = n')) as [<-|Hn'].
    + rewrite lookup_insert_eq, Hn.
      apply list_lookup_insert_ne. congruence.
    + by rewrite lookup_insert_ne.
Qed.

Lemma nodes_store h ref w n :
  nodes (store h ref w) !! n =
  match ref with
  | RootSlot => nodes h !! n
  | ChildSlot m i =>
      if decide (m = n) then <[i := w]> <$> nodes h !! n else nodes h !! n
  end.
Proof.
  destruct ref as [|m i]; cbn; [done|].
  destruct (nodes h !! m) as [cs|] eqn:Hm; cbn.
  - case_decide as Hd.
    + subst. by rewrite lookup_insert_eq, Hm.
    + by rewrite lookup_insert_ne.
  - case_decide as Hd; [|done]. subst. by rewrite Hm.
Qed.

Lemma nodes_store_is_Some h ref w n :
  is_Some (nodes (store h ref w) !! n) ↔ is_Some (nodes h !! n).
Proof.
  rewrite nodes_store. destruct ref; [done|].
  case_decide; [|done]. by rewrite fmap_is_Some.
Qed.

Lemma nodes_store_length h ref w n cs :
  nodes (store h ref w) !! n = Some cs →
  ∃ cs0, nodes h !! n = Some cs0 ∧ length cs = length cs0.
Proof.
  rewrite nodes_store. destruct ref as [|m i]; [by eauto|].
  case_decide; [|by eauto].
  destruct (nodes h !! n) as [cs0|]; cbn; [|done].
  intros [= <-]. exists cs0. by rewrite length_insert.
Qed.

Lemma load_alloc_node h a cs ref :
  (∀ i, ref ≠ ChildSlot a i) → load (alloc_node h a cs) ref = load h ref.
Proof.
  intros Hne. destruct ref as [|n i]; cbn; [done|].
  rewrite lookup_insert_ne; [done|]. intros ->. by eapply Hne.
Qed.

Lemma load_free_node h a ref :
  (∀ i, ref ≠ ChildSlot a i) → load (free_node h a) ref = load h ref.
Proof.
  intros Hne. destruct ref as [|n i]; cbn; [done|].
  rewrite lookup_delete_ne; [done|]. intros ->. by eapply Hne.
Qed.

Lemma load_ChildSlot_Some h n i w :
  load h (ChildSlot n i) = Some w → is_Some (nodes h !! n).
Proof. cbn. destruct (nodes h !! n); [by eauto|done]. Qed.

(** ** Paths *)

Lemma on_path_inv h k ref d :
  on_path h k ref d →
  (ref = RootSlot ∧ d = 0%nat) ∨
  ∃ ref0 d0 n, d = S d0 ∧ on_path h k ref0 d0 ∧ load h ref0 = Some n ∧
               isNode n = true ∧
               ref = ChildSlot n (Z.to_nat (child_index (level_at d0) k)).
Proof. destruct 1; [left|right]; eauto 10. Qed.

Lemma on_path_inv_0 h k ref : on_path h k ref 0 → ref = RootSlot.
Proof. intros H. apply on_path_inv in H as [[? ?]|(? & ? & ? & ? & _)]; done. Qed.

Lemma on_path_inv_S h k ref d :
  on_path h k ref (S d) →
  ∃ ref0 n, on_path h k ref0 d ∧ load h ref0 = Some n ∧ isNode n = true ∧
            ref = ChildSlot n (Z.to_nat (child_index (level_at d) k)).
Proof.
  intros H. apply on_path_inv in H as [[? ?]|(? & ? & ? & [= <-] & ?)]; [done|].
  eauto.
Qed.

Lemma on_path_inv_child h k n i d :
  on_path h k (ChildSlot n i) d →
  ∃ ref0 d0, d = S d0 ∧ on_path h k ref0 d0 ∧ load h ref0 = Some n ∧
             isNode n = true ∧ i = Z.to_nat (child_index (level_at d0) k).
Proof.
  intros H. apply on_path_inv in H as [[? ?]|(? & ? & ? & -> & ? & ? & ? & [= -> ->])];
    [done|]. eauto 10.
Qed.

Lemma on_path_inv_root h k d : on_path h k RootSlot d → d = 0%nat.
Proof.
  intros H. apply on_path_inv in H as [[? ?]|(? & ? & ? & ? & ? & ? & ? & ?)]; done.
Qed.

(** The walk for a key is deterministic. *)
Lemma on_path_det h k ref ref' d :
  on_path h k ref d → on_path h k ref' d → ref = ref'.
Proof.
  revert ref ref'. induction d as [|d IH]; intros ref ref' H1 H2.
  - apply on_path_inv_0 in H1, H2. congruence.
  - apply on_path_inv_S in H1 as (r1 & n1 & Hp1 & Hl1 & _ & ->).
    apply on_path_inv_S in H2 as (r2 & n2 & Hp2 & Hl2 & _ & ->).
    rewrite (IH _ _ Hp1 Hp2) in Hl1. congruence.
Qed.

(** The walk only looks at the chunks above the current level. *)
Lemma on_path_agree h k k' ref d :
  agree_upto d k k' → on_path h k ref d → on_path h k' ref d.
Proof.
  intros Hag Hp. induction Hp as [|ref d n Hp IH Hl Hn].
  - constructor.
  - apply agree_upto_S in Hag as [Hag ->]. econstructor; eauto.
Qed.

Lemma on_path_prefix h k ref d d' :
  on_path h k ref d → (d' < d)%nat →
  ∃ ref0 n, on_path h k ref0 d' ∧ load h ref0 = Some n ∧ isNode n = true.
Proof.
  induction 1 as [|ref d n Hp IH Hl Hn]; intros Hlt; [lia|].
  destruct (decide (d' = d)) as [->|]; [by eauto|].
  apply IH. lia.
Qed.

(** Transfer of paths between two heaps that agree on the node words met
    along the way. *)
Lemma on_path_transfer h h' k ref d :
  (∀ r d0 m, on_path h k r d0 → on_path h' k r d0 →
             load h r = Some m → isNode m = true → load h' r = Some m) →
  on_path h k ref d → on_path h' k ref d.
Proof.
  intros Hsame. induction 1 as [|ref d n Hp IH Hl Hn].
  - constructor.
  - econstructor; eauto.
Qed.

Lemma unreferenced_not_on_path h n k i d :
  unreferenced h n → ¬ on_path h k (ChildSlot n i) d.
Proof.
  intros Hun Hp. apply on_path_inv_child in Hp as (r & d0 & _ & Hp & Hl & _).
  by eapply Hun.
Qed.

(** Every slot on a path exists. *)
Lemma on_path_load h k ref d :
  heap_inv h → on_path h k ref d → is_Some (load h ref).
Proof.
  intros Hinv Hp. destruct Hp as [|ref d n Hp Hl Hn]; [by eexists|].
  pose proof (path_ok h Hinv _ _ _ _ Hp Hl) as Hok.
  unfold slot_ok in Hok. rewrite Hn in Hok. destruct Hok as (_ & _ & [cs Hcs]).
  cbn. rewrite Hcs. apply lookup_lt_is_Some.
  rewrite (nodes_wf h Hinv _ _ Hcs). apply child_index_lt.
Qed.

(** ** Lookups *)

Lemma lookup_det h k w w' : lookup h k w → lookup h k w' → w = w'.
Proof.
  intros (r1 & d1 & Hp1 & Hl1 & Hn1) (r2 & d2 & Hp2 & Hl2 & Hn2).
  destruct (lt_eq_lt_dec d1 d2) as [[Hlt | ->] | Hlt].
  - destruct (on_path_prefix _ _ _ _ _ Hp2 Hlt) as (r & n & Hp & Hl & Hn).
    rewrite (on_path_det _ _ _ _ _ Hp Hp1) in Hl. congruence.
  - rewrite (on_path_det _ _ _ _ _ Hp1 Hp2) in Hl1. congruence.
  - destruct (on_path_prefix _ _ _ _ _ Hp1 Hlt) as (r & n & Hp & Hl & Hn).
    rewrite (on_path_det _ _ _ _ _ Hp Hp2) in Hl. congruence.
Qed.

Lemma lookup_from h k ref d :
  heap_inv h → on_path h k ref d → ∃ w, lookup h k w.
Proof.
  intros Hinv. remember (S top - d)%nat as m eqn:Hm.
  revert ref d Hm. induction m as [|m IH]; intros ref d Hm Hp.
  - pose proof (path_depth h Hinv _ _ _ Hp) as Hd.
    destruct (on_path_load _ _ _ _ Hinv Hp) as [w Hl].
    pose proof (path_ok h Hinv _ _ _ _ Hp Hl) as Hok. unfold slot_ok in Hok.
    destruct (isNode w) eqn:Hn; [lia|]. exists w, ref, d. done.
  - destruct (on_path_load _ _ _ _ Hinv Hp) as [w Hl].
    destruct (isNode w) eqn:Hn.
    + eapply (IH _ (S d)); [lia|]. by econstructor.
    + exists w, ref, d. done.
Qed.

Lemma lookup_total h k : heap_inv h → ∃ w, lookup h k w.
Proof. intros Hinv. eapply lookup_from; [done|constructor]. Qed.

(** ** Heaps that differ in an unreferenced node (allocation and release) *)

Lemma same_but_load a h h' ref :
  same_but a h h' → (∀ i, ref ≠ ChildSlot a i) → load h' ref = load h ref.
Proof.
  intros [Hr Hn] Hne. destruct ref as [|n i]; cbn; [by f_equal|].
  rewrite Hn; [done|]. intros ->. by eapply Hne.
Qed.

Lemma same_but_load_path a h h' k ref d :
  same_but a h h' → unreferenced h a → on_path h k ref d →
  load h' ref = load h ref.
Proof.
  intros Hsb Hun Hp. eapply same_but_load; [done|].
  intros i ->. by eapply unreferenced_not_on_path.
Qed.

Lemma same_but_on_path a h h' k ref d :
  same_but a h h' → unreferenced h a →
  on_path h k ref d ↔ on_path h' k ref d.
Proof.
  intros Hsb Hun. split; apply on_path_transfer.
  - intros r d0 m Hp _ Hl _.
    by rewrite (same_but_load_path _ _ _ _ _ _ Hsb Hun Hp).
  - intros r d0 m _ Hp Hl _.
    by rewrite <- (same_but_load_path _ _ _ _ _ _ Hsb Hun Hp).
Qed.

Lemma same_but_lookup a h h' k w :
  same_but a h h' → unreferenced h a → lookup h k w ↔ lookup h' k w.
Proof.
  intros Hsb Hun. split.
  - intros (r & d & Hp & Hl & Hn). exists r, d.
    rewrite <- (same_but_on_path _ _ _ _ _ _ Hsb Hun).
    by rewrite (same_but_load_path _ _ _ _ _ _ Hsb Hun Hp).
  - intros (r & d & Hp & Hl & Hn). exists r, d.
    rewrite <- (same_but_on_path _ _ _ _ _ _ Hsb Hun) in Hp.
    by rewrite <- (same_but_load_path _ _ _ _ _ _ Hsb Hun Hp).
Qed.

Lemma same_but_holds a h h' p :
  same_but a h h' → unreferenced h a → holds h p ↔ holds h' p.
Proof.
  intros Hsb Hun. unfold holds.
  by rewrite (same_but_lookup _ _ _ _ _ Hsb Hun).
Qed.

Lemma same_but_unreferenced a h h' n :
  same_but a h h' → unreferenced h a → unreferenced h n ↔ unreferenced h' n.
Proof.
  intros Hsb Hun. split.
  - intros Hn k r d Hp. rewrite <- (same_but_on_path _ _ _ _ _ _ Hsb Hun) in Hp.
    rewrite (same_but_load_path _ _ _ _ _ _ Hsb Hun Hp). by eapply Hn.
  - intros Hn k r d Hp.
    rewrite <- (same_but_load_path _ _ _ _ _ _ Hsb Hun Hp).
    eapply Hn. by rewrite <- (same_but_on_path _ _ _ _ _ _ Hsb Hun).
Qed.

Lemma same_but_heap_le a h h' :
  same_but a h h' → unreferenced h a → heap_le h h'.
Proof.
  intros Hsb Hun. split.
  - intros k r d. by rewrite (same_but_on_path _ _ _ _ _ _ Hsb Hun).
  - intros k r d m Hp Hl _.
    by rewrite (same_but_load_path _ _ _ _ _ _ Hsb Hun Hp).
  - intros p. by rewrite (same_but_holds _ _ _ _ Hsb Hun).
Qed.

Lemma same_but_heap_inv a h h' :
  same_but a h h' → unreferenced h a →
  (∀ cs, nodes h' !! a = Some cs → length cs = CHILD_PER_LEVEL) →
  heap_inv h → heap_inv h'.
Proof.
  intros Hsb Hun Ha Hinv. split.
  - intros n cs Hn. destruct (decide (n = a)) as [->|Hne]; [by apply Ha|].
    destruct Hsb as [_ Hsb]. rewrite Hsb in Hn by done.
    by eapply nodes_wf.
  - intros k r d. rewrite <- (same_but_on_path _ _ _ _ _ _ Hsb Hun).
    by apply path_depth.
  - intros k r d w Hp. rewrite <- (same_but_on_path _ _ _ _ _ _ Hsb Hun) in Hp.
    rewrite (same_but_load_path _ _ _ _ _ _ Hsb Hun Hp). intros Hl.
    pose proof (path_ok h Hinv _ _ _ _ Hp Hl) as Hok. unfold slot_ok in *.
    destruct (isNode w); [|done]. destruct Hok as (? & ? & Hs).
    split_and!; [done..|]. destruct Hsb as [_ Hsb]. rewrite Hsb; [done|].
    intros ->. by eapply Hun.
  - intros k k' r d d'. rewrite <- !(same_but_on_path _ _ _ _ _ _ Hsb Hun).
    by apply path_unique.
Qed.

(** A fresh address is not referenced: reachable node words are allocated. *)
Lemma fresh_unreferenced h a :
  heap_inv h → valid_ptr a = true → nodes h !! a = None → unreferenced h a.
Proof.
  intros Hinv Hv Ha k r d Hp Hl.
  pose proof (path_ok h Hinv _ _ _ _ Hp Hl) as Hok. unfold slot_ok in Hok.
  rewrite (isNode_valid _ Hv) in Hok. destruct Hok as (_ & _ & [? ?]).
  congruence.
Qed.

Lemma alloc_node_same_but h a cs : same_but a h (alloc_node h a cs).
Proof. split; [done|]. intros n Hn. cbn. by rewrite lookup_insert_ne. Qed.

Lemma free_node_same_but h a : same_but a h (free_node h a).
Proof. split; [done|]. intros n Hn. cbn. by rewrite lookup_delete_ne. Qed.

(** ** Publishing a leaf in an empty slot *)

Section store_leaf.
Variables (h : Heap) (ref : SlotRef) (w0 w1 : Z).
Hypothesis Hload : load h ref = Some w0.
Hypothesis Hw0 : isNode w0 = false.
Hypothesis Hw1 : isNode w1 = false.

Lemma store_leaf_on_path k r d :
  on_path h k r d ↔ on_path (store h ref w1) k r d.
Proof.
  split; apply on_path_transfer.
  - intros r0 d0 m _ _ Hl Hm. rewrite load_store_ne; [done|].
    intros <-. congruence.
  - intros r0 d0 m _ _ Hl Hm. rewrite load_store_ne in Hl; [done|].
    intros <-. rewrite load_store_eq in Hl by (by eexists). congruence.
Qed.

Lemma store_leaf_load r :
  load (store h ref w1) r = if decide (r = ref) then Some w1 else load h r.
Proof.
  case_decide as Hd.
  - subst. apply load_store_eq. by eexists.
  - by apply load_store_ne.
Qed.

Lemma store_leaf_lookup k w :
  lookup (store h ref w1) k w ↔
  ∃ r d, on_path h k r d ∧ isNode w = false ∧
         if decide (r = ref) then w = w1 else load h r = Some w.
Proof.
  unfold lookup. split.
  - intros (r & d & Hp & Hl & Hn). exists r, d.
    rewrite <- store_leaf_on_path in Hp. rewrite store_leaf_load in Hl.
    split_and!; [done..|]. case_decide; congruence.
  - intros (r & d & Hp & Hn & Hl). exists r, d.
    rewrite <- store_leaf_on_path, store_leaf_load.
    split_and!; [done| |done]. case_decide; congruence.
Qed.

Lemma store_leaf_unreferenced n :
  unreferenced h n → isNode n = true → unreferenced (store h ref w1) n.
Proof.
  intros Hun Hn k r d Hp. rewrite <- store_leaf_on_path in Hp.
  rewrite store_leaf_load. case_decide; [congruence|]. by eapply Hun.
Qed.
End store_leaf.

Lemma store_nodes_unreferenced h ref key d w n :
  on_path h key ref d → unreferenced h n →
  nodes (store h ref w) !! n = nodes h !! n.
Proof.
  intros Hp Hun. rewrite nodes_store. destruct ref as [|m i]; [done|].
  case_decide; [|done]. subst. by eapply unreferenced_not_on_path in Hp.
Qed.

Section leaf_cas.
Variables (h : Heap) (ref : SlotRef) (d : nat) (v : Z).
Hypothesis Hinv : heap_inv h.
Hypothesis Hpath : on_path h (getId v) ref d.
Hypothesis Hload : load h ref = Some RadixElement_empty.
Hypothesis Hvalid : valid_ptr v = true.

Let h' := store h ref (RadixElement_leaf v).

Lemma leaf_cas_on_path k r d0 : on_path h k r d0 ↔ on_path h' k r d0.
Proof. eapply store_leaf_on_path; [done..|apply isNode_leaf]. Qed.

Lemma leaf_cas_heap_inv : heap_inv h'.
Proof.
  split.
  - intros n cs Hn. apply nodes_store_length in Hn as (cs0 & Hn & ->).
    by eapply nodes_wf.
  - intros k r d0. rewrite <- leaf_cas_on_path. by apply path_depth.
  - intros k r d0 w Hp. rewrite <- leaf_cas_on_path in Hp.
    unfold h'. rewrite (store_leaf_load _ _ _ _ Hload). case_decide as Hr.
    + intros [= <-]. subst r. unfold slot_ok. rewrite isNode_leaf. right.
      exists v. split_and!; [done..|].
      by destruct (path_unique h Hinv _ _ _ _ _ Hpath Hp) as [<- ?].
    + intros Hl. pose proof (path_ok h Hinv _ _ _ _ Hp Hl) as Hok.
      unfold slot_ok in *. destruct (isNode w); [|done].
      by rewrite nodes_store_is_Some.
  - intros k k' r d1 d2. rewrite <- !leaf_cas_on_path. by apply path_unique.
Qed.

Lemma leaf_cas_lookup_key : lookup h' (getId v) (RadixElement_leaf v).
Proof.
  exists ref, d. rewrite <- leaf_cas_on_path. split_and!; [done| |apply isNode_leaf].
  apply load_store_eq. by eexists.
Qed.

Lemma leaf_cas_holds_new : holds h' v.
Proof. split; [done|apply leaf_cas_lookup_key]. Qed.

Lemma leaf_cas_lookup_fwd k w :
  lookup h k w →
  lookup h' k w ∨
  (w = RadixElement_empty ∧ agree_upto d (getId v) k ∧
   lookup h' k (RadixElement_leaf v)).
Proof.
  intros (r & d0 & Hp & Hl & Hn). destruct (decide (r = ref)) as [->|Hr].
  - right. destruct (path_unique h Hinv _ _ _ _ _ Hpath Hp) as [<- Hag].
    split_and!; [congruence|done|]. exists ref, d.
    rewrite <- leaf_cas_on_path. split_and!; [done| |apply isNode_leaf].
    apply load_store_eq. by eexists.
  - left. exists r, d0. rewrite <- leaf_cas_on_path.
    split_and!; [done| |done]. unfold h'. by rewrite load_store_ne.
Qed.

Lemma leaf_cas_lookup_bwd k w :
  lookup h' k w →
  lookup h k w ∨
  (w = RadixElement_leaf v ∧ lookup h k RadixElement_empty).
Proof.
  intros (r & d0 & Hp & Hl & Hn). rewrite <- leaf_cas_on_path in Hp.
  unfold h' in Hl. rewrite (store_leaf_load _ _ _ _ Hload) in Hl.
  case_decide as Hr.
  - right. subst r. split; [congruence|]. by exists ref, d0.
  - left. by exists r, d0.
Qed.

Lemma leaf_cas_holds p : holds h p → holds h' p.
Proof.
  intros [Hv Hl]. split; [done|].
  apply leaf_cas_lookup_fwd in Hl as [Hl|(He & _)]; [done|].
  by apply leaf_not_empty in He.
Qed.

Lemma leaf_cas_heap_le : heap_le h h'.
Proof.
  split.
  - intros k r d0. by rewrite leaf_cas_on_path.
  - intros k r d0 m Hp Hl Hm. unfold h'. rewrite load_store_ne; [done|].
    intros <-. rewrite Hload in Hl. by injection Hl as <-.
  - apply leaf_cas_holds.
Qed.

Lemma result_leaf_other k : k ≠ getId v → result k (RadixElement_leaf v) = 0.
Proof.
  intros Hk. unfold result. apply valid_ptr_spec in Hvalid as [? Hev].
  rewrite getLeaf_leaf by done.
  destruct (Z.eqb_spec (getId v) k); [congruence|]. cbn.
  by rewrite orb_true_r.
Qed.

Lemma result_leaf_key : result (getId v) (RadixElement_leaf v) = v.
Proof.
  unfold result. apply valid_ptr_spec in Hvalid as [? Hev].
  rewrite getLeaf_leaf by done. rewrite Z.eqb_refl.
  destruct (Z.eqb_spec v 0); [lia|done].
Qed.

(** Other keys are not affected; the new key is found. *)
Lemma leaf_cas_found_other k r : k ≠ getId v → found h k r ↔ found h' k r.
Proof.
  intros Hk. split.
  - intros (w & Hl & Hr). apply leaf_cas_lookup_fwd in Hl as [Hl|(-> & _ & Hl)].
    + by exists w.
    + exists (RadixElement_leaf v). split; [done|].
      rewrite result_leaf_other by done. by rewrite <- Hr.
  - intros (w & Hl & Hr). apply leaf_cas_lookup_bwd in Hl as [Hl|(-> & Hl)].
    + by exists w.
    + exists RadixElement_empty. split; [done|].
      rewrite result_leaf_other in Hr by done. by rewrite <- Hr.
Qed.

Lemma leaf_cas_found_key : found h' (getId v) v.
Proof.
  exists (RadixElement_leaf v). split; [apply leaf_cas_lookup_key|].
  apply result_leaf_key.
Qed.
End leaf_cas.

(** ** Replacing a leaf by a node that holds it *)

Lemma RadixNode_get_Some level key i :
  RadixNode_get level key = Some i → i = Z.to_nat (child_index level key).
Proof. unfold RadixNode_get. case_match; [|done]. by intros [= <-]. Qed.

Lemma insert_replicate_lookup {A} (n j i : nat) (x e : A) :
  (j < n)%nat → (i < n)%nat →
  <[j := e]> (replicate n x) !! i = Some (if decide (i = j) then e else x).
Proof.
  intros Hj Hi. case_decide as Hd.
  - subst i. apply list_lookup_insert_eq. by rewrite length_replicate.
  - rewrite list_lookup_insert_ne by done. by apply lookup_replicate_2.
Qed.

Lemma RadixNode_new_lookup level key e cs i :
  RadixNode_new level key e = Some cs →
  (i < CHILD_PER_LEVEL)%nat →
  cs !! i = Some (if decide (i = Z.to_nat (child_index level key)) then e
                  else RadixElement_empty).
Proof.
  unfold RadixNode_new. destruct (RadixNode_get level key) as [i0|] eqn:Hg; [|done].
  apply RadixNode_get_Some in Hg as ->.
  intros Hcs Hi.
  assert (cs = <[Z.to_nat (child_index level key) := e]>
                 (replicate CHILD_PER_LEVEL RadixElement_empty)) as ->
    by congruence.
  apply insert_replicate_lookup; [apply child_index_lt|done].
Qed.

Lemma RadixNode_new_length level key e cs :
  RadixNode_new level key e = Some cs → length cs = CHILD_PER_LEVEL.
Proof.
  unfold RadixNode_new. case_match; [|done]. intros Hcs.
  assert (length cs = length (<[n := e]>
            (replicate CHILD_PER_LEVEL RadixElement_empty))) as -> by congruence.
  by rewrite length_insert, length_replicate.
Qed.

Lemma RadixNode_new_level_at d key e :
  (d ≤ top)%nat →
  RadixNode_new (level_at d) key e =
  Some (<[Z.to_nat (child_index (level_at d) key) := e]>
          (replicate CHILD_PER_LEVEL RadixElement_empty)).
Proof. intros Hd. unfold RadixNode_new. by rewrite RadixNode_get_level_at. Qed.

Lemma child_index_to_nat_inj l k k' :
  Z.to_nat (child_index l k) = Z.to_nat (child_index l k') →
  child_index l k = child_index l k'.
Proof.
  pose proof (child_index_range l k). pose proof (child_index_range l k'). lia.
Qed.

Section publish.
Variables (h : Heap) (ref : SlotRef) (d : nat) (p n : Z) (cs : list Z).
Hypothesis Hinv : heap_inv h.
Hypothesis Hpath : on_path h (getId p) ref d.
Hypothesis Hload : load h ref = Some (RadixElement_leaf p).
Hypothesis Hvalid : valid_ptr p = true.
Hypothesis Hd : (d ≤ top)%nat.
Hypothesis Hn : valid_ptr n = true.
Hypothesis Hun : unreferenced h n.
Hypothesis Hcs : RadixNode_new (level_at d) (getId p) (RadixElement_leaf p) = Some cs.
Hypothesis Hnode : nodes h !! n = Some cs.

Let h' := store h ref (RadixElement_node n).
Let slot (k : Z) := ChildSlot n (Z.to_nat (child_index (level_at d) k)).

Lemma publish_ref_not_new i : ref ≠ ChildSlot n i.
Proof. intros ->. by eapply unreferenced_not_on_path in Hpath. Qed.

Lemma publish_load_ref : load h' ref = Some n.
Proof. apply load_store_eq. by eexists. Qed.

Lemma publish_load_other r : r ≠ ref → load h' r = load h r.
Proof. intros Hr. by apply load_store_ne. Qed.

Lemma publish_load_new k :
  load h' (slot k) =
  Some (if decide (child_index (level_at d) k =
                   child_index (level_at d) (getId p))
        then RadixElement_leaf p else RadixElement_empty).
Proof.
  rewrite publish_load_other
    by (intros Heq; symmetry in Heq; by apply publish_ref_not_new in Heq).
  cbn. rewrite Hnode.
  rewrite (RadixNode_new_lookup _ _ _ _ _ Hcs) by apply child_index_lt.
  do 2 case_decide; try done.
  - by apply child_index_to_nat_inj in H.
  - congruence.
Qed.

Lemma publish_on_path_old k r d0 : on_path h k r d0 → on_path h' k r d0.
Proof.
  apply on_path_transfer. intros r0 d1 m _ _ Hl Hm.
  rewrite publish_load_other; [done|]. intros ->.
  rewrite Hload in Hl. injection Hl as <-. by rewrite isNode_leaf in Hm.
Qed.

Lemma publish_on_path_new k :
  on_path h k ref d → on_path h' k (slot k) (S d).
Proof.
  intros Hp. econstructor.
  - by apply publish_on_path_old.
  - apply publish_load_ref.
  - by apply isNode_valid.
Qed.

Lemma publish_on_path_inv k r d0 :
  on_path h' k r d0 →
  on_path h k r d0 ∨ (on_path h k ref d ∧ r = slot k ∧ d0 = S d).
Proof.
  induction 1 as [|r d0 m Hp IH Hl Hm].
  - left. constructor.
  - destruct IH as [IH|(IH & -> & ->)].
    + destruct (decide (r = ref)) as [->|Hr].
      * rewrite publish_load_ref in Hl. injection Hl as <-.
        destruct (path_unique h Hinv _ _ _ _ _ Hpath IH) as [<- _].
        right. done.
      * rewrite publish_load_other in Hl by done. left. by econstructor.
    + rewrite publish_load_new in Hl. injection Hl as <-.
      case_decide; by rewrite ?isNode_leaf, ?isNode_empty in Hm.
Qed.

Lemma publish_on_path_ref k d0 : on_path h k ref d0 → d0 = d.
Proof.
  intros Hp. by destruct (path_unique h Hinv _ _ _ _ _ Hpath Hp) as [<- _].
Qed.

Lemma publish_agree k d0 : on_path h k ref d0 → agree_upto d (getId p) k.
Proof.
  intros Hp. by destruct (path_unique h Hinv _ _ _ _ _ Hpath Hp) as [<- ?].
Qed.

Lemma publish_heap_inv : heap_inv h'.
Proof.
  split.
  - intros m cs0 Hm. apply nodes_store_length in Hm as (cs1 & Hm & ->).
    by eapply nodes_wf.
  - intros k r d0 Hp. apply publish_on_path_inv in Hp as [Hp|(_ & _ & ->)].
    + by eapply path_depth.
    + lia.
  - intros k r d0 w Hp Hl. unfold slot_ok.
    apply publish_on_path_inv in Hp as [Hp|(Hp & -> & ->)].
    + destruct (decide (r = ref)) as [->|Hr].
      * rewrite publish_load_ref in Hl. injection Hl as <-.
        rewrite (isNode_valid _ Hn). apply publish_on_path_ref in Hp as ->.
        split_and!; [done..|]. unfold h'. rewrite nodes_store_is_Some.
        by eexists.
      * rewrite publish_load_other in Hl by done.
        pose proof (path_ok h Hinv _ _ _ _ Hp Hl) as Hok. unfold slot_ok in Hok.
        destruct (isNode w); [|done]. unfold h'.
        by rewrite nodes_store_is_Some.
    + rewrite publish_load_new in Hl. injection Hl as <-.
      case_decide as Hi.
      * rewrite isNode_leaf. right. exists p. split_and!; [done..|].
        apply agree_upto_S. split; [by eapply publish_agree|done].
      * rewrite isNode_empty. by left.
  - intros k k' r d1 d2 Hp1 Hp2.
    apply publish_on_path_inv in Hp1 as [Hp1|(Hp1 & -> & ->)];
      apply publish_on_path_inv in Hp2 as [Hp2|(Hp2 & Hr & ->)].
    + by eapply path_unique.
    + subst r. by eapply unreferenced_not_on_path in Hp1.
    + by eapply unreferenced_not_on_path in Hp2.
    + split; [done|]. apply agree_upto_S. split.
      * eapply agree_upto_trans; [|by eapply publish_agree].
        apply agree_upto_sym. by eapply publish_agree.
      * injection Hr as Hr. by apply child_index_to_nat_inj in Hr.
Qed.

Lemma result_leaf_differ k :
  child_index (level_at d) k ≠ child_index (level_at d) (getId p) →
  result k (RadixElement_leaf p) = 0.
Proof.
  intros Hk. unfold result. apply valid_ptr_spec in Hvalid as [? Hev].
  rewrite getLeaf_leaf by done.
  destruct (Z.eqb_spec (getId p) k); [congruence|]. cbn.
  by rewrite orb_true_r.
Qed.

(** What the walk for [k] finds below the new node. *)
Lemma publish_lookup_new k :
  on_path h k ref d →
  ∃ w, lookup h' k w ∧ result k w = result k (RadixElement_leaf p) ∧
       (w = RadixElement_leaf p ∨ w = RadixElement_empty) ∧
       (k = getId p → w = RadixElement_leaf p).
Proof.
  intros Hp. pose proof (publish_load_new k) as Hl.
  case_decide as Hi.
  - exists (RadixElement_leaf p). split_and!; [|done|by left|done].
    exists (slot k), (S d). split_and!; [|done|apply isNode_leaf].
    by apply publish_on_path_new.
  - exists RadixElement_empty. split_and!; [|by rewrite result_leaf_differ|by right|].
    + exists (slot k), (S d). split_and!; [|done|done].
      by apply publish_on_path_new.
    + intros ->. done.
Qed.

Lemma publish_lookup_fwd k w :
  lookup h k w →
  ∃ w', lookup h' k w' ∧ result k w' = result k w ∧
        (w' = w ∨ (w = RadixElement_leaf p ∧ w' = RadixElement_empty ∧ k ≠ getId p)).
Proof.
  intros (r & d0 & Hp & Hl & Hw). destruct (decide (r = ref)) as [->|Hr].
  - rewrite Hload in Hl. injection Hl as <-.
    apply publish_on_path_ref in Hp as Hd0. subst d0.
    destruct (publish_lookup_new k Hp) as (w' & Hl' & Hr' & [->| ->] & Hk).
    + exists (RadixElement_leaf p). split_and!; [done..|by left].
    + exists RadixElement_empty. split_and!; [done..|right].
      split_and!; [done..|]. intros ->. specialize (Hk eq_refl).
      symmetry in Hk. by apply leaf_not_empty in Hk.
  - exists w. split_and!; [|done|by left].
    exists r, d0. split_and!; [by apply publish_on_path_old| |done].
    by rewrite publish_load_other.
Qed.

Lemma publish_lookup_bwd k w' :
  lookup h' k w' →
  ∃ w, lookup h k w ∧ result k w' = result k w.
Proof.
  intros (r & d0 & Hp & Hl & Hw).
  apply publish_on_path_inv in Hp as [Hp|(Hp & -> & ->)].
  - destruct (decide (r = ref)) as [->|Hr].
    + rewrite publish_load_ref in Hl. injection Hl as <-.
      by rewrite (isNode_valid _ Hn) in Hw.
    + rewrite publish_load_other in Hl by done.
      exists w'. split; [|done]. by exists r, d0.
  - exists (RadixElement_leaf p). split.
    + exists ref, d. split_and!; [done..|apply isNode_leaf].
    + rewrite publish_load_new in Hl. injection Hl as <-.
      case_decide; [done|]. by rewrite result_leaf_differ.
Qed.

Lemma publish_found k r : found h k r ↔ found h' k r.
Proof.
  split.
  - intros (w & Hl & Hr). apply publish_lookup_fwd in Hl as (w' & Hl & Hr' & _).
    exists w'. split; [done|congruence].
  - intros (w & Hl & Hr). apply publish_lookup_bwd in Hl as (w' & Hl & Hr').
    exists w'. split; [done|congruence].
Qed.

Lemma publish_holds q : holds h q → holds h' q.
Proof.
  intros [Hv Hl]. split; [done|].
  apply publish_lookup_fwd in Hl as (w' & Hl & _ & [->|(Hq & -> & Hne)]);
    [done|].
  apply leaf_inj in Hq; [congruence|by apply valid_ptr_spec in Hv as [_ ?]|].
  by apply valid_ptr_spec in Hvalid as [_ ?].
Qed.

Lemma publish_heap_le : heap_le h h'.
Proof.
  split.
  - apply publish_on_path_old.
  - intros k r d0 m Hp Hl Hm. rewrite publish_load_other; [done|].
    intros ->. rewrite Hload in Hl. injection Hl as <-.
    by rewrite isNode_leaf in Hm.
  - apply publish_holds.
Qed.

(** Another unpublished node stays unreferenced and untouched. *)
Lemma publish_unreferenced m :
  unreferenced h m → m ≠ n → isNode m = true → unreferenced h' m.
Proof.
  intros Hm Hne Hnode_m k r d0 Hp Hl.
  apply publish_on_path_inv in Hp as [Hp|(Hp & -> & ->)].
  - destruct (decide (r = ref)) as [->|Hr].
    + rewrite publish_load_ref in Hl. congruence.
    + rewrite publish_load_other in Hl by done. by eapply Hm.
  - rewrite publish_load_new in Hl. injection Hl as <-.
    case_decide; by rewrite ?isNode_leaf, ?isNode_empty in Hnode_m.
Qed.
End publish.

(** ** The effect of a change on the invariant and on lookups *)

Lemma heap_le_refl h : heap_le h h.
Proof. by split. Qed.

Lemma change_heap_inv h c :
  heap_inv h → change_ok h c → heap_inv (apply_change h c).
Proof.
  intros Hinv Hok. destruct c as [|a cs|n|ref v|ref n]; cbn in *.
  - done.
  - destruct Hok as (Hv & Ha & Hlen).
    eapply same_but_heap_inv;
      [apply alloc_node_same_but|by apply fresh_unreferenced| |done].
    intros cs0. cbn. rewrite lookup_insert_eq. by intros [= <-].
  - eapply same_but_heap_inv; [apply free_node_same_but|done| |done].
    intros cs0. cbn. by rewrite lookup_delete_eq.
  - destruct Hok as (Hv & Hl & d & Hp). by eapply leaf_cas_heap_inv.
  - destruct Hok as (Hv & Hun & d & p & cs & Hp & Hl & Hvp & Hd & Hcs & Hn).
    by eapply publish_heap_inv.
Qed.

Lemma change_heap_le h c :
  heap_inv h → change_ok h c → heap_le h (apply_change h c).
Proof.
  intros Hinv Hok. destruct c as [|a cs|n|ref v|ref n]; cbn in *.
  - apply heap_le_refl.
  - destruct Hok as (Hv & Ha & Hlen).
    eapply same_but_heap_le; [apply alloc_node_same_but|].
    by apply fresh_unreferenced.
  - eapply same_but_heap_le; [apply free_node_same_but|done].
  - destruct Hok as (Hv & Hl & d & Hp). by eapply leaf_cas_heap_le.
  - destruct Hok as (Hv & Hun & d & p & cs & Hp & Hl & Hvp & Hd & Hcs & Hn).
    by eapply publish_heap_le.
Qed.

(** Unpublished nodes of other threads are not affected. *)
Lemma change_frame_owned h c m :
  heap_inv h → change_ok h c →
  unreferenced h m → valid_ptr m = true → is_Some (nodes h !! m) →
  change_node c ≠ Some m →
  unreferenced (apply_change h c) m ∧
  nodes (apply_change h c) !! m = nodes h !! m.
Proof.
  intros Hinv Hok Hun Hv Hm Hne.
  destruct c as [|a cs|n|ref v|ref n]; cbn in *.
  - done.
  - destruct Hok as (Hva & Ha & Hlen). split.
    + rewrite <- same_but_unreferenced;
        [done|apply alloc_node_same_but|by apply fresh_unreferenced].
    + rewrite lookup_insert_ne; [done|]. intros ->. rewrite Ha in Hm.
      by destruct Hm.
  - split.
    + by rewrite <- same_but_unreferenced; [|apply free_node_same_but|].
    + rewrite lookup_delete_ne; [done|]. congruence.
  - destruct Hok as (Hvv & Hl & d & Hp). split.
    + eapply store_leaf_unreferenced; [done..|apply isNode_leaf|done|].
      by apply isNode_valid.
    + by eapply store_nodes_unreferenced.
  - destruct Hok as (Hvn & Hunn & d & p & cs & Hp & Hl & Hvp & Hd & Hcs & Hn).
    split.
    + eapply publish_unreferenced; try done; [congruence|by apply isNode_valid].
    + by eapply store_nodes_unreferenced.
Qed.

Lemma found_det h k r r' : found h k r → found h k r' → r = r'.
Proof.
  intros (w & Hl & <-) (w' & Hl' & <-). by rewrite (lookup_det _ _ _ _ Hl Hl').
Qed.

Lemma found_total h k : heap_inv h → ∃ r, found h k r.
Proof.
  intros Hinv. destruct (lookup_total h k Hinv) as [w Hw].
  by exists (result k w), w.
Qed.

Lemma same_but_found a h h' k r :
  same_but a h h' → unreferenced h a → found h k r ↔ found h' k r.
Proof.
  intros Hsb Hun. unfold found.
  by setoid_rewrite (same_but_lookup _ _ _ _ _ Hsb Hun).
Qed.

(** A change only affects the lookups of the key it inserts. *)
Lemma change_found h c k r :
  heap_inv h → change_ok h c →
  (∀ v, change_value c = Some v → k ≠ getId v) →
  found h k r ↔ found (apply_change h c) k r.
Proof.
  intros Hinv Hok Hne. destruct c as [|a cs|n|ref v|ref n]; cbn in *.
  - done.
  - destruct Hok as (Hv & Ha & Hlen).
    eapply same_but_found; [apply alloc_node_same_but|].
    by apply fresh_unreferenced.
  - eapply same_but_found; [apply free_node_same_but|done].
  - destruct Hok as (Hv & Hl & d & Hp).
    eapply leaf_cas_found_other; [done..|]. by apply Hne.
  - destruct Hok as (Hv & Hun & d & p & cs & Hp & Hl & Hvp & Hd & Hcs & Hn).
    by eapply publish_found.
Qed.

Lemma change_found_new h ref v :
  heap_inv h → change_ok h (ChLeaf ref v) →
  found h (getId v) 0 ∧ found (apply_change h (ChLeaf ref v)) (getId v) v.
Proof.
  intros Hinv (Hv & Hl & d & Hp). split.
  - exists RadixElement_empty. split; [|done]. by exists ref, d.
  - by eapply leaf_cas_found_key.
Qed.

(** How a change moves a slot through its states. *)
Lemma change_slot_transition h c ref w w' :
  heap_inv h → change_ok h c →
  load h ref = Some w → load (apply_change h c) ref = Some w' →
  slot_transition w w'.
Proof.
  intros Hinv Hok Hl Hl'. destruct c as [|a cs|n|r v|r n]; cbn in *.
  - left. congruence.
  - destruct Hok as (Hv & Ha & Hlen). left.
    rewrite load_alloc_node in Hl'; [congruence|].
    intros i ->. cbn in Hl. by rewrite Ha in Hl.
  - left. rewrite load_free_node in Hl'; [congruence|].
    intros i ->. cbn in Hl'. by rewrite lookup_delete_eq in Hl'.
  - destruct Hok as (Hv & Hr & d & Hp).
    destruct (decide (ref = r)) as [->|Hne].
    + rewrite load_store_eq in Hl' by (by eexists). right. left.
      injection Hl' as <-. split_and!; [congruence| |by apply leaf_not_empty].
      by rewrite isLeaf_isNode, isNode_leaf.
    + rewrite load_store_ne in Hl' by done. left. congruence.
  - destruct Hok as (Hv & Hun & d & p & cs & Hp & Hr & Hvp & Hd & Hcs & Hn).
    destruct (decide (ref = r)) as [->|Hne].
    + rewrite load_store_eq in Hl' by (by eexists). right. right.
      injection Hl' as <-. rewrite Hr in Hl. injection Hl as <-.
      split_and!; [by rewrite isLeaf_isNode, isNode_leaf|by apply leaf_not_empty|].
      by apply isNode_valid.
    + rewrite load_store_ne in Hl' by done. left. congruence.
Qed.

(** ** What threads know is stable *)

Lemma load_seen h key ref d e :
  heap_inv h → on_path h key ref d → load h ref = Some e →
  seen h key ref d e.
Proof.
  intros Hinv Hp Hl. pose proof (path_ok h Hinv _ _ _ _ Hp Hl) as Hok.
  unfold slot_ok in Hok. unfold seen. destruct (isNode e) eqn:He; [done|].
  destruct Hok as [->|(p & -> & Hv & Hag)]; [by left|right].
  exists p. split_and!; [done..|]. split; [done|]. exists ref, d.
  split_and!; [|done|done]. eapply on_path_agree; [|done].
  by apply agree_upto_sym.
Qed.

Lemma leaf_seen_stable h h' key d e :
  heap_le h h' → leaf_seen h key d e → leaf_seen h' key d e.
Proof.
  intros Hle (p & -> & Hag & Hh). exists p. split_and!; [done..|].
  by apply (le_holds _ _ Hle).
Qed.

Lemma seen_stable h h' key ref d e :
  heap_le h h' → on_path h key ref d →
  seen h key ref d e → seen h' key ref d e.
Proof.
  intros Hle Hp. unfold seen. destruct (isNode e) eqn:He.
  - intros Hl. by eapply (le_node _ _ Hle).
  - intros [->|Hs]; [by left|right]. by eapply leaf_seen_stable.
Qed.

Lemma leaf_seen_not_node h key d e : leaf_seen h key d e → isNode e = false.
Proof. intros (p & -> & _). apply isNode_leaf. Qed.

Lemma leaf_seen_getLeaf h key d e :
  leaf_seen h key d e →
  ∃ p, getLeaf e = Some p ∧ e = RadixElement_leaf p ∧ p ≠ 0 ∧
       valid_ptr p = true ∧ agree_upto d (getId p) key ∧ holds h p.
Proof.
  intros (p & -> & Hag & Hh). exists p. pose proof Hh as [Hv _].
  apply valid_ptr_spec in Hv as [Hpos Hev].
  split_and!; [by apply getLeaf_leaf|done|lia|by apply valid_ptr_spec|done..].
Qed.

Lemma agree_depth d k k' :
  is_key k → is_key k' → k ≠ k' → agree_upto d k k' → (d ≤ S top)%nat →
  (d ≤ top)%nat.
Proof.
  intros Hk Hk' Hne Hag Hd. destruct (decide (d = S top)) as [->|]; [|lia].
  by apply agree_upto_all in Hag.
Qed.

Lemma thread_inv_stable h h' t :
  heap_le h h' →
  (∀ n, owned t = Some n → unreferenced h n → valid_ptr n = true →
        is_Some (nodes h !! n) →
        unreferenced h' n ∧ nodes h' !! n = nodes h !! n) →
  thread_inv h t → thread_inv h' t.
Proof.
  intros Hle Hown. destruct t as [key value eptr level pc|key value r|key level pc|key r];
    cbn.
  - intros (Hv & Hid & d & Hp & Hlev & Hpc). split_and!; [done..|].
    exists d. split_and!; [by apply (le_path _ _ Hle)|done|].
    destruct pc as [|e|e|e n]; cbn in *.
    + done.
    + by eapply seen_stable.
    + by eapply leaf_seen_stable.
    + destruct Hpc as (p & cs & -> & Hag & Hh & Hne & Hvn & Hun & Hcs & Hn).
      destruct (Hown n eq_refl Hun Hvn) as [Hun' Hn']; [by eexists|].
      exists p, cs. split_and!; try done; [by apply (le_holds _ _ Hle)|congruence].
  - intros (Hv & Hid & Hr). split_and!; [done..|]. destruct r.
    + by apply (le_holds _ _ Hle).
    + destruct Hr as (p & Hh & Hp). exists p. split; [|done].
      by apply (le_holds _ _ Hle).
  - destruct pc as [|e]; [done|]. intros (ref & d & Hp & Hlev & Hs).
    exists ref, d. split_and!; [by apply (le_path _ _ Hle)|done|].
    by eapply seen_stable.
  - intros [->|[Hh Hid]]; [by left|right]. split; [|done].
    by apply (le_holds _ _ Hle).
Qed.

Lemma descend_spec h key ref d e :
  heap_inv h → on_path h key ref d → load h ref = Some e → isNode e = true →
  ∃ e', descend h e (level_at d) key =
          Some (ChildSlot e (Z.to_nat (child_index (level_at d) key)),
                level_at (S d), e') ∧
        on_path h key (ChildSlot e (Z.to_nat (child_index (level_at d) key))) (S d) ∧
        load h (ChildSlot e (Z.to_nat (child_index (level_at d) key))) = Some e'.
Proof.
  intros Hinv Hp Hl He.
  pose proof (path_ok h Hinv _ _ _ _ Hp Hl) as Hok. unfold slot_ok in Hok.
  rewrite He in Hok. destruct Hok as (Hd & Hv & Hs).
  assert (on_path h key (ChildSlot e (Z.to_nat (child_index (level_at d) key))) (S d))
    as Hp' by (by econstructor).
  destruct (on_path_load _ _ _ _ Hinv Hp') as [e' Hl'].
  exists e'. split_and!; [|done..]. unfold descend, getNode. rewrite He.
  rewrite RadixNode_get_level_at by done. rewrite Hl'.
  by rewrite level_dec_level_at.
Qed.

(** ** One step of a thread, under the invariant *)

Lemma step_ok_none h t ev t' :
  thread_inv h t' → owned t' = None → ev ≠ EvLeafCasOk →
  (∀ k v, t' ≠ InsertRet k v true) →
  step_ok h t ev h t'.
Proof.
  intros Ht Ho Hev Hr. exists ChNone. cbn.
  split_and!; try done; try congruence.
Qed.

Lemma insert_step_ok a h key value eptr level pc :
  heap_inv h → thread_inv h (Insert key value eptr level pc) →
  match insert_step a h key value eptr level pc with
  | Fault => False
  | Blocked => alloc_ok h a = false
  | Next ev h' t' => step_ok h (Insert key value eptr level pc) ev h' t'
  end.
Proof.
  intros Hinv (Hv & Hid & d & Hp & -> & Hpc).
  destruct (on_path_load _ _ _ _ Hinv Hp) as [cur Hcur].
  destruct pc as [|e|e|e n]; cbn [insert_step insert_pc_inv] in *.
  - (* InsLoad *)
    rewrite Hcur. apply step_ok_none; [|done..].
    cbn. split_and!; [done..|]. exists d. split_and!; [done..|].
    by apply load_seen.
  - (* InsTest *)
    unfold seen in Hpc. destruct (isNode e) eqn:He.
    + destruct (descend_spec _ _ _ _ _ Hinv Hp Hpc He) as (e' & -> & Hp' & Hl').
      apply step_ok_none; [|done..].
      cbn. split_and!; [done..|]. exists (S d). split_and!; [done..|].
      by apply load_seen.
    + destruct Hpc as [->|Hs].
      * rewrite getLeaf_empty. cbn [Z.eqb]. unfold compare_exchange_strong.
        rewrite Hcur. destruct (Z.eqb_spec cur RadixElement_empty) as [->|Hne].
        -- exists (ChLeaf eptr value). subst key.
           assert (change_ok h (ChLeaf eptr value)) as Hok.
           { cbn. split_and!; [done..|]. by exists d. }
           cbn [apply_change change_node change_value owned].
           split_and!; try done.
           ++ cbn. split_and!; [done..|]. by eapply leaf_cas_holds_new.
           ++ by intros v [= <-].
           ++ by intros k v [= _ <-].
        -- apply step_ok_none; [|by destruct (isNode cur)|done|by destruct (isNode cur)].
           cbn. split_and!; [done..|]. exists d. split_and!; [done..|].
           pose proof (load_seen _ _ _ _ _ Hinv Hp Hcur) as Hs. unfold seen in Hs.
           destruct (isNode cur) eqn:Hc; cbn.
           ++ unfold seen. by rewrite Hc.
           ++ by destruct Hs.
      * destruct (leaf_seen_getLeaf _ _ _ _ Hs) as (p & -> & _ & Hp0 & _).
        destruct (Z.eqb_spec p 0) as [|_]; [done|].
        apply step_ok_none; [|done..].
        cbn. split_and!; [done..|]. by exists d.
  - (* InsLeaf *)
    destruct (leaf_seen_getLeaf _ _ _ _ Hpc) as (p & -> & -> & Hp0 & Hvp & Hag & Hh).
    destruct (Z.eqb_spec p 0) as [|_]; [done|].
    destruct (Z.eqb_spec key (getId p)) as [Hk|Hk].
    + apply step_ok_none; [|done..]. cbn. split_and!; [done..|]. by exists p.
    + assert (d ≤ top)%nat as Hd.
      { eapply (agree_depth d (getId p) key); try done.
        - subst key. apply getId_range.
        - by eapply path_depth. }
      rewrite RadixNode_new_level_at by done.
      destruct (alloc_ok h a) eqn:Ha; [|done].
      apply andb_true_iff in Ha as [Hva Hfree]. apply bool_decide_eq_true in Hfree.
      set (cs := <[_ := _]> _).
      assert (change_ok h (ChAlloc a cs)) as Hok.
      { cbn. split_and!; [done..|]. unfold cs.
        by rewrite length_insert, length_replicate. }
      pose proof (change_heap_le _ _ Hinv Hok) as Hle.
      exists (ChAlloc a cs).
      cbn [apply_change change_node change_value owned].
      split_and!; try done.
      * cbn. split_and!; [done..|]. exists d.
        split_and!; [by apply (le_path _ _ Hle)|done|].
        exists p, cs. split_and!; try done.
        -- by apply (le_holds _ _ Hle).
        -- rewrite <- same_but_unreferenced;
             [by apply fresh_unreferenced|apply alloc_node_same_but|
              by apply fresh_unreferenced].
        -- by apply RadixNode_new_level_at.
        -- by rewrite lookup_insert_eq.
      * intros m [= <-]. by right.
  - (* InsCas *)
    destruct Hpc as (p & cs & -> & Hag & Hh & Hne & Hvn & Hun & Hcs & Hn).
    pose proof Hh as [Hvp _].
    unfold compare_exchange_strong. rewrite Hcur.
    destruct (Z.eqb_spec cur (RadixElement_leaf p)) as [->|Hne'].
    + assert (change_ok h (ChPublish eptr n)) as Hok.
      { cbn. split_and!; [done..|]. exists d, p, cs.
        split_and!; try done.
        - eapply on_path_agree; [|done]. by apply agree_upto_sym.
        - eapply (agree_depth d (getId p) key); try done.
          + subst key. apply getId_range.
          + by eapply path_depth. }
      pose proof (change_heap_le _ _ Hinv Hok) as Hle.
      exists (ChPublish eptr n).
      cbn [apply_change change_node change_value owned].
      split_and!; try done.
      * cbn. split_and!; [done..|]. exists d.
        split_and!; [by apply (le_path _ _ Hle)|done..].
    + assert (change_ok h (ChFree n)) as Hok by done.
      pose proof (change_heap_le _ _ Hinv Hok) as Hle.
      exists (ChFree n).
      cbn [apply_change change_node change_value owned].
      split_and!; try done.
      * cbn. split_and!; [done..|]. exists d.
        split_and!; [by apply (le_path _ _ Hle)|done..].
Qed.

Lemma get_step_ok h key level pc :
  heap_inv h → thread_inv h (Get key level pc) →
  match get_step h key level pc with
  | Fault | Blocked => False
  | Next ev h' t' => step_ok h (Get key level pc) ev h' t'
  end.
Proof.
  intros Hinv Ht. destruct pc as [|e]; cbn [get_step thread_inv] in *.
  - subst level. apply step_ok_none; [|done..]. cbn.
    exists RootSlot, 0%nat. split_and!; [constructor|by rewrite level_at_0|].
    apply load_seen; [done|constructor|done].
  - destruct Ht as (ref & d & Hp & -> & Hs). unfold seen in Hs.
    destruct (isNode e) eqn:He.
    + destruct (descend_spec _ _ _ _ _ Hinv Hp Hs He) as (e' & -> & Hp' & Hl').
      apply step_ok_none; [|done..]. cbn.
      eexists _, (S d). split_and!; [done..|]. by apply load_seen.
    + destruct Hs as [->|Hs].
      * rewrite getLeaf_empty. cbn. apply step_ok_none; [|done..]. by left.
      * destruct (leaf_seen_getLeaf _ _ _ _ Hs) as (p & -> & _ & Hp0 & _ & _ & Hh).
        destruct ((p =? 0) || negb (getId p =? key)) eqn:Hc.
        -- apply step_ok_none; [|done..]. by left.
        -- apply step_ok_none; [|done..]. right. split; [done|].
           apply orb_false_iff in Hc as [_ Hc]. apply negb_false_iff in Hc.
           by apply Z.eqb_eq in Hc.
Qed.

Lemma thread_step_ok a h t :
  heap_inv h → thread_inv h t →
  match thread_step a h t with
  | Fault => False
  | Blocked => returned t = true ∨ alloc_ok h a = false
  | Next ev h' t' => step_ok h t ev h' t'
  end.
Proof.
  intros Hinv Ht. destruct t as [key value eptr level pc|key value r|key level pc|key r].
  - pose proof (insert_step_ok a _ _ _ _ _ _ Hinv Ht) as H. cbn.
    destruct insert_step; [done..|by right].
  - by left.
  - pose proof (get_step_ok _ _ _ _ Hinv Ht) as H. cbn.
    by destruct get_step.
  - by left.
Qed.

(** ** The invariant holds along every execution *)

Lemma thread_inv_owned h t n :
  thread_inv h t → owned t = Some n →
  unreferenced h n ∧ valid_ptr n = true ∧ is_Some (nodes h !! n).
Proof.
  destruct t as [key value eptr level [|e|e|e m]|?|?|?]; try done.
  intros (_ & _ & d & _ & _ & Hpc) [= <-].
  destruct Hpc as (p & cs & _ & _ & _ & _ & Hv & Hun & _ & Hn).
  split_and!; [done..|by eexists].
Qed.

Lemma sys_step_inv σ l σ' : sys_inv σ → sys_step σ l σ' → sys_inv σ'.
Proof.
  intros [Hheap Hthreads Howned] Hstep.
  destruct Hstep as [i a t ev h' t' Hi Hstep].
  pose proof (thread_step_ok a _ _ Hheap (Hthreads _ _ Hi)) as Hok.
  rewrite Hstep in Hok.
  destruct Hok as (c & Hc & -> & Ht' & Ho1 & Ho2 & _).
  pose proof (change_heap_le _ _ Hheap Hc) as Hle.
  assert (i < length (threads σ))%nat as Hlen by (by eapply lookup_lt_Some).
  split; cbn.
  - by apply change_heap_inv.
  - intros j tj Hj. destruct (decide (j = i)) as [->|Hne].
    + rewrite list_lookup_insert_eq in Hj by done. by injection Hj as <-.
    + rewrite list_lookup_insert_ne in Hj by done.
      eapply thread_inv_stable; [done| |by eapply Hthreads].
      intros n Hn Hun Hv Hs. apply change_frame_owned; try done.
      intros Hcn. apply Ho1 in Hcn.
      by pose proof (Howned _ _ _ _ _ Hi Hj Hcn Hn).
  - assert (∀ j tj n, j ≠ i → threads σ !! j = Some tj →
                      owned tj = Some n → owned t' = Some n → False) as Hfresh.
    { intros j tj n Hne Hj Hn Hn'.
      destruct (Ho2 _ Hn') as [[Ht _]|Hnone].
      - by pose proof (Howned _ _ _ _ _ Hi Hj Ht Hn).
      - destruct (thread_inv_owned _ _ _ (Hthreads _ _ Hj) Hn) as (_ & _ & [? ?]).
        congruence. }
    intros j1 j2 t1 t2 n H1 H2 Hn1 Hn2.
    destruct (decide (j1 = i)) as [->|Hne1], (decide (j2 = i)) as [->|Hne2];
      try done.
    + rewrite list_lookup_insert_eq in H1 by done. injection H1 as <-.
      rewrite list_lookup_insert_ne in H2 by done.
      by destruct (Hfresh _ _ _ Hne2 H2 Hn2 Hn1).
    + rewrite list_lookup_insert_eq in H2 by done. injection H2 as <-.
      rewrite list_lookup_insert_ne in H1 by done.
      by destruct (Hfresh _ _ _ Hne1 H1 Hn1 Hn2).
    + rewrite list_lookup_insert_ne in H1, H2 by done.
      by eapply Howned.
Qed.

Lemma exec_inv σ tr σ' : sys_inv σ → exec σ tr σ' → sys_inv σ'.
Proof.
  intros Hinv. induction 1 as [|σ1 σ2 σ3 tr l Hex IH Hstep]; [done|].
  eapply sys_step_inv; [|done]. by apply IH.
Qed.

Lemma empty_tree_inv : heap_inv empty_tree.
Proof.
  assert (∀ k ref d, on_path empty_tree k ref d → ref = RootSlot ∧ d = 0%nat)
    as Hroot.
  { intros k ref d Hp. destruct Hp as [|ref d n Hp Hl Hn]; [done|].
    destruct Hp as [|ref d n' Hp Hl' Hn'].
    - cbn in Hl. injection Hl as <-. done.
    - cbn in Hl. by rewrite lookup_empty in Hl. }
  split.
  - intros n cs. cbn. by rewrite lookup_empty.
  - intros k ref d Hp. apply Hroot in Hp as [_ ->]. lia.
  - intros k ref d w Hp Hl. apply Hroot in Hp as [-> ->].
    cbn in Hl. injection Hl as <-. by left.
  - intros k k' ref d d' Hp Hp'. apply Hroot in Hp as [-> ->].
    apply Hroot in Hp' as [_ ->]. split; [done|]. intros j Hj. lia.
Qed.

Lemma call_inv h t : is_call t → thread_inv h t.
Proof.
  intros [(v & Hv & ->)|(k & ->)]; cbn; [|done].
  split_and!; [done..|]. exists 0%nat.
  split_and!; [constructor|by rewrite level_at_0|done].
Qed.

Lemma call_owned t : is_call t → owned t = None.
Proof. by intros [(v & Hv & ->)|(k & ->)]. Qed.

Lemma initial_inv h ts :
  heap_inv h → Forall is_call ts → sys_inv (mkSystem h ts).
Proof.
  intros Hinv Hts. rewrite Forall_lookup in Hts. split; cbn.
  - done.
  - intros i t Hi. apply call_inv. by eapply Hts.
  - intros i j ti tj n Hi _ Hn. apply Hts, call_owned in Hi. congruence.
Qed.

(** ** Sequential executions *)

Lemma foldr_max_ge (l : list Z) x : x ∈ l → x ≤ foldr Z.max 0 l.
Proof.
  induction l as [|y l IH]; [by intros ?%elem_of_nil|].
  intros [->|Hin]%elem_of_cons; cbn; [lia|]. specialize (IH Hin). lia.
Qed.

Lemma foldr_max_nonneg (l : list Z) : 0 ≤ foldr Z.max 0 l.
Proof. induction l as [|y l IH]; cbn; lia. Qed.

Lemma fresh_addr_ok h : alloc_ok h (fresh_addr h) = true.
Proof.
  unfold alloc_ok, fresh_addr.
  set (l := fst <$> map_to_list (nodes h)).
  pose proof (foldr_max_nonneg l) as Hnn.
  apply andb_true_iff. split.
  - apply valid_ptr_spec. split; [lia|]. by rewrite Z.even_mul.
  - apply bool_decide_eq_true.
    destruct (nodes h !! (2 * (1 + foldr Z.max 0 l))) as [cs|] eqn:Hn; [|done].
    apply elem_of_map_to_list in Hn.
    assert (2 * (1 + foldr Z.max 0 l) ∈ l) as Hin.
    { unfold l. apply list_elem_of_fmap. by eexists (_, _). }
    apply foldr_max_ge in Hin. lia.
Qed.

Lemma run_returned fuel h t :
  returned t = true → run fuel h t = Some ([], h, t).
Proof. intros Hr. destruct fuel; cbn; by rewrite Hr. Qed.

Lemma run_step fuel h t ev h' t' :
  returned t = false →
  thread_step (fresh_addr h) h t = Next ev h' t' →
  run (S fuel) h t =
  match run fuel h' t' with
  | Some (evs, h'', t'') => Some (ev :: evs, h'', t'')
  | None => None
  end.
Proof. intros Hr Hs. cbn. by rewrite Hr, Hs. Qed.

Lemma run_mono fuel fuel' h t x :
  run fuel h t = Some x → (fuel ≤ fuel')%nat → run fuel' h t = Some x.
Proof.
  revert fuel' h t x. induction fuel as [|fuel IH]; intros fuel' h t x.
  - cbn. destruct (returned t) eqn:Hr; [|done]. intros [= <-] _.
    by apply run_returned.
  - intros Hrun Hle. destruct fuel' as [|fuel']; [lia|].
    cbn in *. destruct (returned t); [done|].
    destruct (thread_step (fresh_addr h) h t) as [ev h' t'| |]; [|done..].
    destruct (run fuel h' t') as [[[evs h''] t'']|] eqn:Hr; [|done].
    by rewrite (IH fuel' _ _ _ Hr) by lia.
Qed.

(** The steps of [insert], one program point at a time. *)

Lemma step_InsLoad a h key v eptr level e :
  load h eptr = Some e →
  insert_step a h key v eptr level InsLoad =
  Next EvLoad h (Insert key v eptr level (InsTest e)).
Proof. intros Hl. cbn. by rewrite Hl. Qed.

Lemma step_InsTest_node a h key v eptr d e :
  heap_inv h → on_path h key eptr d → load h eptr = Some e →
  isNode e = true →
  ∃ e', insert_step a h key v eptr (level_at d) (InsTest e) =
          Next EvDescend h
            (Insert key v (ChildSlot e (Z.to_nat (child_index (level_at d) key)))
               (level_at (S d)) (InsTest e')) ∧
        on_path h key (ChildSlot e (Z.to_nat (child_index (level_at d) key))) (S d) ∧
        load h (ChildSlot e (Z.to_nat (child_index (level_at d) key))) = Some e'.
Proof.
  intros Hinv Hp Hl He.
  destruct (descend_spec _ _ _ _ _ Hinv Hp Hl He) as (e' & Hd & Hp' & Hl').
  exists e'. split_and!; [|done..]. cbn. by rewrite He, Hd.
Qed.

Lemma step_InsTest_empty a h key v eptr level :
  load h eptr = Some RadixElement_empty →
  insert_step a h key v eptr level (InsTest RadixElement_empty) =
  Next EvLeafCasOk (store h eptr (RadixElement_leaf v)) (InsertRet key v true).
Proof.
  intros Hl. cbn [insert_step]. rewrite isNode_empty, getLeaf_empty.
  cbn [Z.eqb]. unfold compare_exchange_strong. rewrite Hl.
  by rewrite Z.eqb_refl.
Qed.

Lemma step_InsTest_empty_fail a h key v eptr level cur :
  load h eptr = Some cur → cur ≠ RadixElement_empty →
  insert_step a h key v eptr level (InsTest RadixElement_empty) =
  Next EvLeafCasFail h
    (Insert key v eptr level (if isNode cur then InsTest cur else InsLeaf cur)).
Proof.
  intros Hl Hne. cbn [insert_step]. rewrite isNode_empty, getLeaf_empty.
  cbn [Z.eqb]. unfold compare_exchange_strong. rewrite Hl.
  by destruct (Z.eqb_spec cur RadixElement_empty).
Qed.

Lemma getLeaf_valid p :
  valid_ptr p = true →
  getLeaf (RadixElement_leaf p) = Some p ∧ (p =? 0) = false.
Proof.
  intros [Hpos Hev]%valid_ptr_spec. split; [by apply getLeaf_leaf|].
  apply Z.eqb_neq. lia.
Qed.

Lemma step_InsTest_leaf a h key v eptr level p :
  valid_ptr p = true →
  insert_step a h key v eptr level (InsTest (RadixElement_leaf p)) =
  Next EvLocal h (Insert key v eptr level (InsLeaf (RadixElement_leaf p))).
Proof.
  intros [Hg Hz]%getLeaf_valid. cbn [insert_step].
  by rewrite isNode_leaf, Hg, Hz.
Qed.

Lemma step_InsLeaf_same a h key v eptr level p :
  valid_ptr p = true → getId p = key →
  insert_step a h key v eptr level (InsLeaf (RadixElement_leaf p)) =
  Next EvReturn h (InsertRet key v false).
Proof.
  intros [Hg Hz]%getLeaf_valid <-. cbn [insert_step].
  by rewrite Hg, Hz, Z.eqb_refl.
Qed.

Lemma step_InsLeaf_split a h key v eptr level p cs :
  valid_ptr p = true → getId p ≠ key →
  RadixNode_new level (getId p) (RadixElement_leaf p) = Some cs →
  alloc_ok h a = true →
  insert_step a h key v eptr level (InsLeaf (RadixElement_leaf p)) =
  Next EvAlloc (alloc_node h a cs)
    (Insert key v eptr level (InsCas (RadixElement_leaf p) a)).
Proof.
  intros [Hg Hz]%getLeaf_valid Hne Hcs Ha. cbn [insert_step].
  rewrite Hg, Hz. destruct (Z.eqb_spec key (getId p)); [congruence|].
  by rewrite Hcs, Ha.
Qed.

Lemma step_InsCas_ok a h key v eptr level e n :
  load h eptr = Some e →
  insert_step a h key v eptr level (InsCas e n) =
  Next EvSplitCasOk (store h eptr (RadixElement_node n))
    (Insert key v eptr level InsLoad).
Proof.
  intros Hl. cbn [insert_step]. unfold compare_exchange_strong.
  by rewrite Hl, Z.eqb_refl.
Qed.

Lemma step_InsCas_fail a h key v eptr level e n cur :
  load h eptr = Some cur → cur ≠ e →
  insert_step a h key v eptr level (InsCas e n) =
  Next EvSplitCasFail (free_node h n) (Insert key v eptr level InsLoad).
Proof.
  intros Hl Hne. cbn [insert_step]. unfold compare_exchange_strong.
  rewrite Hl. by destruct (Z.eqb_spec cur e).
Qed.

(** ** [get] on a quiescent tree *)

Lemma get_step_result h key level e :
  isNode e = false →
  get_step h key level (GetTest e) = Next EvReturn h (GetRet key (result key e)).
Proof.
  intros He. cbn [get_step]. rewrite He. unfold result.
  destruct (getLeaf e) as [leaf|] eqn:Hg.
  - by destruct ((leaf =? 0) || negb (getId leaf =? key)).
  - apply getLeaf_None in Hg. congruence.
Qed.

Lemma run_get_test r : ∀ d h key ref e,
  r = (S top - d)%nat → heap_inv h → on_path h key ref d →
  load h ref = Some e →
  ∃ evs res,
    run (S r) h (Get key (level_at d) (GetTest e)) = Some (evs, h, GetRet key res) ∧
    (count_events is_descend evs ≤ r)%nat ∧
    count_events is_cas_fail evs = 0%nat ∧ found h key res.
Proof.
  induction r as [|r IH]; intros d h key ref e Hr Hinv Hp Hl;
    pose proof (path_ok h Hinv _ _ _ _ Hp Hl) as Hok; unfold slot_ok in Hok;
    pose proof (path_depth h Hinv _ _ _ Hp) as Hd;
    destruct (isNode e) eqn:He; try lia.
  - exists [EvReturn], (result key e). split_and!.
    + erewrite run_step; [|done|by apply get_step_result].
      by rewrite run_returned.
    + done.
    + done.
    + exists e. split; [|done]. by exists ref, d.
  - destruct (descend_spec _ _ _ _ _ Hinv Hp Hl He) as (e' & Hdesc & Hp' & Hl').
    destruct (IH (S d) h key _ e' ltac:(lia) Hinv Hp' Hl')
      as (evs & res & Hrun & Hc & Hcf & Hf).
    exists (EvDescend :: evs), res.
    split_and!; [|unfold count_events in *; cbn; lia|done|done].
    erewrite run_step; [|done|]; [by rewrite Hrun|].
    cbn. by rewrite He, Hdesc.
  - exists [EvReturn], (result key e). split_and!.
    + erewrite run_step; [|done|by apply get_step_result].
      by rewrite run_returned.
    + cbn. lia.
    + done.
    + exists e. split; [|done]. by exists ref, d.
Qed.

Lemma run_get h key :
  heap_inv h →
  ∃ evs res,
    run get_fuel h (get_call key) = Some (evs, h, GetRet key res) ∧
    (count_events is_descend evs ≤ S top)%nat ∧
    count_events is_cas_fail evs = 0%nat ∧ found h key res.
Proof.
  intros Hinv.
  destruct (run_get_test (S top) 0 h key RootSlot (root h) ltac:(lia) Hinv
              ltac:(constructor) eq_refl) as (evs & res & Hrun & Hc & Hcf & Hf).
  exists (EvLoad :: evs), res. split_and!; [|done..].
  unfold get_fuel. replace (top + 3)%nat with (S (S (S top))) by lia.
  erewrite run_step; [|done|]; [|done].
  rewrite level_at_0 in Hrun. by rewrite Hrun.
Qed.

Lemma RadixTree_get_found h key :
  heap_inv h → ∃ res, RadixTree_get h key = Some res ∧ found h key res.
Proof.
  intros Hinv. destruct (run_get h key Hinv) as (evs & res & Hrun & _ & _ & Hf).
  exists res. split; [|done]. unfold RadixTree_get. by rewrite Hrun.
Qed.

Lemma RadixTree_get_iff h key res :
  heap_inv h → RadixTree_get h key = Some res ↔ found h key res.
Proof.
  intros Hinv. destruct (RadixTree_get_found h key Hinv) as (res' & Hg & Hf).
  split.
  - intros Hg'. congruence.
  - intros Hf'. by rewrite (found_det _ _ _ _ Hf' Hf).
Qed.

(** ** [insert] on a quiescent tree *)

Lemma result_leaf_same p : valid_ptr p = true → result (getId p) (RadixElement_leaf p) = p.
Proof. intros Hv. by apply result_leaf_key. Qed.

Lemma result_leaf_ne k p :
  valid_ptr p = true → getId p ≠ k → result k (RadixElement_leaf p) = 0.
Proof. intros Hv Hne. apply result_leaf_other; [done|congruence]. Qed.

Lemma run_insert_test r : ∀ d h key v eptr e,
  r = (S top - d)%nat → heap_inv h → valid_ptr v = true → getId v = key →
  on_path h key eptr d → load h eptr = Some e →
  ∃ evs h' b,
    run (5 * r + 2) h (Insert key v eptr (level_at d) (InsTest e))
      = Some (evs, h', InsertRet key v b) ∧
    insert_post h key v r evs h' b.
Proof.
  induction r as [|r IH]; intros d h key v eptr e Hr Hinv Hv Hid Hp Hl;
    assert (is_key key) as Hkey by (rewrite <- Hid; apply getId_range);
    pose proof (path_ok h Hinv _ _ _ _ Hp Hl) as Hok; unfold slot_ok in Hok;
    pose proof (path_depth h Hinv _ _ _ Hp) as Hd;
    (destruct (isNode e) eqn:He; [try lia|
       destruct Hok as [->|(p & -> & Hvp & Hag)];
       [|destruct (decide (getId p = key)) as [Hk|Hk];
         [|pose proof (agree_depth _ _ _ (getId_range p) Hkey Hk Hag Hd);
           try lia]]]).
  (* bottom level, empty slot *)
  1, 4: (exists [EvLeafCasOk], (store h eptr (RadixElement_leaf v)), true;
         subst key; split;
         [match goal with |- run ?n _ _ = _ =>
            replace n with (S (n - 1)) by lia end;
          erewrite run_step; [|done|by apply step_InsTest_empty];
          by rewrite run_returned
         |split_and!;
          [by eapply leaf_cas_heap_inv|cbn; lia|done|
           exists RadixElement_empty; split; [by exists eptr, d|done]|
           by eapply leaf_cas_found_key|
           intros k res Hne; by eapply leaf_cas_found_other]]).
  (* a leaf with the same key *)
  1, 3: (exists [EvLocal; EvReturn], h, false; split;
         [match goal with |- run ?n _ _ = _ =>
            replace n with (S (S (n - 2))) by lia end;
          erewrite run_step; [|done|by apply step_InsTest_leaf];
          erewrite run_step; [|done|by apply step_InsLeaf_same];
          by rewrite run_returned
         |split_and!; [done|cbn; lia|done|done|];
          exists p; split;
          [by apply valid_ptr_spec in Hvp as [? _]; lia|];
          exists (RadixElement_leaf p); split;
          [by exists eptr, d|rewrite <- Hk; by apply result_leaf_same]]).
  - (* a node: descend *)
    destruct (step_InsTest_node (fresh_addr h) _ _ v _ _ _ Hinv Hp Hl He)
      as (e' & Hstep & Hp' & Hl').
    destruct (IH (S d) h key v _ e' ltac:(lia) Hinv Hv Hid Hp' Hl')
      as (evs & h' & b & Hrun & Hh' & Hc & Hf & Hb).
    exists (EvDescend :: evs), h', b. split.
    + replace (5 * S r + 2)%nat with (S (5 * r + 6)) by lia.
      erewrite run_step; [|done|exact Hstep].
      by rewrite (run_mono _ (5 * r + 6) _ _ _ Hrun) by lia.
    + split_and!; [done|unfold count_events in *; cbn; lia|done..].
  - (* a leaf with another key: split *)
    assert (d ≤ top)%nat as Hd' by lia.
    set (a := fresh_addr h).
    pose proof (RadixNode_new_level_at d (getId p) (RadixElement_leaf p) Hd') as Hcs.
    set (cs := <[_ := _]> _) in Hcs.
    pose proof (fresh_addr_ok h) as Ha. fold a in Ha.
    pose proof Ha as [Hva Hfree]%andb_true_iff.
    apply bool_decide_eq_true in Hfree.
    assert (change_ok h (ChAlloc a cs)) as Hok1.
    { cbn. split_and!; [done..|]. by eapply RadixNode_new_length. }
    set (h1 := alloc_node h a cs).
    assert (heap_inv h1) as Hinv1 by exact (change_heap_inv _ _ Hinv Hok1).
    assert (heap_le h h1) as Hle1 by exact (change_heap_le _ _ Hinv Hok1).
    pose proof (fresh_unreferenced _ _ Hinv Hva Hfree) as Hun.
    assert (load h1 eptr = Some (RadixElement_leaf p)) as Hl1.
    { unfold h1. erewrite same_but_load_path; [done|apply alloc_node_same_but|done..]. }
    assert (on_path h (getId p) eptr d) as Hpp.
    { eapply on_path_agree; [|done]. by apply agree_upto_sym. }
    assert (change_ok h1 (ChPublish eptr a)) as Hok2.
    { cbn. split_and!; [done| |].
      - unfold h1. by rewrite <- same_but_unreferenced; [|apply alloc_node_same_but|].
      - exists d, p, cs. split_and!; try done.
        + by apply (le_path _ _ Hle1).
        + unfold h1. cbn. by rewrite lookup_insert_eq. }
    set (h2 := store h1 eptr (RadixElement_node a)).
    assert (heap_inv h2) as Hinv2 by exact (change_heap_inv _ _ Hinv1 Hok2).
    assert (heap_le h1 h2) as Hle2 by exact (change_heap_le _ _ Hinv1 Hok2).
    assert (load h2 eptr = Some a) as Hl2.
    { unfold h2. apply load_store_eq. by eexists. }
    assert (on_path h2 key eptr d) as Hp2.
    { by apply (le_path _ _ Hle2), (le_path _ _ Hle1). }
    destruct (step_InsTest_node (fresh_addr h2) _ _ v _ _ _ Hinv2 Hp2 Hl2
                (isNode_valid _ Hva)) as (e' & Hstep & Hp' & Hl').
    destruct (IH (S d) h2 key v _ e' ltac:(lia) Hinv2 Hv Hid Hp' Hl')
      as (evs & h' & b & Hrun & Hh' & Hc & Hf & Hb).
    assert (∀ k res, found h k res ↔ found h2 k res) as Hframe.
    { intros k res. etrans.
      - by apply (change_found h (ChAlloc a cs) k res Hinv Hok1).
      - by apply (change_found h1 (ChPublish eptr a) k res Hinv1 Hok2). }
    assert (found h key 0) as Habs.
    { exists (RadixElement_leaf p). split; [by exists eptr, d|].
      by apply result_leaf_ne. }
    exists (EvLocal :: EvAlloc :: EvSplitCasOk :: EvLoad :: EvDescend :: evs), h', b.
    split.
    + replace (5 * S r + 2)%nat with (S (S (S (S (S (5 * r + 2)))))) by lia.
      erewrite run_step; [|done|by apply step_InsTest_leaf].
      erewrite run_step; [|done|by apply step_InsLeaf_split].
      erewrite run_step; [|done|by apply step_InsCas_ok].
      erewrite run_step; [|done|by apply step_InsLoad].
      erewrite run_step; [|done|exact Hstep].
      by rewrite Hrun.
    + split_and!; [done|unfold count_events in *; cbn; lia|done|].
      destruct b.
      * destruct Hb as (_ & Hnew & Hother). split_and!; [done..|].
        intros k res Hne. rewrite Hframe. by apply Hother.
      * destruct Hb as (_ & p' & Hp0 & Hfound). apply Hframe in Habs.
        by rewrite (found_det _ _ _ _ Hfound Habs) in Hp0.
Qed.

Lemma run_insert h v :
  heap_inv h → valid_ptr v = true →
  ∃ evs h' b,
    run insert_fuel h (insert_call v) = Some (evs, h', InsertRet (getId v) v b) ∧
    insert_post h (getId v) v (S top) evs h' b.
Proof.
  intros Hinv Hv.
  destruct (run_insert_test (S top) 0 h (getId v) v RootSlot (root h)
              ltac:(lia) Hinv Hv eq_refl ltac:(constructor) eq_refl)
    as (evs & h' & b & Hrun & Hh' & Hc & Hf & Hb).
  exists (EvLoad :: evs), h', b. split; [|by split_and!].
  unfold insert_fuel, insert_call.
  replace (6 * (top + 2))%nat with (S (6 * top + 11)) by lia.
  erewrite run_step; [|done|by apply step_InsLoad].
  rewrite level_at_0 in Hrun.
  by rewrite (run_mono _ (6 * top + 11) _ _ _ Hrun) by lia.
Qed.

Lemma RadixTree_insert_post h v :
  heap_inv h → valid_ptr v = true →
  ∃ b h',
    RadixTree_insert h v = Some (b, h') ∧ heap_inv h' ∧
    if b then
      found h (getId v) 0 ∧ found h' (getId v) v ∧
      ∀ k res, k ≠ getId v → found h k res ↔ found h' k res
    else h' = h ∧ ∃ p, p ≠ 0 ∧ found h (getId v) p.
Proof.
  intros Hinv Hv.
  destruct (run_insert h v Hinv Hv) as (evs & h' & b & Hrun & Hh' & _ & _ & Hb).
  exists b, h'. split_and!; [|done..]. unfold RadixTree_insert. by rewrite Hrun.
Qed.

(** Contents of the tree and results of lookups. *)

Lemma found_holds h k p :
  heap_inv h → found h k p → p ≠ 0 → holds h p ∧ getId p = k.
Proof.
  intros Hinv (w & Hlook & Hres) Hp0. pose proof Hlook as (ref & d & Hp & Hl & Hn).
  unfold result in Hres. destruct (getLeaf w) as [leaf|] eqn:Hg; [|done].
  destruct (Z.eqb_spec leaf 0) as [|Hl0]; [done|].
  destruct (Z.eqb_spec (getId leaf) k) as [Hk|]; [|done].
  cbn in Hres. subst leaf.
  apply getLeaf_Some in Hg as (_ & -> & Hev).
  split; [|done]. split.
  - pose proof (path_ok h Hinv _ _ _ _ Hp Hl) as Hok. unfold slot_ok in Hok.
    rewrite Hn in Hok. destruct Hok as [He|(q & Hq & Hvq & _)].
    + pose proof (getLeaf_leaf p Hev) as Hg. rewrite He, getLeaf_empty in Hg.
      congruence.
    + apply leaf_inj in Hq; [by subst|done|].
      by apply valid_ptr_spec in Hvq as [_ ?].
  - by rewrite Hk.
Qed.

Lemma holds_found h p : holds h p → found h (getId p) p.
Proof.
  intros [Hv Hl]. exists (RadixElement_leaf p). split; [done|].
  by apply result_leaf_same.
Qed.

Lemma holds_nonnull h p : holds h p → p ≠ 0.
Proof. intros [[Hpos _]%valid_ptr_spec _]. lia. Qed.

Lemma present_found h k :
  heap_inv h → present h k ↔ ∃ p, p ≠ 0 ∧ found h k p.
Proof.
  intros Hinv. split.
  - intros (p & Hh & <-). exists p. split; [by eapply holds_nonnull|].
    by apply holds_found.
  - intros (p & Hp0 & Hf). exists p. by apply found_holds.
Qed.

Lemma insert_all_inv vs : ∀ h,
  heap_inv h → Forall (λ v, valid_ptr v = true) vs →
  ∃ h', insert_all h vs = Some h' ∧ heap_inv h'.
Proof.
  induction vs as [|v vs IH]; intros h Hinv Hvs; [by exists h|].
  apply Forall_cons in Hvs as [Hv Hvs].
  destruct (RadixTree_insert_post h v Hinv Hv) as (b & h1 & Hins & Hinv1 & _).
  destruct (IH h1 Hinv1 Hvs) as (h' & Hall & Hinv').
  exists h'. split; [|done]. cbn. by rewrite Hins.
Qed.

Lemma built_by_inserts_inv h : built_by_inserts h → heap_inv h.
Proof.
  intros (vs & Hvs & Hall).
  destruct (insert_all_inv vs empty_tree empty_tree_inv Hvs) as (h' & Hall' & Hinv).
  congruence.
Qed.

Lemma found_empty_tree k : found empty_tree k 0.
Proof.
  exists RadixElement_empty. split; [|done].
  exists RootSlot, 0%nat. split_and!; [constructor|done..].
Qed.

(** Inserting values with distinct, absent ids. *)
Lemma insert_all_found vs : ∀ h,
  heap_inv h → Forall (λ v, valid_ptr v = true) vs →
  NoDup (getId <$> vs) →
  (∀ v, v ∈ vs → found h (getId v) 0) →
  ∃ h', insert_all h vs = Some h' ∧ heap_inv h' ∧
        (∀ v, v ∈ vs → found h' (getId v) v) ∧
        (∀ k res, k ∉ (getId <$> vs) → found h k res ↔ found h' k res).
Proof.
  induction vs as [|v vs IH]; intros h Hinv Hvs Hnd Habs.
  - exists h. split_and!; [done..| |done]. by intros v ?%elem_of_nil.
  - apply Forall_cons in Hvs as [Hv Hvs].
    rewrite fmap_cons in Hnd. apply NoDup_cons in Hnd as [Hnin Hnd].
    destruct (RadixTree_insert_post h v Hinv Hv) as (b & h1 & Hins & Hinv1 & Hb).
    destruct b.
    2: { destruct Hb as (_ & p & Hp0 & Hf).
         pose proof (Habs v ltac:(by left)) as Hf0.
         by rewrite (found_det _ _ _ _ Hf Hf0) in Hp0. }
    destruct Hb as (_ & Hnew & Hother).
    destruct (IH h1 Hinv1 Hvs Hnd) as (h' & Hall & Hinv' & Hin & Hout).
    { intros u Hu. apply Hother; [|by apply Habs; right].
      intros Heq. apply Hnin. rewrite <- Heq. by apply list_elem_of_fmap_2. }
    exists h'. split_and!; [by cbn; rewrite Hins|done| |].
    + intros u [->|Hu]%elem_of_cons; [|by apply Hin].
      by apply Hout.
    + intros k res Hk. rewrite fmap_cons in Hk.
      apply not_elem_of_cons in Hk as [Hkv Hk].
      rewrite Hother by done. by apply Hout.
Qed.

(** ** Properties of the slot encoding and of indexing *)

Lemma lor_1_even p : Z.even p = true → Z.lor p 1 = p + 1.
Proof.
  intros Hev. rewrite <- Z.add_lor_land.
  replace (Z.land p 1) with 0; [lia|].
  change 1 with (Z.ones 1). rewrite Z.land_ones by lia.
  change (2 ^ 1) with 2. rewrite Zmod_even, Hev. done.
Qed.

Lemma isNode_odd w : isNode w = negb (Z.odd w).
Proof. by rewrite isNode_testbit, Z.bit0_odd. Qed.

Lemma getLeaf_odd w : getLeaf w = if Z.odd w then Some (w - 1) else None.
Proof.
  destruct (getLeaf w) as [p|] eqn:Hg.
  - apply getLeaf_Some in Hg as (Hn & -> & Hev).
    rewrite isNode_odd in Hn. apply negb_false_iff in Hn. rewrite Hn.
    unfold RadixElement_leaf, DISCRIMINANT. rewrite lor_1_even by done.
    f_equal. lia.
  - apply getLeaf_None in Hg. rewrite isNode_odd in Hg.
    apply negb_true_iff in Hg. by rewrite Hg.
Qed.

(** C5: the three encodings of a slot word.  The empty slot is the word 1;
    a leaf is the address of the value with the low bit set, and clearing
    that bit gives the address back; a node is its address unchanged.  The
    inspectors read the low bit, and an accessor used on a word of the other
    tag fails its assertion ([None]). *)
Theorem RadixElement_encoding (p n w : Z) :
  Z.even p = true → Z.even n = true →
  (RadixElement_empty = 1 ∧
   RadixElement_leaf p = p + 1 ∧
   RadixElement_node n = n) ∧
  (isLeaf RadixElement_empty = true ∧ isNode RadixElement_empty = false ∧
   getLeaf RadixElement_empty = Some 0 ∧ getNode RadixElement_empty = None) ∧
  (isLeaf (RadixElement_leaf p) = true ∧ isNode (RadixElement_leaf p) = false ∧
   getLeaf (RadixElement_leaf p) = Some p ∧ getNode (RadixElement_leaf p) = None ∧
   (p ≠ 0 → RadixElement_leaf p ≠ RadixElement_empty)) ∧
  (isNode (RadixElement_node n) = true ∧ isLeaf (RadixElement_node n) = false ∧
   getNode (RadixElement_node n) = Some n ∧ getLeaf (RadixElement_node n) = None) ∧
  (isLeaf w = Z.odd w ∧ isNode w = negb (Z.odd w) ∧
   getLeaf w = (if Z.odd w then Some (w - 1) else None) ∧
   getNode w = (if Z.odd w then None else Some w) ∧
   (w = RadixElement_empty ↔ isLeaf w = true ∧ w - 1 = 0)).
Proof.
  intros Hp Hn. split_and!; try done.
  - unfold RadixElement_leaf, DISCRIMINANT. by apply lor_1_even.
  - by rewrite isLeaf_isNode, isNode_leaf.
  - apply isNode_leaf.
  - by apply getLeaf_leaf.
  - unfold getNode. by rewrite isNode_leaf.
  - intros Hp0 Heq. unfold RadixElement_leaf, DISCRIMINANT in Heq.
    rewrite lor_1_even in Heq by done. unfold RadixElement_empty, DISCRIMINANT in Heq.
    lia.
  - by apply isNode_even.
  - rewrite isLeaf_isNode. unfold RadixElement_node. by rewrite isNode_even.
  - unfold getNode, RadixElement_node. by rewrite isNode_even.
  - apply getLeaf_None. by apply isNode_even.
  - by rewrite isLeaf_isNode, isNode_odd, negb_involutive.
  - apply isNode_odd.
  - apply getLeaf_odd.
  - unfold getNode. rewrite isNode_odd. by destruct (Z.odd w).
  - unfold RadixElement_empty, DISCRIMINANT. split; [by intros ->|].
    intros [_ ?]. lia.
Qed.

(** C6: with chunks of [BITS = 4] bits a node has 16 children, the top level
    is [(KEY_BITS - 1) / BITS], and at every level [L] of the tree the child
    selected for [key] is the one at index [(key >> (L * BITS)) & MASK],
    which is the slot that a descent loads. *)
Theorem child_slot_index (h : Heap) (n key L : Z) (cs : list Z) :
  0 ≤ L ≤ TOP_LEVEL →
  isNode n = true → nodes h !! n = Some cs → length cs = CHILD_PER_LEVEL →
  let i := Z.land (Z.shiftr key (L * BITS)) (Z.shiftl 1 BITS - 1) in
  BITS = 4 ∧ CHILD_PER_LEVEL = Z.to_nat (2 ^ BITS) ∧ CHILD_PER_LEVEL = 16%nat ∧
  KEY_BITS = 8 * sizeof_K ∧ TOP_LEVEL = (KEY_BITS - 1) / BITS ∧
  i = (key / 2 ^ (L * BITS)) mod 2 ^ BITS ∧ 0 ≤ i < 16 ∧
  RadixNode_get L key = Some (Z.to_nat i) ∧
  ∃ e, cs !! Z.to_nat i = Some e ∧
       descend h n L key = Some (ChildSlot n (Z.to_nat i), level_dec L, e).
Proof.
  intros HL Hn Hcs Hlen i.
  pose proof TOP_LEVEL_bounds as (HT0 & HT1 & HT2 & HT3).
  assert (2 ^ 31 = 2147483648) as E31 by reflexivity.
  assert (2 ^ 32 = 4294967296) as E32 by reflexivity.
  assert (shift_amount L = L * BITS) as Hsh.
  { unfold shift_amount, LEVEL_BITS, BITS. apply Z.mod_small. lia. }
  assert (i = child_index L key) as Hi.
  { unfold i, child_index. by rewrite Hsh. }
  assert (RadixNode_get L key = Some (Z.to_nat i)) as Hget.
  { unfold RadixNode_get. rewrite Hsh, <- Hi. unfold BITS.
    destruct (Z.ltb_spec (L * 4) (Z.max KEY_BITS 32)); [done|lia]. }
  pose proof (child_index_range L key) as Hr. rewrite <- Hi in Hr.
  split_and!; try done; try lia.
  - unfold i. change (Z.shiftl 1 BITS - 1) with (Z.ones BITS).
    rewrite Z.land_ones by done. rewrite Z.shiftr_div_pow2; [done|].
    unfold BITS. lia.
  - destruct (lookup_lt_is_Some_2 cs (Z.to_nat i)) as [e He].
    { rewrite Hlen, CHILD_PER_LEVEL_16. lia. }
    exists e. split; [done|]. unfold descend, getNode. rewrite Hn, Hget.
    cbn. by rewrite Hcs, He.
Qed.

(** ** Properties of sequential use *)

(** C2: inserting values with pairwise distinct ids, in any order, into the
    empty tree gives a tree in which [get] returns each value for its id and
    null for every other key. *)
Theorem insert_all_get (vs : list Z) :
  Forall (λ v, valid_ptr v = true) vs →
  NoDup (getId <$> vs) →
  ∃ h, insert_all empty_tree vs = Some h ∧
       (∀ v, v ∈ vs → RadixTree_get h (getId v) = Some v) ∧
       (∀ k, k ∉ (getId <$> vs) → RadixTree_get h k = Some 0) ∧
       (∀ k, RadixTree_get empty_tree k = Some 0).
Proof.
  intros Hvs Hnd.
  destruct (insert_all_found vs empty_tree empty_tree_inv Hvs Hnd)
    as (h & Hall & Hinv & Hin & Hout).
  { intros v _. apply found_empty_tree. }
  exists h. split_and!; [done|..].
  - intros v Hv. apply RadixTree_get_iff; [done|]. by apply Hin.
  - intros k Hk. apply RadixTree_get_iff; [done|]. apply Hout; [done|].
    apply found_empty_tree.
  - intros k. apply RadixTree_get_iff; [apply empty_tree_inv|].
    apply found_empty_tree.
Qed.

(** C4: when [insert(v)] returns true on a tree built by insertions, a
    following [get(v.getId())] returns [v]. *)
Theorem insert_true_get (h h' : Heap) (v : Z) :
  built_by_inserts h → valid_ptr v = true →
  RadixTree_insert h v = Some (true, h') →
  RadixTree_get h' (getId v) = Some v.
Proof.
  intros Hinv%built_by_inserts_inv Hv Hins.
  destruct (RadixTree_insert_post h v Hinv Hv) as (b & h1 & Hins' & Hinv' & Hb).
  rewrite Hins in Hins'. injection Hins' as <- <-.
  destruct Hb as (_ & Hnew & _). by apply RadixTree_get_iff.
Qed.

(** ** The leaves reachable from the root *)

Lemma small_testbit_high x m n :
  0 ≤ m → 0 ≤ x < 2 ^ m → m ≤ n → Z.testbit x n = false.
Proof.
  intros Hm [H0 H1] Hn.
  destruct (decide (x = 0)) as [->|]; [apply Z.bits_0|].
  apply Z.bits_above_log2; [lia|].
  assert (Z.log2 x < m); [|lia]. apply Z.log2_lt_pow2; lia.
Qed.

Lemma child_index_high l k n : 4 ≤ n → Z.testbit (child_index l k) n = false.
Proof.
  intros Hn. apply (small_testbit_high _ 4); [lia| |done].
  apply child_index_range.
Qed.

Lemma child_index_eq_bits l k x :
  0 ≤ shift_amount l → 0 ≤ x < 16 →
  (∀ n, 0 ≤ n < 4 → Z.testbit k (n + shift_amount l) = Z.testbit x n) →
  child_index l k = x.
Proof.
  intros Hs Hx Hbits. apply Z.bits_inj'. intros n Hn.
  destruct (Z_lt_le_dec n 4).
  - rewrite child_index_testbit by lia. apply Hbits. lia.
  - rewrite child_index_high by done. symmetry.
    by apply (small_testbit_high _ 4).
Qed.

(** A key that follows [k] for [d] descents and then selects child [i]. *)
Lemma set_chunk d k (i : nat) :
  (d ≤ top)%nat → (i < CHILD_PER_LEVEL)%nat →
  ∃ k', agree_upto d k k' ∧ Z.to_nat (child_index (level_at d) k') = i.
Proof.
  intros Hd Hi. rewrite CHILD_PER_LEVEL_16 in Hi.
  destruct (shift_amount_level_at d Hd) as [Hs Hsr].
  set (s := shift_amount (level_at d)) in *.
  set (k' := Z.lor (Z.ldiff k (Z.shiftl 15 s)) (Z.shiftl (Z.of_nat i) s)).
  assert (∀ m, 0 ≤ m →
            Z.testbit k' (m + s) =
            (Z.testbit k (m + s) && negb (Z.testbit 15 m)) || Z.testbit (Z.of_nat i) m)
    as Hbit.
  { intros m Hm. unfold k'.
    rewrite Z.lor_spec, Z.ldiff_spec, !Z.shiftl_spec by lia.
    by replace (m + s - s) with m by lia. }
  exists k'. split.
  - intros j Hj. assert (j ≤ top)%nat as Hjt by lia.
    destruct (shift_amount_level_at j Hjt) as [Hsj Hsjr].
    symmetry. apply child_index_eq_bits; [lia|apply child_index_range|].
    intros n Hn. rewrite child_index_testbit by lia.
    replace (n + shift_amount (level_at j))
      with ((n + (shift_amount (level_at j) - s)) + s) by lia.
    rewrite Hbit by lia.
    rewrite (small_testbit_high 15 4) by lia.
    rewrite (small_testbit_high (Z.of_nat i) 4) by lia.
    by rewrite andb_true_r, orb_false_r.
  - rewrite (child_index_eq_bits _ _ (Z.of_nat i)); [lia|lia|lia|].
    intros n Hn. rewrite Hbit by lia.
    change 15 with (Z.ones 4). rewrite Z.ones_spec_low by lia.
    by rewrite andb_false_r.
Qed.

Lemma leaves_from_unfold h d w :
  leaves_from h d w =
  if isNode w then
    match d with
    | O => []
    | S d' =>
        match nodes h !! w with
        | Some cs => flat_map (leaves_from h d') cs
        | None => []
        end
    end
  else
    match getLeaf w with
    | Some p => if p =? 0 then [] else [p]
    | None => []
    end.
Proof. by destruct d. Qed.

Lemma leaves_from_leaf h h' d d' w :
  isNode w = false → leaves_from h d w = leaves_from h' d' w.
Proof. intros Hn. by rewrite !leaves_from_unfold, Hn. Qed.

Lemma leaves_from_valid_leaf h d p :
  valid_ptr p = true → leaves_from h d (RadixElement_leaf p) = [p].
Proof.
  intros [Hg Hz]%getLeaf_valid. by rewrite leaves_from_unfold, isNode_leaf, Hg, Hz.
Qed.

Lemma flat_map_length_le {A B} (f g : A → list B) (l l' : list A) :
  length l = length l' →
  (∀ i x y, l !! i = Some x → l' !! i = Some y →
            (length (f x) ≤ length (g y))%nat) →
  (length (flat_map f l) ≤ length (flat_map g l'))%nat.
Proof.
  revert l'. induction l as [|x l IH]; intros [|y l'] Hlen Hle; try done.
  cbn. rewrite !length_app.
  pose proof (Hle 0%nat x y eq_refl eq_refl).
  assert (length (flat_map f l) ≤ length (flat_map g l'))%nat; [|lia].
  apply IH; [by injection Hlen|]. intros i. apply (Hle (S i)).
Qed.

Lemma flat_map_length_ge {A B} (f : A → list B) (l : list A) i x :
  l !! i = Some x → (length (f x) ≤ length (flat_map f l))%nat.
Proof.
  revert i. induction l as [|y l IH]; intros [|i] Hi; try done; cbn in *.
  - injection Hi as ->. rewrite length_app. lia.
  - rewrite length_app. specialize (IH _ Hi). lia.
Qed.

Lemma leaves_from_mono h h' :
  heap_inv h → heap_inv h' →
  (∀ k ref δ w, on_path h k ref δ → load h ref = Some w →
     ∃ w', load h' ref = Some w' ∧
           (w' = w ∨
            (length (leaves_from h (S top - δ) w)
             ≤ length (leaves_from h' (S top - δ) w'))%nat)) →
  ∀ f k ref δ w w',
    f = (S top - δ)%nat → on_path h k ref δ →
    load h ref = Some w → load h' ref = Some w' →
    (length (leaves_from h f w) ≤ length (leaves_from h' f w'))%nat.
Proof.
  intros Hinv Hinv' Hslots f.
  induction f as [|f IH]; intros k ref δ w w' Hf Hp Hl Hl';
    destruct (Hslots _ _ _ _ Hp Hl) as (w'' & Hl'' & Hcase);
    rewrite Hl' in Hl''; injection Hl'' as <-;
    (destruct Hcase as [->|Hle]; [|by rewrite Hf]);
    pose proof (path_ok h Hinv _ _ _ _ Hp Hl) as Hok; unfold slot_ok in Hok;
    (destruct (isNode w) eqn:Hn;
     [|by rewrite !leaves_from_unfold, Hn]);
    destruct Hok as (Hδ & Hv & [cs Hcs]); [lia|].
  rewrite !leaves_from_unfold, Hn, Hcs.
  assert (∀ i, (i < CHILD_PER_LEVEL)%nat →
               ∃ ki, on_path h ki (ChildSlot w i) (S δ)) as Hchild.
  { intros i Hi. destruct (set_chunk δ k i Hδ Hi) as (ki & Hag & Hidx).
    exists ki. rewrite <- Hidx. econstructor; [|done..].
    by eapply on_path_agree. }
  destruct (Hchild 0%nat ltac:(rewrite CHILD_PER_LEVEL_16; lia)) as (k0 & Hp0).
  destruct (on_path_load _ _ _ _ Hinv Hp0) as [x0 Hx0].
  destruct (Hslots _ _ _ _ Hp0 Hx0) as (y0 & Hy0 & _).
  apply load_ChildSlot_Some in Hy0 as [cs' Hcs']. rewrite Hcs'.
  apply flat_map_length_le.
  - by rewrite (nodes_wf h Hinv _ _ Hcs), (nodes_wf h' Hinv' _ _ Hcs').
  - intros i x y Hx Hy.
    assert (i < CHILD_PER_LEVEL)%nat as Hi.
    { rewrite <- (nodes_wf h Hinv _ _ Hcs). by eapply lookup_lt_Some. }
    destruct (Hchild i Hi) as (ki & Hpi).
    eapply (IH ki (ChildSlot w i) (S δ)); [lia|done|..]; cbn.
    + by rewrite Hcs.
    + by rewrite Hcs'.
Qed.

Lemma change_leaves h c :
  heap_inv h → change_ok h c →
  (length (reachable_leaves h) ≤ length (reachable_leaves (apply_change h c)))%nat.
Proof.
  intros Hinv Hok. pose proof (change_heap_inv _ _ Hinv Hok) as Hinv'.
  unfold reachable_leaves.
  eapply (leaves_from_mono h _ Hinv Hinv' _ (S top) 0 RootSlot 0%nat);
    [lia|constructor|done..].
  Unshelve.
  intros k ref δ w Hp Hl.
  destruct c as [|a cs|n|r v|r n]; cbn [apply_change] in *.
  - by eauto.
  - destruct Hok as (Hv & Ha & Hlen). exists w. split; [|by left].
    erewrite same_but_load_path;
      [done|apply alloc_node_same_but|by apply fresh_unreferenced|done].
  - exists w. split; [|by left].
    by erewrite same_but_load_path; [|apply free_node_same_but|..].
  - destruct Hok as (Hv & Hr & d & Hpr).
    destruct (decide (ref = r)) as [->|Hne].
    + exists (RadixElement_leaf v). split; [apply load_store_eq; by eexists|].
      right. rewrite Hr in Hl. injection Hl as <-.
      rewrite (leaves_from_unfold h), isNode_empty, getLeaf_empty. cbn. lia.
    + exists w. split; [by rewrite load_store_ne|by left].
  - destruct Hok as (Hv & Hun & d & p & cs & Hpr & Hr & Hvp & Hd & Hcs & Hn).
    destruct (decide (ref = r)) as [->|Hne].
    + exists n. split; [apply load_store_eq; by eexists|]. right.
      rewrite Hr in Hl. injection Hl as <-.
      destruct (path_unique h Hinv _ _ _ _ _ Hpr Hp) as [<- _].
      rewrite leaves_from_valid_leaf by done.
      replace (S top - d)%nat with (S (top - d)) by lia.
      rewrite leaves_from_unfold, (isNode_valid _ Hv).
      rewrite (store_nodes_unreferenced _ _ _ _ _ _ Hpr Hun), Hn.
      pose proof (RadixNode_new_lookup _ _ _ _
                    (Z.to_nat (child_index (level_at d) (getId p))) Hcs
                    (child_index_lt _ _)) as Hi.
      rewrite decide_True in Hi by done.
      etrans; [|by eapply flat_map_length_ge].
      by rewrite leaves_from_valid_leaf.
    + exists w. split; [by rewrite load_store_ne|by left].
Qed.

(** The leaves found by the traversal are the values the lookups find. *)

Lemma leaves_from_on_path h : heap_inv h → ∀ f k ref δ w p,
  on_path h k ref δ → load h ref = Some w →
  In p (leaves_from h f w) →
  ∃ k' ref' d', on_path h k' ref' d' ∧
                load h ref' = Some (RadixElement_leaf p) ∧
                p ≠ 0 ∧ Z.even p = true.
Proof.
  intros Hinv f. induction f as [|f IH]; intros k ref δ w p Hp Hl Hin;
    rewrite leaves_from_unfold in Hin;
    pose proof (path_ok h Hinv _ _ _ _ Hp Hl) as Hok; unfold slot_ok in Hok;
    destruct (isNode w) eqn:Hn; try done.
  1, 3: (destruct (getLeaf w) as [q|] eqn:Hg; [|done];
         destruct (Z.eqb_spec q 0) as [|Hq]; [done|];
         destruct Hin as [<-|[]];
         apply getLeaf_Some in Hg as (_ & -> & Hev); by exists k, ref, δ).
  destruct Hok as (Hδ & Hv & [cs Hcs]). rewrite Hcs in Hin.
  apply in_flat_map in Hin as (x & Hx & Hin).
  apply list_elem_of_In, list_elem_of_lookup in Hx as [i Hi].
  assert (i < CHILD_PER_LEVEL)%nat as Hlt.
  { rewrite <- (nodes_wf h Hinv _ _ Hcs). by eapply lookup_lt_Some. }
  destruct (set_chunk δ k i Hδ Hlt) as (ki & Hag & Hidx).
  eapply (IH ki (ChildSlot w i) (S δ) x); [| |done].
  - rewrite <- Hidx. econstructor; [|done..]. by eapply on_path_agree.
  - cbn. by rewrite Hcs.
Qed.

Lemma on_path_leaves h : heap_inv h → ∀ k ref d w p,
  on_path h k ref d → load h ref = Some w →
  In p (leaves_from h (S top - d) w) → In p (reachable_leaves h).
Proof.
  intros Hinv k ref d w p Hp. revert w p.
  induction Hp as [|ref d n Hp IH Hl Hn]; intros w p Hw Hin.
  - cbn in Hw. injection Hw as <-. done.
  - pose proof (path_ok h Hinv _ _ _ _ Hp Hl) as Hok. unfold slot_ok in Hok.
    rewrite Hn in Hok. destruct Hok as (Hd & _ & [cs Hcs]).
    apply (IH n); [done|].
    replace (S top - d)%nat with (S (S top - S d)) by lia.
    rewrite leaves_from_unfold, Hn, Hcs. apply in_flat_map.
    exists w. split; [|done]. cbn in Hw. rewrite Hcs in Hw.
    apply list_elem_of_In. by eapply list_elem_of_lookup_2.
Qed.

Lemma reachable_leaves_holds h p :
  heap_inv h → In p (reachable_leaves h) ↔ holds h p.
Proof.
  intros Hinv. split.
  - intros Hin.
    destruct (leaves_from_on_path h Hinv _ 0 RootSlot 0%nat _ p
                ltac:(constructor) eq_refl Hin)
      as (k & ref & d & Hp & Hl & Hp0 & Hev).
    pose proof (path_ok h Hinv _ _ _ _ Hp Hl) as Hok. unfold slot_ok in Hok.
    rewrite isNode_leaf in Hok. destruct Hok as [He|(q & Hq & Hvq & Hag)].
    + pose proof (getLeaf_leaf p Hev) as Hg.
      rewrite He, getLeaf_empty in Hg. congruence.
    + apply leaf_inj in Hq; [|done|by apply valid_ptr_spec in Hvq as [_ ?]].
      subst q. split; [done|]. exists ref, d.
      split_and!; [|done|apply isNode_leaf].
      eapply on_path_agree; [|done]. by apply agree_upto_sym.
  - intros [Hv (ref & d & Hp & Hl & _)].
    eapply on_path_leaves; [done..|].
    rewrite leaves_from_valid_leaf by done. by left.
Qed.

(** C3: on a tree built by insertions, [insert(v)] returns; it returns false
    exactly when a value with the id of [v] is among the leaves of the tree,
    and then the tree is left as it was. *)
Theorem insert_false_iff_present (h : Heap) (v : Z) :
  built_by_inserts h → valid_ptr v = true →
  ∃ b h', RadixTree_insert h v = Some (b, h') ∧
          (b = false ↔ ∃ v', In v' (reachable_leaves h) ∧ getId v' = getId v) ∧
          (b = false → h' = h ∧ reachable_leaves h' = reachable_leaves h).
Proof.
  intros Hinv%built_by_inserts_inv Hv.
  destruct (RadixTree_insert_post h v Hinv Hv) as (b & h' & Hins & Hinv' & Hb).
  exists b, h'. split_and!; [done| |].
  - destruct b.
    + destruct Hb as (Habs & _). split; [done|].
      intros (v' & Hh & Hid). apply reachable_leaves_holds in Hh; [|done].
      apply holds_found in Hh as Hf. rewrite Hid in Hf.
      rewrite (found_det _ _ _ _ Hf Habs) in Hh. by apply holds_nonnull in Hh.
    + destruct Hb as (_ & p & Hp0 & Hf). split; [|done]. intros _.
      exists p. destruct (found_holds _ _ _ Hinv Hf Hp0) as [Hh Hid].
      split; [|done]. by apply reachable_leaves_holds.
  - destruct b; [done|]. by destruct Hb as [-> _].
Qed.

(** ** Executions *)

Lemma exec_trans σ1 σ2 σ3 tr1 tr2 :
  exec σ1 tr1 σ2 → exec σ2 tr2 σ3 → exec σ1 (tr1 ++ tr2) σ3.
Proof.
  intros H1. induction 1 as [|σ2 σ3 σ4 tr l Hex IH Hstep].
  - by rewrite app_nil_r.
  - rewrite app_assoc. econstructor; [|done]. by apply IH.
Qed.

Lemma reachable_inv σ : reachable σ → sys_inv σ.
Proof.
  intros (ts & tr & Hts & Hex). eapply exec_inv; [|done].
  apply initial_inv; [apply empty_tree_inv|done].
Qed.

Lemma reachable_exec σ tr σ' : reachable σ → exec σ tr σ' → reachable σ'.
Proof.
  intros (ts & tr0 & Hts & Hex0) Hex. exists ts, (tr0 ++ tr).
  split; [done|]. by eapply exec_trans.
Qed.

Lemma events_of_snoc_same i tr ev :
  events_of i (tr ++ [(i, ev)]) = events_of i tr ++ [ev].
Proof.
  unfold events_of. rewrite filter_app, fmap_app. f_equal.
  rewrite filter_cons_True by done. by rewrite filter_nil.
Qed.

Lemma events_of_snoc_other i j tr ev :
  i ≠ j → events_of i (tr ++ [(j, ev)]) = events_of i tr.
Proof.
  intros Hne. unfold events_of. rewrite filter_app, fmap_app.
  rewrite filter_cons_False by (cbn; congruence).
  by rewrite filter_nil, app_nil_r.
Qed.

Lemma count_events_snoc f evs ev :
  count_events f (evs ++ [ev]) =
  (count_events f evs + if f ev then 1 else 0)%nat.
Proof.
  unfold count_events. rewrite List.filter_app, length_app. cbn.
  by destruct (f ev).
Qed.

(** What a step does to the private state of the call. *)
Lemma thread_step_local a h t ev h' t' :
  thread_step a h t = Next ev h' t' →
  thread_id t' = thread_id t ∧ returned t = false ∧
  (returned t' = true → is_descend ev = false) ∧
  (returned t' = false →
   level_of t' = if is_descend ev then level_dec (level_of t) else level_of t) ∧
  is_leaf_cas_ok ev = match t' with InsertRet _ _ true => true | _ => false end.
Proof.
  destruct t as [key value eptr level pc|key value r|key level pc|key r];
    cbn [thread_step]; [| done | | done].
  - destruct pc as [|e|e|e n]; cbn [insert_step]; unfold descend, compare_exchange_strong;
      repeat case_match; intros [= <- <- <-]; simplify_eq; done.
  - destruct pc as [|e]; cbn [get_step]; unfold descend;
      repeat case_match; intros [= <- <- <-]; simplify_eq; done.
Qed.

Lemma level_at_inj x y :
  (x ≤ S (S top))%nat → (y ≤ S (S top))%nat → level_at x = level_at y → x = y.
Proof.
  intros Hx Hy Heq. unfold level_at, LEVEL_BITS in Heq.
  pose proof TOP_LEVEL_bounds as (HT0 & HT1 & HT2 & HT3).
  pose proof top_TOP_LEVEL as Htop.
  assert (2 ^ 31 = 2147483648) as E31 by reflexivity.
  assert (2 ^ 32 = 4294967296) as E32 by reflexivity.
  rewrite E32 in Heq.
  assert ((Z.of_nat y - Z.of_nat x) mod 4294967296 = 0) as Hmod.
  { replace (Z.of_nat y - Z.of_nat x)
      with ((TOP_LEVEL - Z.of_nat x) - (TOP_LEVEL - Z.of_nat y)) by lia.
    rewrite Zminus_mod, Heq, Z.sub_diag. done. }
  apply Z.mod_divide in Hmod as [q Hq]; [|lia]. nia.
Qed.

Lemma thread_inv_level h t :
  heap_inv h → thread_inv h t → returned t = false →
  ∃ d, (d ≤ S top)%nat ∧ level_of t = level_at d.
Proof.
  intros Hinv Ht Hr.
  destruct t as [key value eptr level pc|key value r|key level pc|key r];
    try done; cbn in *.
  - destruct Ht as (_ & _ & d & Hp & -> & _). exists d. split; [|done].
    by eapply path_depth.
  - destruct pc as [|e].
    + exists 0%nat. split; [lia|]. by rewrite level_at_0.
    + destruct Ht as (ref & d & Hp & -> & _). exists d. split; [|done].
      by eapply path_depth.
Qed.

Lemma exec_depth_inv σ tr σ' :
  sys_inv σ → Forall is_call (threads σ) → exec σ tr σ' → depth_inv tr σ'.
Proof.
  intros Hinv Hcalls Hex. induction Hex as [|σ1 σ2 σ3 tr l Hex IH Hstep].
  - intros i t Hi. cbn. split; [lia|]. intros _.
    rewrite Forall_lookup in Hcalls.
    destruct (Hcalls _ _ Hi) as [(v & _ & ->)|(k & ->)]; cbn;
      by rewrite level_at_0.
  - specialize (IH Hinv Hcalls).
    pose proof (exec_inv _ _ _ Hinv Hex) as Hinv2.
    pose proof (sys_step_inv _ _ _ Hinv2 Hstep) as Hinv3.
    destruct Hstep as [i a t ev h' t' Hi Hstep].
    assert (i < length (threads σ2))%nat as Hlen by (by eapply lookup_lt_Some).
    destruct (thread_step_local _ _ _ _ _ _ Hstep) as (_ & Hnr & Hret & Hlev & _).
    destruct (IH _ _ Hi) as [Hc Hl]. specialize (Hl Hnr).
    intros j tj Hj. cbn in Hj.
    destruct (decide (j = i)) as [->|Hne].
    2: { rewrite list_lookup_insert_ne in Hj by done.
         rewrite events_of_snoc_other by done. by apply IH. }
    rewrite list_lookup_insert_eq in Hj by done. injection Hj as <-.
    rewrite events_of_snoc_same, count_events_snoc.
    destruct (is_descend ev) eqn:Hev.
    2: { rewrite Nat.add_0_r. split; [done|]. intros Hr. by rewrite Hlev. }
    destruct (returned t') eqn:Hr; [by specialize (Hret eq_refl)|].
    specialize (Hlev eq_refl). rewrite Hl, level_dec_level_at in Hlev.
    assert (threads (mkSystem h' (<[i:=t']> (threads σ2))) !! i = Some t') as Hi'.
    { cbn. by apply list_lookup_insert_eq. }
    destruct (thread_inv_level h' t' (sys_heap _ Hinv3) (sys_threads _ Hinv3 _ _ Hi') Hr)
      as (d & Hd & Hld).
    rewrite Hld in Hlev. apply level_at_inj in Hlev; [|lia..].
    replace (_ + 1)%nat with (S (count_events is_descend (events_of i tr))) by lia.
    split; [lia|]. intros _. by rewrite Hld, Hlev.
Qed.

Lemma S_top_levels : Z.of_nat (S top) = KEY_BITS / BITS.
Proof.
  pose proof top_TOP_LEVEL as Htop. unfold TOP_LEVEL, KEY_BITS, BITS in *.
  rewrite Nat2Z.inj_succ, Htop.
  replace (8 * sizeof_K - 1) with (4 * (2 * sizeof_K - 1) + 3) by lia.
  replace (8 * sizeof_K) with ((2 * sizeof_K) * 4) by lia.
  rewrite Z.div_mul by lia.
  rewrite (Z.mul_comm 4), Z.div_add_l by lia.
  change (3 / 4) with 0. lia.
Qed.

(** ** Properties of concurrent executions *)

Lemma exec_leaves σ tr σ' :
  sys_inv σ → exec σ tr σ' →
  (length (reachable_leaves (heap σ)) ≤ length (reachable_leaves (heap σ')))%nat.
Proof.
  intros Hinv Hex. induction Hex as [|σ1 σ2 σ3 tr l Hex IH Hstep]; [done|].
  specialize (IH Hinv). pose proof (exec_inv _ _ _ Hinv Hex) as Hinv2.
  destruct Hstep as [i a t ev h' t' Hi Hstep].
  pose proof (thread_step_ok a _ _ (sys_heap _ Hinv2) (sys_threads _ Hinv2 _ _ Hi))
    as Hok.
  rewrite Hstep in Hok. destruct Hok as (c & Hc & -> & _).
  etrans; [done|]. cbn. by apply change_leaves; [apply Hinv2|].
Qed.

Lemma exec_slot_transitions σ tr σ' k ref d w :
  sys_inv σ → exec σ tr σ' →
  on_path (heap σ) k ref d → load (heap σ) ref = Some w →
  ∃ w', on_path (heap σ') k ref d ∧ load (heap σ') ref = Some w' ∧
        rtc slot_transition w w'.
Proof.
  intros Hinv Hex Hp Hl. induction Hex as [|σ1 σ2 σ3 tr l Hex IH Hstep].
  - exists w. by split_and!.
  - destruct (IH Hinv Hp Hl) as (w2 & Hp2 & Hl2 & Hrtc).
    pose proof (exec_inv _ _ _ Hinv Hex) as Hinv2.
    destruct Hstep as [i a t ev h' t' Hi Hstep].
    pose proof (thread_step_ok a _ _ (sys_heap _ Hinv2) (sys_threads _ Hinv2 _ _ Hi))
      as Hok.
    rewrite Hstep in Hok. destruct Hok as (c & Hc & -> & _).
    pose proof (change_heap_le _ _ (sys_heap _ Hinv2) Hc) as Hle.
    pose proof (change_heap_inv _ _ (sys_heap _ Hinv2) Hc) as Hinv3.
    pose proof (le_path _ _ Hle _ _ _ Hp2) as Hp3.
    destruct (on_path_load _ _ _ _ Hinv3 Hp3) as [w3 Hl3].
    exists w3. cbn. split_and!; [done..|].
    eapply rtc_r; [done|].
    by eapply change_slot_transition; [apply Hinv2|..].
Qed.

(** C7: in every state reached from the empty tree, a step of any thread
    leaves each slot as it is, or moves it from empty to leaf, or from leaf
    to node; a slot holding a node is never changed; a slot of the tree stays
    in the tree and its successive contents are linked by such transitions;
    and the number of leaves reachable from the root never decreases along
    an execution. *)
Theorem slots_only_grow (σ σ1 σ2 : System) (tr : list (nat * Event))
    (l : nat * Event) :
  reachable σ → exec σ tr σ1 → sys_step σ1 l σ2 →
  (∀ ref w w',
     load (heap σ1) ref = Some w → load (heap σ2) ref = Some w' →
     slot_transition w w') ∧
  (∀ ref w w',
     load (heap σ1) ref = Some w → isNode w = true →
     load (heap σ2) ref = Some w' → w' = w) ∧
  (∀ k ref d w,
     on_path (heap σ) k ref d → load (heap σ) ref = Some w →
     ∃ w', on_path (heap σ1) k ref d ∧ load (heap σ1) ref = Some w' ∧
           rtc slot_transition w w') ∧
  (length (reachable_leaves (heap σ)) ≤ length (reachable_leaves (heap σ1)))%nat ∧
  (length (reachable_leaves (heap σ1)) ≤ length (reachable_leaves (heap σ2)))%nat.
Proof.
  intros Hreach Hex Hstep.
  pose proof (reachable_inv _ Hreach) as Hinv.
  pose proof (exec_inv _ _ _ Hinv Hex) as Hinv1.
  assert (∀ ref w w',
            load (heap σ1) ref = Some w → load (heap σ2) ref = Some w' →
            slot_transition w w') as Htrans.
  { destruct Hstep as [i a t ev h' t' Hi Hstep].
    pose proof (thread_step_ok a _ _ (sys_heap _ Hinv1) (sys_threads _ Hinv1 _ _ Hi))
      as Hok.
    rewrite Hstep in Hok. destruct Hok as (c & Hc & -> & _).
    intros ref w w'. cbn. by apply change_slot_transition; [apply Hinv1|]. }
  split_and!.
  - done.
  - intros ref w w' Hl Hn Hl'.
    destruct (Htrans _ _ _ Hl Hl') as [->|[(-> & _)|(Hleaf & _)]]; [done|done|].
    rewrite isLeaf_isNode, Hn in Hleaf. done.
  - intros k ref d w Hp Hl. exact (exec_slot_transitions _ _ _ _ _ _ _ Hinv Hex Hp Hl).
  - by eapply exec_leaves.
  - apply (exec_leaves σ1 [l] σ2 Hinv1).
    by apply (exec_snoc _ _ _ [] l (exec_nil _)).
Qed.

Lemma exec_no_thread σ tr σ' i :
  exec σ tr σ' → threads σ' !! i = None → events_of i tr = [].
Proof.
  induction 1 as [|σ1 σ2 σ3 tr l Hex IH Hstep]; [done|].
  destruct Hstep as [j a t ev h' t' Hj Hstep]. cbn. intros Hi.
  apply lookup_ge_None in Hi. rewrite length_insert in Hi.
  apply lookup_lt_Some in Hj as Hlt.
  rewrite events_of_snoc_other by lia. apply IH. by apply lookup_ge_None.
Qed.

Lemma agree_upto_dec d k k' :
  agree_upto d k k' ∨
  ∃ j, (j < d)%nat ∧ child_index (level_at j) k ≠ child_index (level_at j) k'.
Proof.
  induction d as [|d [IH|(j & Hj & Hne)]].
  - left. intros j Hj. lia.
  - destruct (decide (child_index (level_at d) k = child_index (level_at d) k'))
      as [Heq|Hne].
    + left. by apply agree_upto_S.
    + right. exists d. split; [lia|done].
  - right. exists j. split; [lia|done].
Qed.

(** C10: when the CAS of an empty slot fails, the word it observed is not
    the empty word; if it is not a node either, it is a leaf whose pointer is
    not null and belongs to a value held by the tree, so the dereference at
    [e.getLeaf()->getId()] is safe and the next step does not fault. *)
Theorem failed_leaf_cas_observes_leaf (σ : System) (i : nat)
    (a key value : Z) (eptr : SlotRef) (level e : Z) (h' : Heap) (t' : Thread) :
  reachable σ →
  threads σ !! i = Some (Insert key value eptr level (InsTest e)) →
  thread_step a (heap σ) (Insert key value eptr level (InsTest e))
    = Next EvLeafCasFail h' t' →
  h' = heap σ ∧ e = RadixElement_empty ∧
  ∃ e', load (heap σ) eptr = Some e' ∧ e' ≠ RadixElement_empty ∧
        compare_exchange_strong (heap σ) eptr e (RadixElement_leaf value)
          = Some (false, e', heap σ) ∧
        t' = Insert key value eptr level
               (if isNode e' then InsTest e' else InsLeaf e') ∧
        (isNode e' = false →
         ∃ leaf, getLeaf e' = Some leaf ∧ leaf ≠ 0 ∧ holds (heap σ) leaf ∧
                 ∀ a', thread_step a' h' t' ≠ Fault).
Proof.
  intros Hinv%reachable_inv Hi Hstep.
  pose proof (thread_step_ok a _ _ (sys_heap _ Hinv) (sys_threads _ Hinv _ _ Hi))
    as Hok.
  rewrite Hstep in Hok. destruct Hok as (c & _ & _ & Ht' & _).
  cbn [thread_step insert_step] in Hstep.
  destruct (isNode e) eqn:He; [by repeat case_match|].
  destruct (getLeaf e) as [leaf|] eqn:Hg; [|done].
  destruct (Z.eqb_spec leaf 0) as [->|]; [|done].
  apply getLeaf_null in Hg as ->.
  unfold compare_exchange_strong in *.
  destruct (load (heap σ) eptr) as [cur|] eqn:Hl; [|done].
  destruct (Z.eqb_spec cur RadixElement_empty) as [|Hne]; [done|].
  injection Hstep as <- <-. split_and!; [done..|].
  exists cur. split_and!; [done..|]. intros Hc.
  destruct (sys_threads _ Hinv _ _ Hi) as (_ & _ & d & Hp & _ & _).
  pose proof (load_seen _ _ _ _ _ (sys_heap _ Hinv) Hp Hl) as Hs.
  unfold seen in Hs. rewrite Hc in Hs. destruct Hs as [|Hs]; [done|].
  destruct (leaf_seen_getLeaf _ _ _ _ Hs) as (p & Hg & _ & Hp0 & _ & _ & Hh).
  exists p. split_and!; [done..|]. intros a' Hf.
  pose proof (thread_step_ok a' _ _ (sys_heap _ Hinv) Ht') as Hok.
  by rewrite Hf in Hok.
Qed.

(** C1 (amended): when the walk of [insert] stands on a leaf whose key is
    not the key being inserted, it allocates a node whose children are all
    empty except the one selected by the leaf's key at the current value of
    [level], which holds that leaf.  [level] is the value left by the
    descents, each of which indexes at the level it finds and then decrements
    it: [TOP_LEVEL] when the leaf is in the root slot.  The thread then tries
    to replace the leaf by the node in the same slot; when that CAS fails the
    node is released, and it has not been referenced from the tree. *)
Theorem insert_split_node (σ σ' : System) (i j : nat) (a a' key value : Z)
    (eptr : SlotRef) (level e n : Z) :
  reachable σ →
  threads σ !! i = Some (Insert key value eptr level (InsLeaf e)) →
  alloc_ok (heap σ) a = true →
  reachable σ' →
  threads σ' !! j = Some (Insert key value eptr level (InsCas e n)) →
  (∀ h0 e0 level0 ref1 level1 e1,
     descend h0 e0 level0 key = Some (ref1, level1, e1) →
     ref1 = ChildSlot e0 (Z.to_nat (child_index level0 key)) ∧
     level1 = level_dec level0) ∧
  (∃ leaf d,
     getLeaf e = Some leaf ∧ leaf ≠ 0 ∧
     on_path (heap σ) key eptr d ∧ level = level_at d ∧
     (getId leaf ≠ key →
      let cs := <[Z.to_nat (child_index level (getId leaf)) := e]>
                  (replicate CHILD_PER_LEVEL RadixElement_empty) in
      (d ≤ top)%nat ∧ level = TOP_LEVEL - Z.of_nat d ∧
      RadixNode_new level (getId leaf) e = Some cs ∧
      thread_step a (heap σ) (Insert key value eptr level (InsLeaf e))
        = Next EvAlloc (alloc_node (heap σ) a cs)
            (Insert key value eptr level (InsCas e a)) ∧
      cs !! Z.to_nat (child_index level (getId leaf)) = Some e ∧
      (∀ m, (m < CHILD_PER_LEVEL)%nat →
            m ≠ Z.to_nat (child_index level (getId leaf)) →
            cs !! m = Some RadixElement_empty))) ∧
  (∃ cur,
     load (heap σ') eptr = Some cur ∧ unreferenced (heap σ') n ∧
     thread_step a' (heap σ') (Insert key value eptr level (InsCas e n))
       = (if decide (cur = e)
          then Next EvSplitCasOk (store (heap σ') eptr (RadixElement_node n))
                 (Insert key value eptr level InsLoad)
          else Next EvSplitCasFail (free_node (heap σ') n)
                 (Insert key value eptr level InsLoad)) ∧
     (cur ≠ e →
      nodes (free_node (heap σ') n) !! n = None ∧
      unreferenced (free_node (heap σ') n) n ∧
      same_but n (heap σ') (free_node (heap σ') n))).
Proof.
  intros Hinv%reachable_inv Hi Ha Hinv'%reachable_inv Hj. split_and!.
  - intros h0 e0 level0 ref1 level1 e1. unfold descend.
    destruct (getNode e0) as [n0|] eqn:Hn0; [|done].
    destruct (RadixNode_get level0 key) as [i0|] eqn:Hg; [|done].
    destruct (load h0 (ChildSlot n0 i0)); [|done]. intros [= <- <- <-].
    apply RadixNode_get_Some in Hg as ->. unfold getNode in Hn0.
    destruct (isNode e0); [|done]. by injection Hn0 as ->.
  - destruct (sys_threads _ Hinv _ _ Hi) as (Hv & Hid & d & Hp & Hlev & Hpc).
    cbn in Hpc.
    destruct (leaf_seen_getLeaf _ _ _ _ Hpc) as (p & Hg & He & Hp0 & Hvp & Hag & Hh).
    exists p, d. split_and!; [done..|]. intros Hne cs.
    assert (is_key key) as Hkey by (rewrite <- Hid; apply getId_range).
    assert (d ≤ top)%nat as Hd.
    { apply (agree_depth d (getId p) key (getId_range p) Hkey Hne Hag).
      eapply path_depth; [apply Hinv|done]. }
    assert (RadixNode_new level (getId p) e = Some cs) as Hcs.
    { subst level. by apply RadixNode_new_level_at. }
    split_and!; [done| |done|..].
    + subst level. by apply level_at_small.
    + cbn [thread_step]. subst e. by apply step_InsLeaf_split.
    + rewrite (RadixNode_new_lookup _ _ _ _ _ Hcs) by apply child_index_lt.
      by rewrite decide_True.
    + intros m Hm Hmne. rewrite (RadixNode_new_lookup _ _ _ _ _ Hcs) by done.
      by rewrite decide_False.
  - destruct (sys_threads _ Hinv' _ _ Hj) as (Hv & Hid & d & Hp & Hlev & Hpc).
    destruct Hpc as (p & cs & -> & Hag & Hh & Hne & Hvn & Hun & Hcs & Hn).
    destruct (on_path_load _ _ _ _ (sys_heap _ Hinv') Hp) as [cur Hcur].
    exists cur. split_and!; [done..| |].
    + cbn [thread_step]. case_decide as Hc.
      * subst cur. by apply step_InsCas_ok.
      * by eapply step_InsCas_fail.
    + intros Hc. split_and!.
      * cbn. by rewrite lookup_delete_eq.
      * by rewrite <- same_but_unreferenced; [|apply free_node_same_but|].
      * apply free_node_same_but.
Qed.

(** ** Concurrent insertions of one key *)

Lemma exec_thread_id σ tr σ' i :
  exec σ tr σ' →
  thread_id <$> threads σ' !! i = thread_id <$> threads σ !! i.
Proof.
  induction 1 as [|σ1 σ2 σ3 tr l Hex IH Hstep]; [done|].
  destruct Hstep as [j a t ev h' t' Hj Hstep]. cbn. rewrite <- IH.
  apply lookup_lt_Some in Hj as Hlt.
  destruct (decide (i = j)) as [->|Hne].
  - rewrite list_lookup_insert_eq, Hj by done. cbn. f_equal.
    by destruct (thread_step_local _ _ _ _ _ _ Hstep) as (-> & _).
  - by rewrite list_lookup_insert_ne.
Qed.

Lemma filter_insert_length {A} (P : A → bool) (l : list A) i x y :
  l !! i = Some x →
  (length (List.filter P (<[i := y]> l)) + (if P x then 1 else 0) =
   length (List.filter P l) + (if P y then 1 else 0))%nat.
Proof.
  revert i. induction l as [|z l IH]; intros [|i] Hi; try done.
  - injection Hi as ->. cbn. destruct (P x), (P y); cbn; lia.
  - specialize (IH _ Hi). change (<[S i := y]> (z :: l)) with (z :: <[i := y]> l).
    cbn [List.filter]. destruct (P z), (P x), (P y); cbn [length] in *; lia.
Qed.

Lemma filter_length_one {A} (P : A → bool) (l : list A) :
  length (List.filter P l) = 1%nat →
  ∃ i x, l !! i = Some x ∧ P x = true ∧
         ∀ j y, l !! j = Some y → P y = true → j = i.
Proof.
  induction l as [|z l IH]; [done|]. cbn. destruct (P z) eqn:Hz; cbn.
  - intros Hlen. exists 0%nat, z. split_and!; [done..|].
    intros [|j] y Hj Hy; [done|]. cbn in Hj.
    assert (y ∈ List.filter P l) as Hin.
    { apply list_elem_of_In, filter_In. split; [|done].
      apply list_elem_of_In. by eapply list_elem_of_lookup_2. }
    destruct (List.filter P l); [by apply elem_of_nil in Hin|done].
  - intros Hlen. destruct (IH Hlen) as (i & x & Hi & Hx & Huniq).
    exists (S i), x. split_and!; [done..|].
    intros [|j] y Hj Hy; cbn in Hj; [congruence|]. f_equal. by eapply Huniq.
Qed.

Lemma filter_length_pos {A} (P : A → bool) (l : list A) i x :
  l !! i = Some x → P x = true → (0 < length (List.filter P l))%nat.
Proof.
  revert i. induction l as [|z l IH]; intros [|i] Hi Hx; try done; cbn in *.
  - injection Hi as ->. rewrite Hx. cbn. lia.
  - specialize (IH _ Hi Hx). destruct (P z); cbn; lia.
Qed.

Lemma returned_true_spec k t :
  returned_true k t = true ↔ ∃ v, t = InsertRet k v true.
Proof.
  split.
  - destruct t as [| k' v [|] | |]; try done. cbn. intros ->%Z.eqb_eq. by eexists.
  - intros [v ->]. cbn. apply Z.eqb_refl.
Qed.

Lemma sys_step_win_inv k σ l σ' :
  sys_inv σ → win_inv k σ → sys_step σ l σ' → win_inv k σ'.
Proof.
  intros Hinv (r & Hf & Hw) Hstep.
  destruct Hstep as [i a t ev h' t' Hi Hstep].
  pose proof (thread_step_ok a _ _ (sys_heap _ Hinv) (sys_threads _ Hinv _ _ Hi))
    as Hok.
  rewrite Hstep in Hok.
  destruct Hok as (c & Hc & -> & Ht' & _ & _ & He1 & He2 & _).
  destruct (thread_step_local _ _ _ _ _ _ Hstep) as (_ & Hnr & _).
  assert (returned_true k t = false) as Hrt.
  { destruct t as [| |?|]; done. }
  pose proof (filter_insert_length (returned_true k) _ _ _ t' Hi) as Hlen.
  rewrite Hrt in Hlen. unfold win_inv, winners in *. cbn [heap threads].
  assert ((∃ v, change_value c = Some v ∧ getId v = k) ∨
          ¬ (∃ v, change_value c = Some v ∧ getId v = k))
    as [(v & Hcv & Hk)|Hno].
  { destruct (change_value c) as [v|]; [|right; by intros (? & ? & _)].
    destruct (decide (getId v = k)); [left; by exists v|right].
    intros (? & [= <-] & ?). done. }
  - destruct c as [| | |ref v'|]; try done. injection Hcv as ->.
    destruct (He1 v eq_refl) as [_ ->].
    destruct (change_found_new _ _ _ (sys_heap _ Hinv) Hc) as [H0 Hv].
    rewrite Hk in H0, Hv. rewrite (found_det _ _ _ _ Hf H0) in Hw.
    rewrite decide_True in Hw by done.
    exists v. split; [done|]. destruct Hc as (Hvalid & _).
    apply valid_ptr_spec in Hvalid as [Hpos _].
    rewrite decide_False by lia. cbn [returned_true] in Hlen.
    rewrite Hk, Z.eqb_refl in Hlen. rewrite Hk. lia.
  - exists r. split.
    + apply change_found; [apply Hinv|done| |done].
      intros v Hcv ->. apply Hno. by exists v.
    + assert (returned_true k t' = false) as Hrt'.
      { destruct (returned_true k t') eqn:Hr; [|done].
        apply returned_true_spec in Hr as [v ->].
        destruct Ht' as (_ & Hid & _). destruct Hno. exists v.
        split; [by eapply He2|done]. }
      rewrite Hrt' in Hlen. lia.
Qed.

Lemma exec_win_inv k σ tr σ' :
  sys_inv σ → win_inv k σ → exec σ tr σ' → win_inv k σ'.
Proof.
  intros Hinv Hw. induction 1 as [|σ1 σ2 σ3 tr l Hex IH Hstep]; [done|].
  eapply sys_step_win_inv; [by eapply exec_inv|by apply IH|done].
Qed.

Lemma exec_cas_inv σ tr σ' :
  Forall is_call (threads σ) → exec σ tr σ' → cas_inv tr σ'.
Proof.
  intros Hcalls. induction 1 as [|σ1 σ2 σ3 tr l Hex IH Hstep].
  - intros i t Hi. rewrite Forall_lookup in Hcalls.
    by destruct (Hcalls _ _ Hi) as [(v & _ & ->)|(k & ->)].
  - specialize (IH Hcalls). destruct Hstep as [i a t ev h' t' Hi Hstep].
    apply lookup_lt_Some in Hi as Hlt.
    destruct (thread_step_local _ _ _ _ _ _ Hstep) as (_ & Hnr & _ & _ & Hev).
    intros j tj Hj. cbn in Hj. destruct (decide (j = i)) as [->|Hne].
    + rewrite list_lookup_insert_eq in Hj by done. injection Hj as <-.
      rewrite events_of_snoc_same, count_events_snoc, (IH _ _ Hi), Hev.
      destruct t as [|? ? ?| |]; try done; by destruct t' as [|? ? [|]| |].
    + rewrite list_lookup_insert_ne in Hj by done.
      rewrite events_of_snoc_other by done. by apply IH.
Qed.

Lemma initial_win_inv k h ts :
  Forall is_call ts → found h k 0 → win_inv k (mkSystem h ts).
Proof.
  intros Hts Hf. exists 0. split; [done|]. rewrite decide_True by done.
  unfold winners. cbn. induction Hts as [|t ts Ht Hts IH]; [done|].
  cbn. by destruct Ht as [(v & _ & ->)|(k' & ->)].
Qed.

(** C9: start any number of calls on a tree in which the key [k] is absent
    and interleave them in any way.  Once the insertions of values with id
    [k] have all returned, exactly one of them has returned true, the one
    whose CAS found the slot empty, and the tree holds its value; every other
    one has returned false. *)
Theorem same_key_inserts_one_winner (h0 : Heap) (ts : list Thread)
    (tr : list (nat * Event)) (σ : System) (k : Z) (i0 : nat) (v0 : Z) :
  built_by_inserts h0 → RadixTree_get h0 k = Some 0 →
  Forall is_call ts → exec (mkSystem h0 ts) tr σ →
  ts !! i0 = Some (insert_call v0) → getId v0 = k →
  (∀ i v, ts !! i = Some (insert_call v) → getId v = k →
          ∃ b, threads σ !! i = Some (InsertRet k v b)) →
  ∃ i v,
    ts !! i = Some (insert_call v) ∧ getId v = k ∧
    threads σ !! i = Some (InsertRet k v true) ∧
    count_events is_leaf_cas_ok (events_of i tr) = 1%nat ∧
    RadixTree_get (heap σ) k = Some v ∧
    ∀ j u, ts !! j = Some (insert_call u) → getId u = k → j ≠ i →
           threads σ !! j = Some (InsertRet k u false) ∧
           count_events is_leaf_cas_ok (events_of j tr) = 0%nat.
Proof.
  intros Hh0%built_by_inserts_inv Habs Hts Hex Hi0 Hv0 Hdone.
  apply RadixTree_get_iff in Habs; [|done].
  pose proof (initial_inv _ _ Hh0 Hts) as Hinv0.
  pose proof (exec_inv _ _ _ Hinv0 Hex) as Hinv.
  pose proof (exec_win_inv k _ _ _ Hinv0 (initial_win_inv _ _ _ Hts Habs) Hex)
    as (r & Hf & Hw).
  pose proof (exec_cas_inv (mkSystem h0 ts) _ _ Hts Hex) as Hcas.
  assert (r ≠ 0) as Hr.
  { destruct (Hdone _ _ Hi0 Hv0) as [b Hb]. destruct b.
    - intros ->. rewrite decide_True in Hw by done.
      pose proof (filter_length_pos (returned_true k) _ _ _ Hb
                    ltac:(cbn; apply Z.eqb_refl)) as Hpos.
      unfold winners in Hw. lia.
    - destruct (sys_threads _ Hinv _ _ Hb) as (_ & _ & Hp).
      apply present_found in Hp as (p & Hp0 & Hfp); [|apply Hinv].
      by rewrite (found_det _ _ _ _ Hf Hfp). }
  rewrite decide_False in Hw by done.
  apply filter_length_one in Hw as (i & t & Hi & Ht & Huniq).
  apply returned_true_spec in Ht as [v ->].
  destruct (sys_threads _ Hinv _ _ Hi) as (Hv & Hid & Hholds).
  assert (ts !! i = Some (insert_call v)) as Hcall.
  { pose proof (exec_thread_id _ _ _ i Hex) as Htid. rewrite Hi in Htid.
    cbn in Htid. destruct (ts !! i) as [t0|] eqn:Ht0; [|done].
    rewrite Forall_lookup in Hts.
    destruct (Hts _ _ Ht0) as [(u & _ & ->)|(k' & ->)]; [|done].
    cbn in Htid. by injection Htid as _ ->. }
  exists i, v. split_and!; [done..| | |].
  - by rewrite (Hcas _ _ Hi).
  - apply RadixTree_get_iff; [apply Hinv|]. rewrite <- Hid.
    by apply holds_found.
  - intros j u Hj Hu Hne. destruct (Hdone _ _ Hj Hu) as [b Hb].
    destruct b.
    + destruct Hne. eapply Huniq; [done|]. cbn. apply Z.eqb_refl.
    + split; [done|]. by rewrite (Hcas _ _ Hb).
Qed.

(** ** Further properties of executions *)

Lemma returned_stays σ tr σ' i t :
  exec σ tr σ' → threads σ !! i = Some t → returned t = true →
  threads σ' !! i = Some t.
Proof.
  intros Hex Hi Hr. induction Hex as [|σ1 σ2 σ3 tr l Hex IH Hstep]; [done|].
  specialize (IH Hi). destruct Hstep as [j a tj ev h' t' Hj Hstep]. cbn.
  destruct (thread_step_local _ _ _ _ _ _ Hstep) as (_ & Hnr & _).
  rewrite list_lookup_insert_ne; [done|]. intros ->. congruence.
Qed.

Lemma exec_insert_call σ tr σ' i k v b :
  Forall is_call (threads σ) → exec σ tr σ' →
  threads σ' !! i = Some (InsertRet k v b) →
  threads σ !! i = Some (insert_call v).
Proof.
  intros Hts Hex Hi. pose proof (exec_thread_id _ _ _ i Hex) as Htid.
  rewrite Hi in Htid. cbn in Htid.
  destruct (threads σ !! i) as [t0|] eqn:Ht0; [|done].
  rewrite Forall_lookup in Hts.
  destruct (Hts _ _ Ht0) as [(u & _ & ->)|(k' & ->)]; [|done].
  cbn in Htid. by injection Htid as _ ->.
Qed.

Lemma heap_le_trans h1 h2 h3 : heap_le h1 h2 → heap_le h2 h3 → heap_le h1 h3.
Proof.
  intros H12 H23. split.
  - intros k r d Hp. by apply (le_path _ _ H23), (le_path _ _ H12).
  - intros k r d m Hp Hl Hm. eapply (le_node _ _ H23); [|by eapply (le_node _ _ H12)|done].
    by apply (le_path _ _ H12).
  - intros p Hp. by apply (le_holds _ _ H23), (le_holds _ _ H12).
Qed.

Lemma sys_step_heap_le σ l σ' :
  sys_inv σ → sys_step σ l σ' → heap_le (heap σ) (heap σ').
Proof.
  intros Hinv Hstep. destruct Hstep as [i a t ev h' t' Hi Hstep].
  pose proof (thread_step_ok a _ _ (sys_heap _ Hinv) (sys_threads _ Hinv _ _ Hi))
    as Hok.
  rewrite Hstep in Hok. destruct Hok as (c & Hc & -> & _). cbn.
  by apply change_heap_le; [apply Hinv|].
Qed.

Lemma exec_heap_le σ tr σ' :
  sys_inv σ → exec σ tr σ' → heap_le (heap σ) (heap σ').
Proof.
  intros Hinv Hex. induction Hex as [|σ1 σ2 σ3 tr l Hex IH Hstep];
    [apply heap_le_refl|].
  eapply heap_le_trans; [by apply IH|].
  eapply sys_step_heap_le; [|done]. by eapply exec_inv.
Qed.

(** X1: in every state reached from the empty tree by any interleaving of
    calls, a step of any thread, with any address offered by the allocator,
    is well defined: no assertion of [getNode] or [getLeaf] fails, no null
    leaf or dangling node is dereferenced, and no shift is out of range. *)
Theorem reachable_no_fault (σ : System) (i : nat) (t : Thread) (a : Z) :
  reachable σ → threads σ !! i = Some t → thread_step a (heap σ) t ≠ Fault.
Proof.
  intros Hinv%reachable_inv Hi Hf.
  pose proof (thread_step_ok a _ _ (sys_heap _ Hinv) (sys_threads _ Hinv _ _ Hi))
    as Hok.
  by rewrite Hf in Hok.
Qed.

(** X2: no call ever waits for another one.  In every reachable state, a
    call that has not returned can take its next step, whatever the other
    calls are doing, as soon as the allocator offers a usable address; and
    the state after that step is reachable again. *)
Theorem reachable_progress (σ : System) (i : nat) (t : Thread) :
  reachable σ → threads σ !! i = Some t → returned t = false →
  ∃ ev h' t',
    thread_step (fresh_addr (heap σ)) (heap σ) t = Next ev h' t' ∧
    sys_step σ (i, ev) (mkSystem h' (<[i := t']> (threads σ))) ∧
    reachable (mkSystem h' (<[i := t']> (threads σ))).
Proof.
  intros Hreach Hi Hr. pose proof (reachable_inv _ Hreach) as Hinv.
  pose proof (thread_step_ok (fresh_addr (heap σ)) _ _ (sys_heap _ Hinv)
                (sys_threads _ Hinv _ _ Hi)) as Hok.
  destruct (thread_step (fresh_addr (heap σ)) (heap σ) t) as [ev h' t'| |] eqn:Hs.
  - exists ev, h', t'. split; [done|].
    assert (sys_step σ (i, ev) (mkSystem h' (<[i := t']> (threads σ)))) as Hstep
      by (by econstructor).
    split; [done|]. eapply (reachable_exec _ [(i, ev)]); [done|].
    by apply (exec_snoc _ _ _ [] _ (exec_nil _)).
  - done.
  - destruct Hok as [Hok|Hok]; [congruence|]. by rewrite fresh_addr_ok in Hok.
Qed.

(** ** The values in the tree and the calls that put them there *)

Lemma sys_step_held σ l σ' :
  sys_inv σ → held_inv σ → sys_step σ l σ' → held_inv σ'.
Proof.
  intros Hinv Hheld Hstep.
  destruct Hstep as [i a t ev h' t' Hi Hstep].
  pose proof (thread_step_ok a _ _ (sys_heap _ Hinv) (sys_threads _ Hinv _ _ Hi))
    as Hok.
  rewrite Hstep in Hok.
  destruct Hok as (c & Hc & -> & Ht' & _ & _ & He1 & _).
  destruct (thread_step_local _ _ _ _ _ _ Hstep) as (_ & Hnr & _).
  apply lookup_lt_Some in Hi as Hlt.
  assert (∀ p, holds (heap σ) p →
            ∃ j, <[i := t']> (threads σ) !! j = Some (InsertRet (getId p) p true))
    as Hold.
  { intros p Hp. destruct (Hheld p Hp) as [j Hj]. exists j.
    rewrite list_lookup_insert_ne; [done|]. intros ->. rewrite Hi in Hj.
    by injection Hj as ->. }
  intros p Hp. cbn [heap threads] in *.
  pose proof (holds_nonnull _ _ Hp) as Hp0.
  pose proof (holds_found _ _ Hp) as Hf.
  destruct (change_value c) as [v|] eqn:Hcv.
  - destruct c as [| | |ref v'|]; try done. injection Hcv as ->.
    destruct (He1 v eq_refl) as [_ ->].
    destruct (decide (getId p = getId v)) as [Heq|Hne].
    + destruct (change_found_new _ _ _ (sys_heap _ Hinv) Hc) as [_ Hv].
      rewrite <- Heq in Hv. rewrite (found_det _ _ _ _ Hv Hf).
      exists i. by apply list_lookup_insert_eq.
    + apply Hold.
      apply (found_holds _ (getId p)); [apply Hinv| |done].
      apply (change_found _ (ChLeaf ref v) _ _ (sys_heap _ Hinv) Hc); [|done].
      by intros v0 [= <-].
  - apply Hold.
    apply (found_holds _ (getId p)); [apply Hinv| |done].
    apply (change_found _ c _ _ (sys_heap _ Hinv) Hc); [|done].
    intros v0 Hv0. congruence.
Qed.

Lemma exec_held σ tr σ' : sys_inv σ → held_inv σ → exec σ tr σ' → held_inv σ'.
Proof.
  intros Hinv Hheld. induction 1 as [|σ1 σ2 σ3 tr l Hex IH Hstep]; [done|].
  eapply sys_step_held; [by eapply exec_inv|by apply IH|done].
Qed.

Lemma reachable_held σ : reachable σ → held_inv σ.
Proof.
  intros (ts & tr & Hts & Hex).
  eapply exec_held; [|..|done].
  - apply initial_inv; [apply empty_tree_inv|done].
  - intros p Hp. cbn in Hp. pose proof (holds_nonnull _ _ Hp) as Hp0.
    apply holds_found in Hp.
    by rewrite (found_det _ _ _ _ Hp (found_empty_tree _)) in Hp0.
Qed.


(** X4: concurrent insertions of values with pairwise different ids into the
    empty tree never lose: whatever the interleaving, each of them that has
    returned has returned true, and a [get] on the tree then returns its
    value. *)
Theorem distinct_keys_all_win (ts : list Thread) (tr : list (nat * Event))
    (σ : System) (i : nat) (k v : Z) (b : bool) :
  Forall is_call ts →
  (∀ i j v u, ts !! i = Some (insert_call v) → ts !! j = Some (insert_call u) →
              getId v = getId u → i = j) →
  exec (mkSystem empty_tree ts) tr σ →
  threads σ !! i = Some (InsertRet k v b) →
  b = true ∧ RadixTree_get (heap σ) k = Some v.
Proof.
  intros Hts Hdist Hex Hi.
  assert (reachable σ) as Hreach by (by exists ts, tr).
  pose proof (reachable_inv _ Hreach) as Hinv.
  pose proof (sys_threads _ Hinv _ _ Hi) as (Hv & Hid & Hb).
  assert (b = true) as ->.
  { destruct b; [done|]. destruct Hb as (p & Hp & Hpk).
    destruct (reachable_held _ Hreach p Hp) as [j Hj].
    pose proof (exec_insert_call (mkSystem empty_tree ts) _ _ _ _ _ _ Hts Hex Hi)
      as Hci.
    pose proof (exec_insert_call (mkSystem empty_tree ts) _ _ _ _ _ _ Hts Hex Hj)
      as Hcj.
    cbn in Hci, Hcj.
    assert (i = j) as -> by (eapply Hdist; [done..|congruence]).
    congruence. }
  split; [done|]. apply RadixTree_get_iff; [apply Hinv|]. rewrite <- Hid.
  by apply holds_found.
Qed.


(** X6: a key never changes its value and never leaves the tree.  If a [get]
    of [k] on the tree finds a value in some reachable state, a [get] of [k]
    finds the same value in every later state of the execution. *)
Theorem binding_permanent (σ σ' : System) (tr : list (nat * Event)) (k r : Z) :
  reachable σ → RadixTree_get (heap σ) k = Some r → r ≠ 0 →
  exec σ tr σ' → RadixTree_get (heap σ') k = Some r.
Proof.
  intros Hinv%reachable_inv Hget Hr Hex.
  pose proof (exec_inv _ _ _ Hinv Hex) as Hinv'.
  apply RadixTree_get_iff in Hget; [|apply Hinv].
  destruct (found_holds _ _ _ (sys_heap _ Hinv) Hget Hr) as [Hh <-].
  apply RadixTree_get_iff; [apply Hinv'|]. apply holds_found.
  by apply (le_holds _ _ (exec_heap_le _ _ _ Hinv Hex)).
Qed.

(** ** A [get] that starts after an [insert] has returned *)

Lemma sys_step_get_sees σ l σ' j v t :
  sys_inv σ → holds (heap σ) v →
  threads σ !! j = Some t → get_sees v t → sys_step σ l σ' →
  ∃ t', threads σ' !! j = Some t' ∧ get_sees v t'.
Proof.
  intros Hinv Hh Hj Hsees Hstep.
  destruct Hstep as [i a ti ev h' ti' Hi Hstep]. cbn [threads].
  apply lookup_lt_Some in Hi as Hlt.
  destruct (decide (j = i)) as [->|Hne].
  2: { exists t. by rewrite list_lookup_insert_ne. }
  rewrite Hi in Hj. injection Hj as ->.
  exists ti'. split; [by apply list_lookup_insert_eq|].
  pose proof (sys_heap _ Hinv) as Hheap.
  pose proof (sys_threads _ Hinv _ _ Hi) as Ht.
  pose proof Hh as [Hv Hlook].
  assert (∀ ref d e, on_path (heap σ) (getId v) ref d → load (heap σ) ref = Some e →
                     isNode e = false → e = RadixElement_leaf v) as Hend.
  { intros ref d e Hp Hl He. eapply lookup_det; [|done]. by exists ref, d. }
  destruct t as [| |key level [|e]|]; try done; cbn [get_sees] in Hsees.
  - subst key. cbn in Hstep. injection Hstep as <- <- <-. cbn. split; [done|].
    apply (Hend RootSlot 0%nat); [constructor|done].
  - destruct Hsees as [-> Hleaf]. cbn [thread_inv] in Ht.
    destruct Ht as (ref & d & Hp & -> & Hs). unfold seen in Hs.
    destruct (isNode e) eqn:He.
    + destruct (descend_spec _ _ _ _ _ Hheap Hp Hs He) as (e' & Hdesc & Hp' & Hl').
      cbn [thread_step get_step] in Hstep. rewrite He, Hdesc in Hstep.
      injection Hstep as <- <- <-. cbn. split; [done|]. by eapply Hend.
    + cbn [thread_step] in Hstep. rewrite get_step_result in Hstep by done.
      injection Hstep as <- <- <-. cbn. split; [done|].
      rewrite Hleaf by done. by apply result_leaf_same.
Qed.

(** X7: a [get(key)] that starts after an [insert] of a value with that key
    has returned true returns that value, whatever other calls run at the
    same time. *)
Theorem get_after_insert (σ σ' : System) (tr : list (nat * Event))
    (i j : nat) (key v r : Z) :
  reachable σ →
  threads σ !! i = Some (InsertRet key v true) →
  threads σ !! j = Some (get_call key) →
  exec σ tr σ' →
  threads σ' !! j = Some (GetRet key r) →
  r = v.
Proof.
  intros Hinv%reachable_inv Hi Hj Hex Hret.
  destruct (sys_threads _ Hinv _ _ Hi) as (_ & Hid & Hh).
  assert (∃ t', threads σ' !! j = Some t' ∧ get_sees v t') as (t' & Ht' & Hsees).
  { clear Hret. induction Hex as [|σ1 σ2 σ3 tr l Hex IH Hstep].
    - exists (get_call key). split; [done|]. by cbn.
    - destruct (IH Hinv Hi Hj Hh) as (t2 & Ht2 & Hs2).
      eapply sys_step_get_sees; [by eapply exec_inv| |done..].
      by apply (le_holds _ _ (exec_heap_le _ _ _ Hinv Hex)). }
  rewrite Hret in Ht'. injection Ht' as <-. by destruct Hsees as [_ ->].
Qed.

(** X8: the shape of the tree in every reachable state.  A slot reached by
    the walk for [k] after [d] descents lies at most [TOP_LEVEL + 1] levels
    below the root; if it holds a node, the node is not null, is allocated
    with [CHILD_PER_LEVEL] slots, and lies above the bottom level; if it
    holds a leaf, the id of the leaf has the first [d] chunks of [k] and a
    [get] of that id returns the leaf; and the slot is reached by no walk
    with other chunks or another depth, so the nodes form a tree. *)
Theorem reachable_tree_shape (σ : System) (k : Z) (ref : SlotRef) (d : nat)
    (w : Z) :
  reachable σ → on_path (heap σ) k ref d → load (heap σ) ref = Some w →
  (d ≤ S top)%nat ∧
  (isNode w = true →
   (d ≤ top)%nat ∧ w ≠ 0 ∧
   ∃ cs, nodes (heap σ) !! w = Some cs ∧ length cs = CHILD_PER_LEVEL) ∧
  (isNode w = false →
   w = RadixElement_empty ∨
   ∃ p, w = RadixElement_leaf p ∧ valid_ptr p = true ∧
        agree_upto d (getId p) k ∧ RadixTree_get (heap σ) (getId p) = Some p) ∧
  (∀ k' d', on_path (heap σ) k' ref d' → d' = d ∧ agree_upto d k k').
Proof.
  intros Hinv%reachable_inv Hp Hl. pose proof (sys_heap _ Hinv) as Hheap.
  pose proof (path_ok _ Hheap _ _ _ _ Hp Hl) as Hok. unfold slot_ok in Hok.
  split_and!.
  - by eapply path_depth.
  - intros Hn. rewrite Hn in Hok. destruct Hok as (Hd & Hv & [cs Hcs]).
    apply valid_ptr_spec in Hv as [Hpos _].
    split_and!; [done|lia|]. exists cs. split; [done|]. by eapply nodes_wf.
  - intros Hn. rewrite Hn in Hok. destruct Hok as [->|(p & -> & Hv & Hag)];
      [by left|right].
    exists p. split_and!; [done..|].
    apply RadixTree_get_iff; [done|]. apply holds_found. split; [done|].
    exists ref, d. split_and!; [|done..].
    eapply on_path_agree; [|done]. by apply agree_upto_sym.
  - intros k' d' Hp'. destruct (path_unique _ Hheap _ _ _ _ _ Hp Hp') as [-> Hag].
    done.
Qed.

(** ** Every call returns within a bounded number of its own steps *)

Lemma remaining_level_at d :
  (d ≤ S top)%nat → remaining (level_at d) = (S top - d)%nat.
Proof.
  intros Hd. unfold remaining, LEVEL_BITS.
  destruct (decide (d = S top)) as [->|Hne].
  - rewrite level_at_bottom, Z.eqb_refl. lia.
  - rewrite level_at_small by lia.
    pose proof TOP_LEVEL_bounds as (H0 & H1 & _ & H3).
    pose proof top_TOP_LEVEL as Htop.
    assert (2 ^ 31 = 2147483648) as E31 by reflexivity.
    assert (2 ^ 32 = 4294967296) as E32 by reflexivity.
    destruct (Z.eqb_spec (TOP_LEVEL - Z.of_nat d) (2 ^ 32 - 1)); lia.
Qed.

Lemma insert_step_budget a h key value eptr level pc ev h' t' :
  heap_inv h → thread_inv h (Insert key value eptr level pc) →
  stale_ok h (Insert key value eptr level pc) →
  insert_step a h key value eptr level pc = Next ev h' t' →
  stale_ok h' t' ∧
  (budget h' t' < budget h (Insert key value eptr level pc))%nat.
Proof.
  intros Hinv (Hv & Hid & d & Hp & -> & Hpc) Hst.
  destruct (on_path_load _ _ _ _ Hinv Hp) as [cur Hcur].
  pose proof (path_depth _ Hinv _ _ _ Hp) as Hd.
  pose proof (path_ok _ Hinv _ _ _ _ Hp Hcur) as Hok. unfold slot_ok in Hok.
  cbn [budget]. rewrite (remaining_level_at d Hd).
  destruct pc as [|e|e|e n]; cbn [insert_pc_inv stale_ok] in *.
  - (* InsLoad *)
    rewrite (step_InsLoad _ _ _ _ _ _ _ Hcur). intros [= <- <- <-]. split.
    + cbn. intros _ _. exists cur. split; [done|by left].
    + cbn [budget]. rewrite (remaining_level_at d Hd). unfold slot_is_node.
      rewrite Hcur. destruct (isNode cur); lia.
  - (* InsTest *)
    unfold seen in Hpc. destruct (isNode e) eqn:He.
    + rewrite Hpc in Hcur. injection Hcur as <-. rewrite He in Hok.
      destruct Hok as (Hd' & _).
      destruct (step_InsTest_node a _ _ value _ _ _ Hinv Hp Hpc He)
        as (e' & -> & Hp' & Hl').
      intros [= <- <- <-]. split.
      * cbn. intros _ _. exists e'. split; [done|by left].
      * cbn [budget]. rewrite (remaining_level_at (S d)) by lia.
        destruct (isNode e'); lia.
    + destruct Hpc as [->|Hs].
      * destruct (decide (cur = RadixElement_empty)) as [->|Hne].
        -- rewrite step_InsTest_empty by done. intros [= <- <- <-].
           split; [done|]. cbn [budget]. lia.
        -- rewrite (step_InsTest_empty_fail _ _ _ _ _ _ _ Hcur Hne).
           intros [= <- <- <-]. split.
           ++ destruct (isNode cur) eqn:Hc; cbn.
              ** intros Hc'. congruence.
              ** exists cur. split; [done|by left].
           ++ destruct (isNode cur) eqn:Hc; cbn [budget];
                rewrite (remaining_level_at d Hd); [rewrite Hc|]; lia.
      * destruct (leaf_seen_getLeaf _ _ _ _ Hs) as (p & _ & -> & Hp0 & Hvp & _).
        rewrite step_InsTest_leaf by done. intros [= <- <- <-]. split.
        -- cbn. apply Hst; [done|by apply leaf_not_empty].
        -- cbn [budget]. rewrite (remaining_level_at d Hd). lia.
  - (* InsLeaf *)
    destruct (leaf_seen_getLeaf _ _ _ _ Hpc) as (p & _ & -> & Hp0 & Hvp & Hag & Hh).
    destruct (decide (getId p = key)) as [Hk|Hk].
    + rewrite step_InsLeaf_same by done. intros [= <- <- <-].
      split; [done|]. cbn [budget]. lia.
    + assert (d ≤ top)%nat as Hd'.
      { eapply (agree_depth d (getId p) key); try done.
        subst key. apply getId_range. }
      pose proof (RadixNode_new_level_at d (getId p) (RadixElement_leaf p) Hd')
        as Hcs.
      destruct (alloc_ok h a) eqn:Ha.
      * rewrite (step_InsLeaf_split _ _ _ _ _ _ _ _ Hvp Hk Hcs Ha).
        intros [= <- <- <-]. split.
        -- cbn. destruct Hst as (w & Hw & Hor). exists w. split; [|done].
           apply andb_true_iff in Ha as [Hva Hfree].
           apply bool_decide_eq_true in Hfree.
           erewrite same_but_load_path;
             [done|apply alloc_node_same_but|by apply fresh_unreferenced|done].
        -- cbn [budget]. rewrite (remaining_level_at d Hd). lia.
      * cbn [insert_step]. destruct (getLeaf_valid _ Hvp) as [Hg Hz].
        rewrite Hg, Hz. destruct (Z.eqb_spec key (getId p)); [congruence|].
        by rewrite Hcs, Ha.
  - (* InsCas *)
    destruct Hpc as (p & cs & -> & Hag & Hh & Hne & Hvn & Hun & Hcs & Hn).
    destruct (decide (cur = RadixElement_leaf p)) as [->|Hne'].
    + rewrite (step_InsCas_ok _ _ _ _ _ _ _ _ Hcur). intros [= <- <- <-].
      split; [done|]. cbn [budget]. rewrite (remaining_level_at d Hd).
      unfold slot_is_node. rewrite load_store_eq by (by eexists).
      unfold RadixElement_node. rewrite (isNode_valid _ Hvn). lia.
    + rewrite (step_InsCas_fail _ _ _ _ _ _ _ _ _ Hcur Hne').
      intros [= <- <- <-]. split; [done|].
      cbn [budget]. rewrite (remaining_level_at d Hd). unfold slot_is_node.
      erewrite same_but_load_path; [|apply free_node_same_but|done..].
      rewrite Hcur. destruct Hst as (w & Hw & [->|Hnode]); [congruence|].
      assert (w = cur) as -> by congruence. rewrite Hnode. lia.
Qed.

Lemma get_step_budget h key level pc ev h' t' :
  heap_inv h → thread_inv h (Get key level pc) →
  get_step h key level pc = Next ev h' t' →
  stale_ok h' t' ∧ (budget h' t' < budget h (Get key level pc))%nat.
Proof.
  intros Hinv Ht. destruct pc as [|e]; cbn [thread_inv] in *.
  - subst level. cbn [get_step]. intros [= <- <- <-]. split; [done|].
    cbn [budget]. lia.
  - destruct Ht as (ref & d & Hp & -> & Hs). unfold seen in Hs.
    pose proof (path_depth _ Hinv _ _ _ Hp) as Hd.
    destruct (isNode e) eqn:He.
    + pose proof (path_ok _ Hinv _ _ _ _ Hp Hs) as Hok. unfold slot_ok in Hok.
      rewrite He in Hok. destruct Hok as (Hd' & _).
      destruct (descend_spec _ _ _ _ _ Hinv Hp Hs He) as (e' & Hdesc & Hp' & Hl').
      cbn [get_step]. rewrite He, Hdesc. intros [= <- <- <-]. split; [done|].
      cbn [budget].
      rewrite (remaining_level_at d Hd), (remaining_level_at (S d)) by lia. lia.
    + rewrite get_step_result by done. intros [= <- <- <-]. split; [done|].
      cbn [budget]. lia.
Qed.

Lemma thread_step_budget a h t ev h' t' :
  heap_inv h → thread_inv h t → stale_ok h t →
  thread_step a h t = Next ev h' t' →
  stale_ok h' t' ∧ (budget h' t' < budget h t)%nat.
Proof.
  intros Hinv Ht Hst.
  destruct t as [key value eptr level pc|key value r|key level pc|key r];
    cbn [thread_step]; [by apply insert_step_budget|done|
                        by apply get_step_budget|done].
Qed.

Lemma cur_or_node_stable h c k ref d e :
  heap_inv h → change_ok h c → on_path h k ref d →
  isNode e = false → e ≠ RadixElement_empty →
  cur_or_node h ref e → cur_or_node (apply_change h c) ref e.
Proof.
  intros Hinv Hc Hp He Hne (w & Hw & Hor).
  pose proof (change_heap_le _ _ Hinv Hc) as Hle.
  pose proof (change_heap_inv _ _ Hinv Hc) as Hinv'.
  destruct (on_path_load _ _ _ _ Hinv' (le_path _ _ Hle _ _ _ Hp)) as [w' Hw'].
  exists w'. split; [done|].
  destruct (change_slot_transition _ _ _ _ _ Hinv Hc Hw Hw')
    as [<-|[(-> & _)|(_ & _ & Hn)]].
  - done.
  - destruct Hor as [<-|Hn]; [done|]. by rewrite isNode_empty in Hn.
  - by right.
Qed.

Lemma stale_ok_stable h c t :
  heap_inv h → change_ok h c → thread_inv h t →
  stale_ok h t → stale_ok (apply_change h c) t.
Proof.
  intros Hinv Hc Ht Hst.
  destruct t as [key value eptr level [|e|e|e n]| | |]; try done;
    cbn [stale_ok thread_inv insert_pc_inv] in *;
    destruct Ht as (_ & _ & d & Hp & _ & Hpc).
  - intros He Hne. by eapply cur_or_node_stable; [..|apply Hst].
  - destruct (leaf_seen_getLeaf _ _ _ _ Hpc) as (p & _ & -> & _ & Hvp & _).
    eapply cur_or_node_stable;
      [done..|apply isNode_leaf|by apply leaf_not_empty|done].
  - destruct Hpc as (p & cs & -> & _ & [Hvp _] & _).
    eapply cur_or_node_stable;
      [done..|apply isNode_leaf|by apply leaf_not_empty|done].
Qed.

Lemma budget_stable h c t :
  heap_inv h → change_ok h c → thread_inv h t →
  (budget (apply_change h c) t ≤ budget h t)%nat.
Proof.
  intros Hinv Hc Ht.
  destruct t as [key value eptr level [|e|e|e n]| | |]; cbn [budget]; try lia.
  destruct Ht as (_ & _ & d & Hp & _ & _).
  unfold slot_is_node.
  destruct (load h eptr) as [w|] eqn:Hw; [destruct (isNode w) eqn:Hn|].
  1: rewrite (le_node _ _ (change_heap_le _ _ Hinv Hc) _ _ _ _ Hp Hw Hn), Hn; lia.
  all: destruct (load (apply_change h c) eptr) as [w'|];
    [destruct (isNode w')|]; lia.
Qed.

Lemma call_fuel_thread_id t t' :
  thread_id t' = thread_id t → call_fuel t' = call_fuel t.
Proof. by destruct t, t'. Qed.

Lemma exec_budget σ tr σ' :
  sys_inv σ → Forall is_call (threads σ) → exec σ tr σ' → budget_inv tr σ'.
Proof.
  intros Hinv Hcalls Hex. induction Hex as [|σ1 σ2 σ3 tr l Hex IH Hstep].
  - intros i t Hi. rewrite Forall_lookup in Hcalls.
    pose proof (remaining_level_at 0 ltac:(lia)) as Hrem.
    rewrite level_at_0 in Hrem.
    change (events_of i []) with (@nil Event).
    destruct (Hcalls _ _ Hi) as [(v & _ & ->)|(k & ->)]; (split; [done|]);
      cbn [budget call_fuel insert_call get_call length]; rewrite Hrem;
      unfold insert_fuel, get_fuel; [destruct (slot_is_node _ _)|]; lia.
  - specialize (IH Hinv Hcalls).
    pose proof (exec_inv _ _ _ Hinv Hex) as Hinv2.
    destruct Hstep as [i a t ev h' t' Hi Hstep].
    pose proof (sys_heap _ Hinv2) as Hheap.
    pose proof (thread_step_ok a _ _ Hheap (sys_threads _ Hinv2 _ _ Hi)) as Hok.
    rewrite Hstep in Hok. destruct Hok as (c & Hc & Hh' & _).
    apply lookup_lt_Some in Hi as Hlt.
    destruct (IH _ _ Hi) as [Hst Hb].
    destruct (thread_step_budget _ _ _ _ _ _ Hheap (sys_threads _ Hinv2 _ _ Hi)
                Hst Hstep) as [Hst' Hlt'].
    destruct (thread_step_local _ _ _ _ _ _ Hstep) as (Hid & _).
    intros j tj Hj. cbn [heap threads] in *.
    destruct (decide (j = i)) as [->|Hne].
    + rewrite list_lookup_insert_eq in Hj by done. injection Hj as <-.
      split; [done|].
      rewrite events_of_snoc_same, length_app, (call_fuel_thread_id _ _ Hid).
      cbn [length]. lia.
    + rewrite list_lookup_insert_ne in Hj by done.
      destruct (IH _ _ Hj) as [Hsj Hbj]. rewrite events_of_snoc_other by done.
      pose proof (sys_threads _ Hinv2 _ _ Hj) as Htj. subst h'. split.
      * by apply stale_ok_stable.
      * pose proof (budget_stable _ _ _ Hheap Hc Htj). lia.
Qed.

(** X9: the walks are wait-free.  Start any calls on a tree built by
    insertions and interleave them in any way: at every moment a call has
    taken at most [6 * (TOP_LEVEL + 2)] steps if it is an [insert] and at
    most [TOP_LEVEL + 3] steps if it is a [get], however often its CAS has
    lost against other calls. *)
Theorem call_step_bound (h0 : Heap) (ts : list Thread)
    (tr : list (nat * Event)) (σ : System) (i : nat) (t : Thread) :
  built_by_inserts h0 → Forall is_call ts →
  exec (mkSystem h0 ts) tr σ → threads σ !! i = Some t →
  (length (events_of i tr) ≤ call_fuel t)%nat ∧
  Z.of_nat (call_fuel t) =
  match t with
  | Insert _ _ _ _ _ | InsertRet _ _ _ => 6 * (TOP_LEVEL + 2)
  | Get _ _ _ | GetRet _ _ => TOP_LEVEL + 3
  end.
Proof.
  intros Hh0%built_by_inserts_inv Hts Hex Hi.
  pose proof (exec_budget _ _ _ (initial_inv _ _ Hh0 Hts) Hts Hex _ _ Hi)
    as [_ Hb].
  split; [lia|]. pose proof top_TOP_LEVEL as Htop.
  destruct t; cbn [call_fuel]; unfold insert_fuel, get_fuel; lia.
Qed.

(** ** Allocated nodes *)

(** What a step does to the heap and to the node in the hands of the call,
    by the event it reports. *)
Lemma thread_step_heap a h t ev h' t' :
  thread_step a h t = Next ev h' t' →
  match ev with
  | EvAlloc => owned t = None ∧ owned t' = Some a ∧ ∃ cs, h' = alloc_node h a cs
  | EvSplitCasOk =>
      ∃ key v eptr level e n,
        t = Insert key v eptr level (InsCas e n) ∧ owned t' = None ∧
        h' = store h eptr (RadixElement_node n)
  | EvSplitCasFail => ∃ n, owned t = Some n ∧ owned t' = None ∧ h' = free_node h n
  | EvLeafCasOk =>
      owned t = None ∧ owned t' = None ∧
      ∃ eptr v, h' = store h eptr (RadixElement_leaf v)
  | _ => owned t = None ∧ owned t' = None ∧ h' = h
  end.
Proof.
  destruct t as [key value eptr level pc|key value r|key level pc|key r];
    cbn [thread_step]; [| done | | done].
  - destruct pc as [|e|e|e n]; cbn [insert_step];
      unfold descend, compare_exchange_strong;
      repeat case_match; intros Heq; simplify_eq; cbn; eauto 10.
  - destruct pc as [|e]; cbn [get_step]; unfold descend;
      repeat case_match; intros Heq; simplify_eq; cbn; eauto.
Qed.

Lemma sys_step_no_garbage σ l σ' :
  sys_inv σ → no_garbage σ → sys_step σ l σ' → no_garbage σ'.
Proof.
  intros Hinv Hng Hstep. destruct Hstep as [i a t ev h' t' Hi Hstep].
  pose proof (sys_heap _ Hinv) as Hheap.
  pose proof (sys_threads _ Hinv _ _ Hi) as Ht.
  pose proof (thread_step_ok a _ _ Hheap Ht) as Hok.
  rewrite Hstep in Hok. destruct Hok as (c & Hc & Hh' & _).
  pose proof (change_heap_le _ _ Hheap Hc) as Hle. rewrite <- Hh' in Hle.
  pose proof (thread_step_heap _ _ _ _ _ _ Hstep) as Hshape.
  apply lookup_lt_Some in Hi as Hlt. clear Hh' Hstep.
  assert (∀ n, referenced (heap σ) n → referenced h' n) as Href.
  { intros n (k & ref & d & Hp & Hl & Hn). exists k, ref, d.
    split_and!; [by apply (le_path _ _ Hle)|by eapply (le_node _ _ Hle)|done]. }
  assert (∀ n, is_Some (nodes (heap σ) !! n) → owned t ≠ Some n →
            referenced h' n ∨
            ∃ j tj, <[i := t']> (threads σ) !! j = Some tj ∧ owned tj = Some n)
    as Hold.
  { intros n Hn Hne. destruct (Hng n Hn) as [Hr|(j & tj & Hj & Ho)];
      [left; by apply Href|right].
    exists j, tj. split; [|done]. rewrite list_lookup_insert_ne; [done|].
    intros ->. rewrite Hi in Hj. injection Hj as ->. done. }
  intros n Hn. cbn [heap threads] in *.
  destruct ev;
    try (destruct Hshape as (Ho & Ho' & ->); apply Hold; [done|congruence]).
  - (* EvAlloc *)
    destruct Hshape as (Ho & Ho' & cs & ->). cbn in Hn.
    destruct (decide (n = a)) as [->|Hne].
    + right. exists i, t'. split; [by apply list_lookup_insert_eq|done].
    + rewrite lookup_insert_ne in Hn by done. apply Hold; [done|congruence].
  - (* EvLeafCasOk *)
    destruct Hshape as (Ho & Ho' & eptr & v & ->).
    apply nodes_store_is_Some in Hn. apply Hold; [done|congruence].
  - (* EvSplitCasOk *)
    destruct Hshape as (key & v & eptr & level & e & n0 & -> & Ho' & ->).
    apply nodes_store_is_Some in Hn.
    destruct (decide (n = n0)) as [->|Hne].
    + left. destruct Ht as (_ & _ & d & Hp & _ & Hpc).
      destruct Hpc as (p & cs & _ & _ & _ & _ & Hvn & _).
      exists key, eptr, d.
      split_and!; [by apply (le_path _ _ Hle)| |by apply isNode_valid].
      apply load_store_eq. by eapply on_path_load.
    + apply Hold; [done|]. cbn. congruence.
  - (* EvSplitCasFail *)
    destruct Hshape as (n0 & Ho & Ho' & ->). cbn in Hn.
    destruct (decide (n = n0)) as [->|Hne].
    + rewrite lookup_delete_eq in Hn. by destruct Hn.
    + rewrite lookup_delete_ne in Hn by done. apply Hold; [done|congruence].
Qed.

Lemma exec_no_garbage σ tr σ' :
  sys_inv σ → no_garbage σ → exec σ tr σ' → no_garbage σ'.
Proof.
  intros Hinv Hng. induction 1 as [|σ1 σ2 σ3 tr l Hex IH Hstep]; [done|].
  eapply sys_step_no_garbage; [by eapply exec_inv|by apply IH|done].
Qed.

(** X10: no node is lost.  In every state reached from the empty tree, each
    allocated node is referred to by a slot of the tree, or is in the hands
    of an [insert] that has allocated it and is about to publish or release
    it; a node is never in both places, nor in the hands of two calls; so
    once all calls have returned, every allocated node is part of the tree:
    the node of a lost race has been released. *)
Theorem no_node_lost (σ : System) (n : Z) :
  reachable σ → is_Some (nodes (heap σ) !! n) →
  (referenced (heap σ) n ∨
   ∃ i key v eptr level e,
     threads σ !! i = Some (Insert key v eptr level (InsCas e n))) ∧
  (∀ i j ti tj,
     threads σ !! i = Some ti → threads σ !! j = Some tj →
     owned ti = Some n → owned tj = Some n → i = j) ∧
  (∀ i t, threads σ !! i = Some t → owned t = Some n →
          ¬ referenced (heap σ) n) ∧
  ((∀ i t, threads σ !! i = Some t → returned t = true) →
   referenced (heap σ) n).
Proof.
  intros Hreach Hn. pose proof (reachable_inv _ Hreach) as Hinv.
  destruct Hreach as (ts & tr & Hts & Hex).
  assert (no_garbage σ) as Hng.
  { eapply exec_no_garbage; [|..|done].
    - apply initial_inv; [apply empty_tree_inv|done].
    - intros m Hm. cbn in Hm. rewrite lookup_empty in Hm. by destruct Hm. }
  assert (∀ t, owned t = Some n →
            ∃ key v eptr level e, t = Insert key v eptr level (InsCas e n))
    as Hown.
  { intros t Ho. destruct t as [key v eptr level [|e|e|e m]| | |]; try done.
    injection Ho as ->. by eauto 10. }
  split_and!.
  - destruct (Hng n Hn) as [Hr|(i & t & Hi & Ho)]; [by left|right].
    destruct (Hown _ Ho) as (key & v & eptr & level & e & ->).
    by exists i, key, v, eptr, level, e.
  - intros i j ti tj. apply (sys_owned _ Hinv).
  - intros i t Hi Ho (k & ref & d & Hp & Hl & _).
    destruct (thread_inv_owned _ _ _ (sys_threads _ Hinv _ _ Hi) Ho) as (Hun & _).
    by apply (Hun k ref d Hp).
  - intros Hall. destruct (Hng n Hn) as [Hr|(i & t & Hi & Ho)]; [done|].
    specialize (Hall _ _ Hi). by destruct (Hown _ Ho) as (? & ? & ? & ? & ? & ->).
Qed.

(** ** Sequences of insertions *)

Lemma first_with_id_cons k v vs :
  first_with_id k (v :: vs) = if getId v =? k then v else first_with_id k vs.
Proof. unfold first_with_id. cbn [List.filter]. by destruct (getId v =? k). Qed.

Lemma first_with_id_in vs v :
  NoDup (getId <$> vs) → v ∈ vs → first_with_id (getId v) vs = v.
Proof.
  induction vs as [|u vs IH]; [by intros _ ?%elem_of_nil|].
  rewrite fmap_cons, NoDup_cons. intros [Hnin Hnd] Hin.
  rewrite first_with_id_cons. apply elem_of_cons in Hin as [->|Hin].
  - by rewrite Z.eqb_refl.
  - destruct (Z.eqb_spec (getId u) (getId v)) as [Heq|_]; [|by apply IH].
    destruct Hnin. rewrite Heq. by apply list_elem_of_fmap_2.
Qed.

Lemma first_with_id_notin vs k : k ∉ getId <$> vs → first_with_id k vs = 0.
Proof.
  induction vs as [|u vs IH]; [done|].
  rewrite fmap_cons, not_elem_of_cons. intros [Hne Hnin].
  rewrite first_with_id_cons. destruct (Z.eqb_spec (getId u) k); [done|].
  by apply IH.
Qed.

Lemma first_with_id_perm vs vs' k :
  NoDup (getId <$> vs) → vs ≡ₚ vs' →
  first_with_id k vs = first_with_id k vs'.
Proof.
  intros Hnd Hperm. destruct (decide (k ∈ getId <$> vs)) as [Hin|Hnin].
  - apply list_elem_of_fmap in Hin as (v & -> & Hin).
    rewrite (first_with_id_in vs) by done.
    symmetry. apply first_with_id_in; by rewrite <- Hperm.
  - rewrite (first_with_id_notin vs) by done.
    symmetry. apply first_with_id_notin. by rewrite <- Hperm.
Qed.

Lemma insert_all_first vs : ∀ h,
  heap_inv h → Forall (λ v, valid_ptr v = true) vs →
  ∃ h', insert_all h vs = Some h' ∧ heap_inv h' ∧
        ∀ k r, found h k r →
               found h' k (if r =? 0 then first_with_id k vs else r).
Proof.
  induction vs as [|v vs IH]; intros h Hinv Hvs.
  - exists h. split_and!; [done..|]. intros k r Hf.
    by destruct (Z.eqb_spec r 0) as [->|].
  - apply Forall_cons in Hvs as [Hv Hvs].
    destruct (RadixTree_insert_post h v Hinv Hv) as (b & h1 & Hins & Hinv1 & Hb).
    destruct (IH h1 Hinv1 Hvs) as (h' & Hall & Hinv' & Hfound).
    exists h'. split_and!; [by cbn; rewrite Hins|done|].
    intros k r Hf. rewrite first_with_id_cons.
    assert (v ≠ 0) as Hv0 by (apply valid_ptr_spec in Hv as [? _]; lia).
    destruct b.
    + destruct Hb as (Habs & Hnew & Hother).
      destruct (Z.eqb_spec (getId v) k) as [<-|Hne].
      * rewrite (found_det _ _ _ _ Hf Habs). cbn [Z.eqb].
        specialize (Hfound _ _ Hnew). by destruct (Z.eqb_spec v 0).
      * apply Hfound. apply Hother; [congruence|done].
    + destruct Hb as (-> & p & Hp0 & Hfp).
      destruct (Z.eqb_spec (getId v) k) as [<-|Hne]; [|by apply Hfound].
      rewrite (found_det _ _ _ _ Hf Hfp). specialize (Hfound _ _ Hfp).
      by destruct (Z.eqb_spec p 0).
Qed.

(** X11: inserting a list of values, one after the other, into a tree built
    by insertions always succeeds as a sequence, and afterwards [get(k)]
    returns what it returned before if that was not null, and otherwise the
    first value of the list whose id is [k], or null if the list has none:
    a later value with the id of an earlier one is not inserted. *)
Theorem insert_all_first_wins (h : Heap) (vs : list Z) (k : Z) :
  built_by_inserts h → Forall (λ v, valid_ptr v = true) vs →
  ∃ h' r,
    insert_all h vs = Some h' ∧ RadixTree_get h k = Some r ∧
    RadixTree_get h' k = Some (if r =? 0 then first_with_id k vs else r).
Proof.
  intros Hinv%built_by_inserts_inv Hvs.
  destruct (insert_all_first vs h Hinv Hvs) as (h' & Hall & Hinv' & Hfound).
  destruct (RadixTree_get_found h k Hinv) as (r & Hget & Hf).
  exists h', r. split_and!; [done..|].
  apply RadixTree_get_iff; [done|]. by apply Hfound.
Qed.

(** X12: the order of insertions of values with pairwise different ids does
    not matter: inserting the values of a list, or of any permutation of it,
    into the same tree gives two trees on which every [get] returns the same
    result. *)
Theorem insert_order_irrelevant (h : Heap) (vs vs' : list Z) :
  built_by_inserts h → Forall (λ v, valid_ptr v = true) vs →
  NoDup (getId <$> vs) → vs ≡ₚ vs' →
  ∃ h1 h2,
    insert_all h vs = Some h1 ∧ insert_all h vs' = Some h2 ∧
    ∀ k, RadixTree_get h1 k = RadixTree_get h2 k.
Proof.
  intros Hinv%built_by_inserts_inv Hvs Hnd Hperm.
  assert (Forall (λ v, valid_ptr v = true) vs') as Hvs' by (by rewrite <- Hperm).
  destruct (insert_all_first vs h Hinv Hvs) as (h1 & Hall1 & Hinv1 & Hf1).
  destruct (insert_all_first vs' h Hinv Hvs') as (h2 & Hall2 & Hinv2 & Hf2).
  exists h1, h2. split_and!; [done..|]. intros k.
  destruct (found_total h k Hinv) as [r Hr].
  specialize (Hf1 _ _ Hr). specialize (Hf2 _ _ Hr).
  rewrite <- (first_with_id_perm vs vs' k Hnd Hperm) in Hf2.
  apply RadixTree_get_iff in Hf1; [|done]. apply RadixTree_get_iff in Hf2; [|done].
  congruence.
Qed.


(** ** Results of concurrent calls against the tree at their start and end *)

Lemma exec_get_sees σ tr σ' j v t :
  sys_inv σ → holds (heap σ) v →
  threads σ !! j = Some t → get_sees v t → exec σ tr σ' →
  ∃ t', threads σ' !! j = Some t' ∧ get_sees v t'.
Proof.
  intros Hinv Hh Hj Hsees Hex.
  induction Hex as [|σ1 σ2 σ3 tr l Hex IH Hstep]; [by exists t|].
  destruct (IH Hinv Hh Hj) as (t2 & Ht2 & Hs2).
  eapply sys_step_get_sees; [by eapply exec_inv| |done..].
  by apply (le_holds _ _ (exec_heap_le _ _ _ Hinv Hex)).
Qed.

Lemma exec_insert_true σ tr σ' i k v :
  sys_inv σ → threads σ !! i = Some (insert_call v) → exec σ tr σ' →
  threads σ' !! i = Some (InsertRet k v true) → found (heap σ) k 0.
Proof.
  intros Hinv Hi Hex.
  induction Hex as [|σ1 σ2 σ3 tr l Hex IH Hstep];
    [unfold insert_call in Hi; congruence|].
  specialize (IH Hinv Hi).
  pose proof (exec_inv _ _ _ Hinv Hex) as Hinv2.
  destruct Hstep as [j a t ev h' t' Hj Hstep]. cbn [threads].
  apply lookup_lt_Some in Hj as Hlt.
  destruct (decide (i = j)) as [->|Hne].
  2: { by rewrite list_lookup_insert_ne. }
  rewrite list_lookup_insert_eq by done. intros [= ->].
  pose proof (thread_step_ok a _ _ (sys_heap _ Hinv2) (sys_threads _ Hinv2 _ _ Hj))
    as Hok.
  rewrite Hstep in Hok.
  destruct Hok as (c & Hc & _ & _ & _ & _ & He1 & He2 & _).
  pose proof (He2 _ _ eq_refl) as Hcv.
  destruct c as [| | |ref v'|]; try done. injection Hcv as ->.
  destruct (He1 v eq_refl) as [_ [= ->]].
  destruct (change_found_new _ _ _ (sys_heap _ Hinv2) Hc) as [Habs _].
  destruct (found_total (heap σ1) (getId v) (sys_heap _ Hinv)) as [r0 Hr0].
  destruct (decide (r0 = 0)) as [->|Hr]; [done|].
  destruct (found_holds _ _ _ (sys_heap _ Hinv) Hr0 Hr) as [Hh Hid].
  apply (le_holds _ _ (exec_heap_le _ _ _ Hinv Hex)), holds_found in Hh.
  rewrite Hid in Hh. by rewrite (found_det _ _ _ _ Hh Habs) in Hr.
Qed.

(** X14: what a [get] returns while other calls run is what a [get] on the
    tree returns either when the call starts or when it has returned.  If
    the key is in the tree when the call starts, the call returns its value,
    which the tree still holds at the end; otherwise it returns null or the
    value that the tree holds for the key at the end. *)
Theorem get_linearizable (σ σ' : System) (tr : list (nat * Event)) (j : nat)
    (key r : Z) :
  reachable σ → threads σ !! j = Some (get_call key) →
  exec σ tr σ' → threads σ' !! j = Some (GetRet key r) →
  ∃ r0 r1,
    RadixTree_get (heap σ) key = Some r0 ∧
    RadixTree_get (heap σ') key = Some r1 ∧
    (r = r0 ∨ r = r1) ∧ (r0 ≠ 0 → r = r0 ∧ r1 = r0).
Proof.
  intros Hinv%reachable_inv Hj Hex Hret.
  pose proof (exec_inv _ _ _ Hinv Hex) as Hinv'.
  destruct (found_total (heap σ) key (sys_heap _ Hinv)) as [r0 Hr0].
  destruct (found_total (heap σ') key (sys_heap _ Hinv')) as [r1 Hr1].
  exists r0, r1.
  split; [by apply RadixTree_get_iff; [apply Hinv|]|].
  split; [by apply RadixTree_get_iff; [apply Hinv'|]|].
  assert (r0 ≠ 0 → r = r0 ∧ r1 = r0) as Hpresent.
  { intros Hne. destruct (found_holds _ _ _ (sys_heap _ Hinv) Hr0 Hne) as [Hh Hid].
    destruct (exec_get_sees _ _ _ j r0 _ Hinv Hh Hj ltac:(by cbn) Hex)
      as (t' & Ht' & Hsees).
    rewrite Hret in Ht'. injection Ht' as <-. destruct Hsees as [_ ->].
    split; [done|].
    apply (le_holds _ _ (exec_heap_le _ _ _ Hinv Hex)), holds_found in Hh.
    rewrite Hid in Hh. by apply (found_det _ _ _ _ Hr1 Hh). }
  split; [|done].
  destruct (decide (r0 = 0)) as [->|Hne]; [|left; by apply Hpresent].
  destruct (sys_threads _ Hinv' _ _ Hret) as [->|[Hh Hid]]; [by left|right].
  apply holds_found in Hh. rewrite Hid in Hh. by apply (found_det _ _ _ _ Hh Hr1).
Qed.

(** X15: what an [insert] returns while other calls run agrees with the
    tree at its start or at its end.  If it returns true, the key was not in
    the tree when the call started and a [get] of the key on the tree at the
    end returns the value inserted; if it returns false, a [get] of the key
    on the tree at the end returns a value that is not null. *)
Theorem insert_linearizable (σ σ' : System) (tr : list (nat * Event))
    (i : nat) (k v : Z) (b : bool) :
  reachable σ → threads σ !! i = Some (insert_call v) →
  exec σ tr σ' → threads σ' !! i = Some (InsertRet k v b) →
  k = getId v ∧
  if b
  then RadixTree_get (heap σ) k = Some 0 ∧ RadixTree_get (heap σ') k = Some v
  else ∃ p, p ≠ 0 ∧ getId p = k ∧ RadixTree_get (heap σ') k = Some p.
Proof.
  intros Hinv%reachable_inv Hi Hex Hret.
  pose proof (exec_inv _ _ _ Hinv Hex) as Hinv'.
  destruct (sys_threads _ Hinv' _ _ Hret) as (Hv & Hid & Hb).
  split; [done|]. destruct b.
  - split.
    + apply RadixTree_get_iff; [apply Hinv|]. by eapply exec_insert_true.
    + apply RadixTree_get_iff; [apply Hinv'|]. rewrite <- Hid.
      by apply holds_found.
  - destruct Hb as (p & Hh & Hp). exists p.
    split_and!; [by eapply holds_nonnull|done|].
    apply RadixTree_get_iff; [apply Hinv'|]. rewrite <- Hp. by apply holds_found.
Qed.

(** ** The steps of an insertion *)

Lemma count_events_le f evs : (count_events f evs ≤ length evs)%nat.
Proof.
  unfold count_events. induction evs as [|ev evs IH]; cbn; [done|].
  destruct (f ev); cbn; lia.
Qed.

Lemma run_length fuel : ∀ h t evs h' t',
  run fuel h t = Some (evs, h', t') → (length evs ≤ fuel)%nat.
Proof.
  induction fuel as [|fuel IH]; intros h t evs h' t'; cbn.
  - destruct (returned t); [|done]. intros [= <- _ _]. done.
  - destruct (returned t); [intros [= <- _ _]; cbn; lia|].
    destruct (thread_step (fresh_addr h) h t) as [ev h1 t1| |]; [|done..].
    destruct (run fuel h1 t1) as [[[evs1 h2] t2]|] eqn:Hr; [|done].
    intros [= <- _ _]. apply IH in Hr. cbn. lia.
Qed.

(** C8: an insertion makes at most [KEY_BITS / BITS] moves of its cursor to
    a child slot, and at most [6 * (KEY_BITS / BITS + 1)] steps in all, its
    loads and CAS of slots among them, in any execution and whatever the
    number of its failed CAS; on a quiescent tree [insert] and [get] return,
    without any failed CAS, within these bounds and after at most
    [TOP_LEVEL + 1] descents, since two different keys differ in some
    chunk. *)
Theorem insert_step_bound (ts : list Thread) (tr : list (nat * Event))
    (σ : System) (i : nat) (h : Heap) (v key : Z) :
  Forall is_call ts → exec (mkSystem empty_tree ts) tr σ →
  built_by_inserts h → valid_ptr v = true →
  (let evs := events_of i tr in
   Z.of_nat (count_events is_descend evs) ≤ KEY_BITS / BITS ∧
   Z.of_nat (count_events is_descend evs) ≤ TOP_LEVEL + 1 ∧
   Z.of_nat (count_events is_slot_access evs) ≤ 6 * (KEY_BITS / BITS + 1) ∧
   Z.of_nat (length evs) ≤ 6 * (KEY_BITS / BITS + 1)) ∧
  (∃ evs h' b,
     run insert_fuel h (insert_call v) = Some (evs, h', InsertRet (getId v) v b) ∧
     RadixTree_insert h v = Some (b, h') ∧
     count_events is_cas_fail evs = 0%nat ∧
     Z.of_nat (count_events is_descend evs) ≤ TOP_LEVEL + 1 ∧
     Z.of_nat (length evs) ≤ 6 * (KEY_BITS / BITS + 1)) ∧
  (∃ evs r,
     run get_fuel h (get_call key) = Some (evs, h, GetRet key r) ∧
     RadixTree_get h key = Some r ∧
     count_events is_cas_fail evs = 0%nat ∧
     Z.of_nat (count_events is_descend evs) ≤ TOP_LEVEL + 1 ∧
     Z.of_nat (length evs) ≤ TOP_LEVEL + 3) ∧
  (∀ k1 k2, is_key k1 → is_key k2 → k1 ≠ k2 →
     ∃ L, 0 ≤ L ≤ TOP_LEVEL ∧ child_index L k1 ≠ child_index L k2).
Proof.
  intros Hts Hex Hh%built_by_inserts_inv Hv.
  pose proof top_TOP_LEVEL as Htop. pose proof S_top_levels as Hlev.
  split_and!.
  - assert (sys_inv (mkSystem empty_tree ts)) as Hinv
      by (apply initial_inv; [apply empty_tree_inv|done]).
    pose proof (exec_depth_inv _ _ _ Hinv Hts Hex) as Hdepth.
    pose proof (exec_budget _ _ _ Hinv Hts Hex) as Hbudget.
    pose proof (count_events_le is_slot_access (events_of i tr)) as Hacc.
    destruct (threads σ !! i) as [t|] eqn:Hi.
    + destruct (Hdepth _ _ Hi) as [Hc _]. destruct (Hbudget _ _ Hi) as [_ Hb].
      assert (call_fuel t ≤ insert_fuel)%nat as Hfuel
        by (destruct t; cbn [call_fuel]; unfold insert_fuel, get_fuel; lia).
      unfold insert_fuel in Hfuel. cbn zeta. lia.
    + rewrite (exec_no_thread _ _ _ _ Hex Hi) in *. cbn. lia.
  - destruct (run_insert h v Hh Hv) as (evs & h' & b & Hrun & _ & Hc & Hf & _).
    pose proof (run_length _ _ _ _ _ _ Hrun) as Hlen. unfold insert_fuel in Hlen.
    exists evs, h', b. split_and!; [done| |done|lia|lia].
    unfold RadixTree_insert. by rewrite Hrun.
  - destruct (run_get h key Hh) as (evs & r & Hrun & Hc & Hcf & _).
    pose proof (run_length _ _ _ _ _ _ Hrun) as Hlen. unfold get_fuel in Hlen.
    exists evs, r. split_and!; [done| |done|lia|lia].
    unfold RadixTree_get. by rewrite Hrun.
  - intros k1 k2 Hk1 Hk2 Hne.
    destruct (agree_upto_dec (S top) k1 k2) as [Hall|(j & Hj & Hneq)].
    + by destruct Hne; apply agree_upto_all.
    + exists (level_at j). rewrite level_at_small in * by lia.
      split; [lia|done].
Qed.

(** ** Schedules *)

Lemma exec_cons σ l σ1 tr σ2 :
  sys_step σ l σ1 → exec σ1 tr σ2 → exec σ (l :: tr) σ2.
Proof.
  intros Hstep Hex. apply (exec_trans σ σ1 σ2 [l] tr); [|done].
  by apply (exec_snoc _ _ _ [] l (exec_nil _)).
Qed.

Lemma run_schedule_exec s : ∀ σ tr σ',
  run_schedule s σ = Some (tr, σ') → exec σ tr σ'.
Proof.
  induction s as [|[i a] s IH]; intros σ tr σ'; cbn.
  - intros [= <- <-]. constructor.
  - destruct (threads σ !! i) as [t|] eqn:Hi; [|done].
    destruct (thread_step a (heap σ) t) as [ev h' t'| |] eqn:Hs; [|done..].
    destruct (run_schedule s _) as [[tr1 σ1]|] eqn:Hr; [|done].
    intros [= <- <-]. eapply exec_cons; [by econstructor|]. by apply IH.
Qed.

Lemma run_schedule_snoc s i a : ∀ σ tr σ1 tr' σ2,
  run_schedule s σ = Some (tr, σ1) →
  run_schedule (s ++ [(i, a)]) σ = Some (tr', σ2) →
  ∃ ev, tr' = tr ++ [(i, ev)] ∧ sys_step σ1 (i, ev) σ2.
Proof.
  induction s as [|[j b] s IH]; intros σ tr σ1 tr' σ2; cbn.
  - intros [= <- <-].
    destruct (threads σ !! i) as [t|] eqn:Hi; [|done].
    destruct (thread_step a (heap σ) t) as [ev h' t'| |] eqn:Hs; [|done..].
    intros [= <- <-]. exists ev. split; [done|]. by econstructor.
  - destruct (threads σ !! j) as [t|] eqn:Hj; [|done].
    destruct (thread_step b (heap σ) t) as [ev h' t'| |] eqn:Hs; [|done..].
    destruct (run_schedule s _) as [[tr1 σ3]|] eqn:Hr1; [|done].
    intros [= <- <-].
    destruct (run_schedule (s ++ [(i, a)]) _) as [[tr2 σ4]|] eqn:Hr2; [|done].
    intros [= <- <-].
    destruct (IH _ _ _ _ _ Hr1 Hr2) as (ev' & -> & Hstep).
    exists ev'. done.
Qed.

End RadixTree.

(** * A concrete instance: one-byte ids

    The object at address [p] carries the id [(p / 2) mod 256], so the key
    has two chunks and [TOP_LEVEL = 1]. *)

Definition id8 (p : Z) : Z := (p / 2) mod 256.

Lemma id8_range p : is_key 1 (id8 p).
Proof.
  unfold is_key, id8. change (2 ^ KEY_BITS 1) with 256.
  apply Z.mod_pos_bound. lia.
Qed.

Lemma sizeof_1_pos : 0 < 1.
Proof. lia. Qed.

Lemma sizeof_1_small : 1 < 2 ^ 28.
Proof. reflexivity. Qed.

(** The tree built by inserting [vs] into the empty tree. *)
Definition demo_tree (vs : list Z) : Heap :=
  match insert_all 1 id8 empty_tree vs with
  | Some h => h
  | None => empty_tree
  end.

(** The state and the trace of the calls [ts] started on [h0] and run
    according to schedule [s]. *)
Definition demo_state (h0 : Heap) (ts : list Thread) (s : list (nat * Z))
    : System :=
  match run_schedule 1 id8 s (mkSystem h0 ts) with
  | Some (_, σ) => σ
  | None => mkSystem h0 ts
  end.

Definition demo_trace (h0 : Heap) (ts : list Thread) (s : list (nat * Z))
    : list (nat * Event) :=
  match run_schedule 1 id8 s (mkSystem h0 ts) with
  | Some (tr, _) => tr
  | None => []
  end.

Lemma demo_tree_built vs :
  Forall (λ v, valid_ptr v = true) vs → built_by_inserts 1 id8 (demo_tree vs).
Proof.
  intros Hvs. exists vs. split; [done|]. unfold demo_tree.
  destruct (insert_all_inv 1 id8 sizeof_1_pos sizeof_1_small id8_range vs
              empty_tree (empty_tree_inv 1 id8) Hvs) as (h & -> & _).
  done.
Qed.

Lemma demo_exec h0 ts s :
  exec 1 id8 (mkSystem h0 ts) (demo_trace h0 ts s) (demo_state h0 ts s).
Proof.
  unfold demo_trace, demo_state.
  destruct (run_schedule 1 id8 s (mkSystem h0 ts)) as [[tr σ]|] eqn:Hr.
  - by apply (run_schedule_exec 1 id8 s).
  - constructor.
Qed.

Lemma demo_reachable ts s :
  Forall (is_call 1 id8) ts → reachable 1 id8 (demo_state empty_tree ts s).
Proof. intros Hts. exists ts, (demo_trace empty_tree ts s). split; [done|apply demo_exec]. Qed.

Lemma demo_calls vs :
  Forall (λ v, valid_ptr v = true) vs →
  Forall (is_call 1 id8) (insert_call 1 id8 <$> vs).
Proof.
  intros Hvs. apply Forall_fmap. eapply Forall_impl; [done|].
  intros v Hv. left. by exists v.
Qed.

(** Two insertions with different ids, and two insertions with the same id. *)
Definition demo_split_calls : list Thread := insert_call 1 id8 <$> [32; 514].
Definition demo_race_calls : list Thread := insert_call 1 id8 <$> [1026; 514].

(** Thread 0 inserts its value; thread 1 then finds that leaf in the root
    slot, allocates a node at address 100, publishes it, descends and inserts
    its own value. *)
Definition demo_split_schedule (n : nat) : list (nat * Z) :=
  take n [(0%nat, 0); (0%nat, 0); (1%nat, 0); (1%nat, 0); (1%nat, 100);
          (1%nat, 0); (1%nat, 0); (1%nat, 0); (1%nat, 0)].

(** Both threads load the empty root; thread 0 wins the CAS, thread 1 loses
    it, observes the leaf and returns false. *)
Definition demo_race_schedule (n : nat) : list (nat * Z) :=
  take n [(0%nat, 0); (1%nat, 0); (0%nat, 0); (1%nat, 0); (1%nat, 0)].

Lemma demo_split_calls_ok : Forall (is_call 1 id8) demo_split_calls.
Proof. apply demo_calls. repeat constructor. Qed.

Lemma demo_race_calls_ok : Forall (is_call 1 id8) demo_race_calls.
Proof. apply demo_calls. repeat constructor. Qed.

Lemma demo_step h0 ts s i a ev :
  is_Some (run_schedule 1 id8 s (mkSystem h0 ts)) →
  demo_trace h0 ts (s ++ [(i, a)]) = demo_trace h0 ts s ++ [(i, ev)] →
  sys_step 1 id8 (demo_state h0 ts s) (i, ev) (demo_state h0 ts (s ++ [(i, a)])).
Proof.
  unfold demo_trace, demo_state. intros [[tr σ1] Hr1]. rewrite Hr1.
  destruct (run_schedule 1 id8 (s ++ [(i, a)]) (mkSystem h0 ts))
    as [[tr' σ2]|] eqn:Hr2.
  - destruct (run_schedule_snoc 1 id8 _ _ _ _ _ _ _ _ Hr1 Hr2) as (ev' & -> & Hstep).
    intros Heq. apply app_inv_head in Heq. by injection Heq as <-.
  - intros Heq. by destruct tr.
Qed.

(** ** The claims at concrete inputs *)

Lemma RadixElement_encoding_witness :
  Z.even 1000 = true ∧ Z.even 2000 = true ∧
  RadixElement_leaf 1000 = 1000 + 1 ∧
  getLeaf (RadixElement_leaf 1000) = Some 1000 ∧
  getNode (RadixElement_leaf 1000) = None ∧
  getNode (RadixElement_node 2000) = Some 2000 ∧
  getLeaf (RadixElement_node 2000) = None.
Proof.
  pose proof (RadixElement_encoding 1000 2000 1001 eq_refl eq_refl)
    as ((_ & H1 & _) & _ & (_ & _ & H2 & H3 & _) & (_ & _ & H4 & H5) & _).
  split; [reflexivity|]. split; [reflexivity|].
  split; [exact H1|]. split; [exact H2|]. split; [exact H3|].
  split; [exact H4|exact H5].
Defined.

Lemma child_slot_index_witness :
  0 ≤ 1 ≤ TOP_LEVEL 1 ∧ isNode 2 = true ∧
  nodes (demo_tree [32; 34]) !! 2
    = Some [1; 6; 1; 1; 1; 1; 1; 1; 1; 1; 1; 1; 1; 1; 1; 1] ∧
  length [1; 6; 1; 1; 1; 1; 1; 1; 1; 1; 1; 1; 1; 1; 1; 1] = CHILD_PER_LEVEL ∧
  RadixNode_get 1 1 17 = Some 1%nat ∧
  ∃ e, descend 1 (demo_tree [32; 34]) 2 1 17 = Some (ChildSlot 2 1, level_dec 1, e).
Proof.
  assert (0 ≤ 1 ≤ TOP_LEVEL 1) as H1 by (vm_compute; split; discriminate).
  assert (isNode 2 = true) as H2 by reflexivity.
  assert (nodes (demo_tree [32; 34]) !! 2
            = Some [1; 6; 1; 1; 1; 1; 1; 1; 1; 1; 1; 1; 1; 1; 1; 1]) as H3
    by (vm_compute; reflexivity).
  assert (length [1; 6; 1; 1; 1; 1; 1; 1; 1; 1; 1; 1; 1; 1; 1; 1] = CHILD_PER_LEVEL)
    as H4 by reflexivity.
  pose proof (child_slot_index 1 sizeof_1_pos sizeof_1_small
                (demo_tree [32; 34]) 2 17 1 _ H1 H2 H3 H4)
    as (_ & _ & _ & _ & _ & _ & _ & H5 & e & _ & H6).
  split; [exact H1|]. split; [exact H2|]. split; [exact H3|].
  split; [exact H4|]. split; [exact H5|]. exists e. exact H6.
Defined.

Lemma insert_all_get_witness :
  Forall (λ v, valid_ptr v = true) [32; 34; 514] ∧
  NoDup (id8 <$> [32; 34; 514]) ∧
  ∃ h, insert_all 1 id8 empty_tree [32; 34; 514] = Some h ∧
       RadixTree_get 1 id8 h (id8 34) = Some 34 ∧
       RadixTree_get 1 id8 h 2 = Some 0.
Proof.
  assert (Forall (λ v, valid_ptr v = true) [32; 34; 514]) as Hv
    by (repeat constructor).
  assert (NoDup (id8 <$> [32; 34; 514])) as Hnd
    by (refine (bool_decide_unpack (NoDup (id8 <$> [32; 34; 514])) _);
        vm_compute; exact I).
  destruct (insert_all_get 1 id8 sizeof_1_pos sizeof_1_small id8_range
              [32; 34; 514] Hv Hnd) as (h & Hall & Hin & Hout & _).
  split; [exact Hv|]. split; [exact Hnd|]. exists h.
  split; [exact Hall|]. split.
  - apply Hin. apply list_elem_of_In. vm_compute. tauto.
  - apply Hout. intros Hk%list_elem_of_In. vm_compute in Hk.
    destruct Hk as [Hk|[Hk|[Hk|[]]]]; discriminate Hk.
Defined.

Lemma insert_false_iff_present_witness :
  built_by_inserts 1 id8 (demo_tree [32]) ∧ valid_ptr 32 = true ∧
  ∃ b h', RadixTree_insert 1 id8 (demo_tree [32]) 32 = Some (b, h') ∧
          (b = false ↔
           ∃ v', In v' (reachable_leaves 1 (demo_tree [32])) ∧ id8 v' = id8 32) ∧
          (b = false →
           h' = demo_tree [32] ∧
           reachable_leaves 1 h' = reachable_leaves 1 (demo_tree [32])).
Proof.
  assert (built_by_inserts 1 id8 (demo_tree [32])) as Hb
    by (apply demo_tree_built; repeat constructor).
  split; [exact Hb|]. split; [reflexivity|].
  exact (insert_false_iff_present 1 id8 sizeof_1_pos sizeof_1_small id8_range
           (demo_tree [32]) 32 Hb eq_refl).
Defined.

Lemma insert_true_get_witness :
  built_by_inserts 1 id8 (demo_tree [32]) ∧ valid_ptr 514 = true ∧
  RadixTree_insert 1 id8 (demo_tree [32]) 514 = Some (true, demo_tree [32; 514]) ∧
  RadixTree_get 1 id8 (demo_tree [32; 514]) (id8 514) = Some 514.
Proof.
  assert (built_by_inserts 1 id8 (demo_tree [32])) as Hb
    by (apply demo_tree_built; repeat constructor).
  assert (RadixTree_insert 1 id8 (demo_tree [32]) 514
            = Some (true, demo_tree [32; 514])) as Hins
    by (vm_compute; reflexivity).
  split; [exact Hb|]. split; [reflexivity|]. split; [exact Hins|].
  exact (insert_true_get 1 id8 sizeof_1_pos sizeof_1_small id8_range
           (demo_tree [32]) (demo_tree [32; 514]) 514 Hb eq_refl Hins).
Defined.

Lemma slots_only_grow_witness :
  reachable 1 id8 (demo_state empty_tree demo_split_calls []) ∧
  exec 1 id8 (demo_state empty_tree demo_split_calls [])
    (demo_trace empty_tree demo_split_calls (demo_split_schedule 5))
    (demo_state empty_tree demo_split_calls (demo_split_schedule 5)) ∧
  sys_step 1 id8
    (demo_state empty_tree demo_split_calls (demo_split_schedule 5))
    (1%nat, EvSplitCasOk)
    (demo_state empty_tree demo_split_calls (demo_split_schedule 6)) ∧
  slot_transition (RadixElement_leaf 32) (RadixElement_node 100) ∧
  (length (reachable_leaves 1
             (heap (demo_state empty_tree demo_split_calls (demo_split_schedule 5))))
   ≤ length (reachable_leaves 1
               (heap (demo_state empty_tree demo_split_calls (demo_split_schedule 6)))))%nat.
Proof.
  assert (reachable 1 id8 (demo_state empty_tree demo_split_calls [])) as Hreach
    by (apply demo_reachable, demo_split_calls_ok).
  assert (exec 1 id8 (demo_state empty_tree demo_split_calls [])
            (demo_trace empty_tree demo_split_calls (demo_split_schedule 5))
            (demo_state empty_tree demo_split_calls (demo_split_schedule 5))) as Hex
    by exact (demo_exec empty_tree demo_split_calls (demo_split_schedule 5)).
  assert (sys_step 1 id8
            (demo_state empty_tree demo_split_calls (demo_split_schedule 5))
            (1%nat, EvSplitCasOk)
            (demo_state empty_tree demo_split_calls (demo_split_schedule 6))) as Hstep.
  { apply (demo_step empty_tree demo_split_calls (demo_split_schedule 5) 1 0).
    - vm_compute. eexists. reflexivity.
    - vm_compute. reflexivity. }
  destruct (slots_only_grow 1 id8 sizeof_1_pos sizeof_1_small id8_range
              _ _ _ _ _ Hreach Hex Hstep) as (Htrans & _ & _ & _ & Hle).
  split; [exact Hreach|]. split; [exact Hex|]. split; [exact Hstep|].
  split; [|exact Hle].
  apply (Htrans RootSlot); vm_compute; reflexivity.
Defined.

Lemma same_key_inserts_one_winner_witness :
  built_by_inserts 1 id8 (demo_tree []) ∧
  RadixTree_get 1 id8 (demo_tree []) 1 = Some 0 ∧
  Forall (is_call 1 id8) demo_race_calls ∧
  exec 1 id8 (mkSystem (demo_tree []) demo_race_calls)
    (demo_trace (demo_tree []) demo_race_calls (demo_race_schedule 5))
    (demo_state (demo_tree []) demo_race_calls (demo_race_schedule 5)) ∧
  demo_race_calls !! 0%nat = Some (insert_call 1 id8 1026) ∧ id8 1026 = 1 ∧
  threads (demo_state (demo_tree []) demo_race_calls (demo_race_schedule 5))
    = [InsertRet 1 1026 true; InsertRet 1 514 false] ∧
  ∃ i v,
    demo_race_calls !! i = Some (insert_call 1 id8 v) ∧
    threads (demo_state (demo_tree []) demo_race_calls (demo_race_schedule 5)) !! i
      = Some (InsertRet 1 v true) ∧
    RadixTree_get 1 id8
      (heap (demo_state (demo_tree []) demo_race_calls (demo_race_schedule 5))) 1
      = Some v.
Proof.
  assert (built_by_inserts 1 id8 (demo_tree [])) as Hb
    by (apply demo_tree_built; constructor).
  assert (RadixTree_get 1 id8 (demo_tree []) 1 = Some 0) as Habs
    by (vm_compute; reflexivity).
  pose proof (demo_exec (demo_tree []) demo_race_calls (demo_race_schedule 5)) as Hex.
  assert (threads (demo_state (demo_tree []) demo_race_calls (demo_race_schedule 5))
            = [InsertRet 1 1026 true; InsertRet 1 514 false]) as Hthreads
    by (vm_compute; reflexivity).
  assert (∀ i v, demo_race_calls !! i = Some (insert_call 1 id8 v) → id8 v = 1 →
            ∃ b, threads (demo_state (demo_tree []) demo_race_calls
                            (demo_race_schedule 5)) !! i
                 = Some (InsertRet 1 v b)) as Hdone.
  { intros i v Hi _. rewrite Hthreads.
    destruct i as [|[|i]]; simpl in Hi.
    - injection Hi as _ <-. exists true. reflexivity.
    - injection Hi as _ <-. exists false. reflexivity.
    - discriminate Hi. }
  destruct (same_key_inserts_one_winner 1 id8 sizeof_1_pos sizeof_1_small id8_range
              _ _ _ _ 1 0%nat 1026 Hb Habs demo_race_calls_ok Hex eq_refl eq_refl Hdone)
    as (i & v & Hcall & _ & Hwin & _ & Hget & _).
  split; [exact Hb|]. split; [exact Habs|]. split; [exact demo_race_calls_ok|].
  split; [exact Hex|]. split; [reflexivity|]. split; [reflexivity|].
  split; [exact Hthreads|]. exists i, v.
  split; [exact Hcall|]. split; [exact Hwin|exact Hget].
Defined.

Lemma failed_leaf_cas_observes_leaf_witness :
  reachable 1 id8 (demo_state empty_tree demo_race_calls (demo_race_schedule 3)) ∧
  threads (demo_state empty_tree demo_race_calls (demo_race_schedule 3)) !! 1%nat
    = Some (Insert 1 514 RootSlot 1 (InsTest RadixElement_empty)) ∧
  thread_step 1 id8 0
    (heap (demo_state empty_tree demo_race_calls (demo_race_schedule 3)))
    (Insert 1 514 RootSlot 1 (InsTest RadixElement_empty))
    = Next EvLeafCasFail
        (heap (demo_state empty_tree demo_race_calls (demo_race_schedule 3)))
        (Insert 1 514 RootSlot 1 (InsLeaf (RadixElement_leaf 1026))) ∧
  ∃ e', load (heap (demo_state empty_tree demo_race_calls (demo_race_schedule 3)))
          RootSlot = Some e' ∧
        e' ≠ RadixElement_empty ∧
        (isNode e' = false → ∃ leaf, getLeaf e' = Some leaf ∧ leaf ≠ 0).
Proof.
  assert (reachable 1 id8
            (demo_state empty_tree demo_race_calls (demo_race_schedule 3))) as Hreach
    by (apply demo_reachable, demo_race_calls_ok).
  assert (threads (demo_state empty_tree demo_race_calls (demo_race_schedule 3)) !! 1%nat
            = Some (Insert 1 514 RootSlot 1 (InsTest RadixElement_empty))) as Hi
    by (vm_compute; reflexivity).
  assert (thread_step 1 id8 0
            (heap (demo_state empty_tree demo_race_calls (demo_race_schedule 3)))
            (Insert 1 514 RootSlot 1 (InsTest RadixElement_empty))
          = Next EvLeafCasFail
              (heap (demo_state empty_tree demo_race_calls (demo_race_schedule 3)))
              (Insert 1 514 RootSlot 1 (InsLeaf (RadixElement_leaf 1026)))) as Hstep
    by (vm_compute; reflexivity).
  destruct (failed_leaf_cas_observes_leaf 1 id8 sizeof_1_pos sizeof_1_small id8_range
              _ _ _ _ _ _ _ _ _ _ Hreach Hi Hstep)
    as (_ & _ & e' & Hl & Hne & _ & _ & Hleaf).
  split; [exact Hreach|]. split; [exact Hi|]. split; [exact Hstep|].
  exists e'. split; [exact Hl|]. split; [exact Hne|].
  intros Hn. destruct (Hleaf Hn) as (leaf & Hg & Hp0 & _).
  exists leaf. split; [exact Hg|exact Hp0].
Defined.

Lemma insert_split_node_witness :
  reachable 1 id8 (demo_state empty_tree demo_split_calls (demo_split_schedule 4)) ∧
  threads (demo_state empty_tree demo_split_calls (demo_split_schedule 4)) !! 1%nat
    = Some (Insert 1 514 RootSlot 1 (InsLeaf (RadixElement_leaf 32))) ∧
  alloc_ok (heap (demo_state empty_tree demo_split_calls (demo_split_schedule 4))) 100
    = true ∧
  reachable 1 id8 (demo_state empty_tree demo_split_calls (demo_split_schedule 5)) ∧
  threads (demo_state empty_tree demo_split_calls (demo_split_schedule 5)) !! 1%nat
    = Some (Insert 1 514 RootSlot 1 (InsCas (RadixElement_leaf 32) 100)) ∧
  (id8 32 ≠ 1 →
   thread_step 1 id8 100
     (heap (demo_state empty_tree demo_split_calls (demo_split_schedule 4)))
     (Insert 1 514 RootSlot 1 (InsLeaf (RadixElement_leaf 32)))
   = Next EvAlloc
       (alloc_node
          (heap (demo_state empty_tree demo_split_calls (demo_split_schedule 4)))
          100
          (<[Z.to_nat (child_index 1 (id8 32)) := RadixElement_leaf 32]>
             (replicate CHILD_PER_LEVEL RadixElement_empty)))
       (Insert 1 514 RootSlot 1 (InsCas (RadixElement_leaf 32) 100))) ∧
  unreferenced 1
    (heap (demo_state empty_tree demo_split_calls (demo_split_schedule 5))) 100.
Proof.
  assert (reachable 1 id8
            (demo_state empty_tree demo_split_calls (demo_split_schedule 4))) as Hr4
    by (apply demo_reachable, demo_split_calls_ok).
  assert (reachable 1 id8
            (demo_state empty_tree demo_split_calls (demo_split_schedule 5))) as Hr5
    by (apply demo_reachable, demo_split_calls_ok).
  assert (threads (demo_state empty_tree demo_split_calls (demo_split_schedule 4)) !! 1%nat
            = Some (Insert 1 514 RootSlot 1 (InsLeaf (RadixElement_leaf 32)))) as Hi
    by (vm_compute; reflexivity).
  assert (threads (demo_state empty_tree demo_split_calls (demo_split_schedule 5)) !! 1%nat
            = Some (Insert 1 514 RootSlot 1 (InsCas (RadixElement_leaf 32) 100))) as Hj
    by (vm_compute; reflexivity).
  assert (alloc_ok
            (heap (demo_state empty_tree demo_split_calls (demo_split_schedule 4))) 100
          = true) as Ha by (vm_compute; reflexivity).
  destruct (insert_split_node 1 id8 sizeof_1_pos sizeof_1_small id8_range
              _ _ _ _ 100 0 _ _ _ _ _ _ Hr4 Hi Ha Hr5 Hj)
    as (_ & (leaf & d & Hg & _ & _ & _ & Hsplit) & (cur & _ & Hun & _)).
  injection Hg as <-.
  split; [exact Hr4|]. split; [exact Hi|]. split; [exact Ha|].
  split; [exact Hr5|]. split; [exact Hj|]. split; [|exact Hun].
  intros Hne. destruct (Hsplit Hne) as (_ & _ & _ & Hstep & _). exact Hstep.
Defined.

(** C1 as stated fails: a leaf with id [0x10] sits in the root slot and an
    insertion of id [0x01] reaches it with [level = TOP_LEVEL = 1].  The node
    it allocates holds the leaf at its chunk for level 1 (index 1); the child
    at its chunk for level [1 - 1] (index 0) is empty. *)
Lemma insert_split_node_counterexample :
  reachable 1 id8 (demo_state empty_tree demo_split_calls (demo_split_schedule 4)) ∧
  threads (demo_state empty_tree demo_split_calls (demo_split_schedule 4)) !! 1%nat
    = Some (Insert 1 514 RootSlot (TOP_LEVEL 1) (InsLeaf (RadixElement_leaf 32))) ∧
  ∃ cs,
    thread_step 1 id8 100
      (heap (demo_state empty_tree demo_split_calls (demo_split_schedule 4)))
      (Insert 1 514 RootSlot (TOP_LEVEL 1) (InsLeaf (RadixElement_leaf 32)))
    = Next EvAlloc
        (alloc_node
           (heap (demo_state empty_tree demo_split_calls (demo_split_schedule 4)))
           100 cs)
        (Insert 1 514 RootSlot (TOP_LEVEL 1) (InsCas (RadixElement_leaf 32) 100)) ∧
    cs !! Z.to_nat (child_index (TOP_LEVEL 1 - 1) (id8 32)) = Some RadixElement_empty ∧
    cs !! Z.to_nat (child_index (TOP_LEVEL 1) (id8 32)) = Some (RadixElement_leaf 32) ∧
    RadixNode_new 1 (TOP_LEVEL 1 - 1) (id8 32) (RadixElement_leaf 32) ≠ Some cs.
Proof.
  split; [apply demo_reachable, demo_split_calls_ok|].
  split; [vm_compute; reflexivity|].
  exists (<[1%nat := RadixElement_leaf 32]> (replicate 16 RadixElement_empty)).
  split; [vm_compute; reflexivity|]. split; [reflexivity|].
  split; [reflexivity|]. vm_compute. discriminate.
Qed.

(** ** Further properties at concrete inputs *)

(** An insertion followed by a [get] of its key. *)
Definition demo_get_calls : list Thread := [insert_call 1 id8 32; get_call 1 16].

Definition demo_get_schedule (n : nat) : list (nat * Z) :=
  take n [(0%nat, 0); (0%nat, 0); (1%nat, 0); (1%nat, 0)].

Lemma demo_get_calls_ok : Forall (is_call 1 id8) demo_get_calls.
Proof.
  constructor; [|constructor; [|constructor]].
  - left. exists 32. split; reflexivity.
  - right. exists 16. reflexivity.
Qed.

Lemma reachable_no_fault_witness :
  reachable 1 id8 (demo_state empty_tree demo_split_calls (demo_split_schedule 4)) ∧
  threads (demo_state empty_tree demo_split_calls (demo_split_schedule 4)) !! 1%nat
    = Some (Insert 1 514 RootSlot (TOP_LEVEL 1) (InsLeaf (RadixElement_leaf 32))) ∧
  thread_step 1 id8 100
    (heap (demo_state empty_tree demo_split_calls (demo_split_schedule 4)))
    (Insert 1 514 RootSlot (TOP_LEVEL 1) (InsLeaf (RadixElement_leaf 32))) ≠ Fault.
Proof.
  assert (reachable 1 id8
            (demo_state empty_tree demo_split_calls (demo_split_schedule 4)))
    as Hreach by (apply demo_reachable, demo_split_calls_ok).
  assert (threads (demo_state empty_tree demo_split_calls (demo_split_schedule 4))
            !! 1%nat
          = Some (Insert 1 514 RootSlot (TOP_LEVEL 1) (InsLeaf (RadixElement_leaf 32))))
    as Hi by (vm_compute; reflexivity).
  split; [exact Hreach|]. split; [exact Hi|].
  exact (reachable_no_fault 1 id8 sizeof_1_pos sizeof_1_small id8_range
           _ 1%nat _ 100 Hreach Hi).
Defined.

Lemma reachable_progress_witness :
  reachable 1 id8 (demo_state empty_tree demo_split_calls (demo_split_schedule 4)) ∧
  threads (demo_state empty_tree demo_split_calls (demo_split_schedule 4)) !! 1%nat
    = Some (Insert 1 514 RootSlot (TOP_LEVEL 1) (InsLeaf (RadixElement_leaf 32))) ∧
  ∃ ev h' t',
    thread_step 1 id8
      (fresh_addr (heap (demo_state empty_tree demo_split_calls (demo_split_schedule 4))))
      (heap (demo_state empty_tree demo_split_calls (demo_split_schedule 4)))
      (Insert 1 514 RootSlot (TOP_LEVEL 1) (InsLeaf (RadixElement_leaf 32)))
    = Next ev h' t'.
Proof.
  assert (reachable 1 id8
            (demo_state empty_tree demo_split_calls (demo_split_schedule 4)))
    as Hreach by (apply demo_reachable, demo_split_calls_ok).
  assert (threads (demo_state empty_tree demo_split_calls (demo_split_schedule 4))
            !! 1%nat
          = Some (Insert 1 514 RootSlot (TOP_LEVEL 1) (InsLeaf (RadixElement_leaf 32))))
    as Hi by (vm_compute; reflexivity).
  destruct (reachable_progress 1 id8 sizeof_1_pos sizeof_1_small id8_range
              _ 1%nat _ Hreach Hi eq_refl) as (ev & h' & t' & Hstep & _).
  split; [exact Hreach|]. split; [exact Hi|]. exists ev, h', t'. exact Hstep.
Defined.


Lemma demo_split_calls_distinct i j v u :
  demo_split_calls !! i = Some (insert_call 1 id8 v) →
  demo_split_calls !! j = Some (insert_call 1 id8 u) →
  id8 v = id8 u → i = j.
Proof.
  intros Hi Hj Heq.
  destruct i as [|[|i]], j as [|[|j]]; simpl in Hi, Hj;
    try discriminate Hi; try discriminate Hj; try reflexivity.
  - injection Hi as _ <-. injection Hj as _ <-. discriminate Heq.
  - injection Hi as _ <-. injection Hj as _ <-. discriminate Heq.
Qed.

Lemma distinct_keys_all_win_witness :
  Forall (is_call 1 id8) demo_split_calls ∧
  exec 1 id8 (mkSystem empty_tree demo_split_calls)
    (demo_trace empty_tree demo_split_calls (demo_split_schedule 9))
    (demo_state empty_tree demo_split_calls (demo_split_schedule 9)) ∧
  threads (demo_state empty_tree demo_split_calls (demo_split_schedule 9)) !! 1%nat
    = Some (InsertRet 1 514 true) ∧
  RadixTree_get 1 id8
    (heap (demo_state empty_tree demo_split_calls (demo_split_schedule 9))) 1
    = Some 514.
Proof.
  pose proof (demo_exec empty_tree demo_split_calls (demo_split_schedule 9)) as Hex.
  assert (threads (demo_state empty_tree demo_split_calls (demo_split_schedule 9))
            !! 1%nat = Some (InsertRet 1 514 true)) as Hi
    by (vm_compute; reflexivity).
  destruct (distinct_keys_all_win 1 id8 sizeof_1_pos sizeof_1_small id8_range
              _ _ _ 1%nat 1 514 true demo_split_calls_ok
              demo_split_calls_distinct Hex Hi) as [_ Hget].
  split; [exact demo_split_calls_ok|]. split; [exact Hex|].
  split; [exact Hi|exact Hget].
Defined.


Lemma binding_permanent_witness :
  reachable 1 id8 (demo_state empty_tree demo_split_calls (demo_split_schedule 2)) ∧
  RadixTree_get 1 id8
    (heap (demo_state empty_tree demo_split_calls (demo_split_schedule 2))) 16
    = Some 32 ∧
  exec 1 id8 (demo_state empty_tree demo_split_calls (demo_split_schedule 2))
    (demo_trace
       (heap (demo_state empty_tree demo_split_calls (demo_split_schedule 2)))
       (threads (demo_state empty_tree demo_split_calls (demo_split_schedule 2)))
       (drop 2 (demo_split_schedule 9)))
    (demo_state
       (heap (demo_state empty_tree demo_split_calls (demo_split_schedule 2)))
       (threads (demo_state empty_tree demo_split_calls (demo_split_schedule 2)))
       (drop 2 (demo_split_schedule 9))) ∧
  RadixTree_get 1 id8
    (heap (demo_state
             (heap (demo_state empty_tree demo_split_calls (demo_split_schedule 2)))
             (threads (demo_state empty_tree demo_split_calls (demo_split_schedule 2)))
             (drop 2 (demo_split_schedule 9)))) 16
    = Some 32.
Proof.
  assert (reachable 1 id8
            (demo_state empty_tree demo_split_calls (demo_split_schedule 2)))
    as Hreach by (apply demo_reachable, demo_split_calls_ok).
  assert (RadixTree_get 1 id8
            (heap (demo_state empty_tree demo_split_calls (demo_split_schedule 2))) 16
          = Some 32) as Hget by (vm_compute; reflexivity).
  assert (32 ≠ 0) as Hne by discriminate.
  pose proof (demo_exec
                (heap (demo_state empty_tree demo_split_calls (demo_split_schedule 2)))
                (threads (demo_state empty_tree demo_split_calls (demo_split_schedule 2)))
                (drop 2 (demo_split_schedule 9))) as Hex.
  split; [exact Hreach|]. split; [exact Hget|]. split; [exact Hex|].
  exact (binding_permanent 1 id8 sizeof_1_pos sizeof_1_small id8_range
           _ _ _ 16 32 Hreach Hget Hne Hex).
Defined.

Lemma get_after_insert_witness :
  reachable 1 id8 (demo_state empty_tree demo_get_calls (demo_get_schedule 2)) ∧
  threads (demo_state empty_tree demo_get_calls (demo_get_schedule 2))
    = [InsertRet 16 32 true; get_call 1 16] ∧
  exec 1 id8 (demo_state empty_tree demo_get_calls (demo_get_schedule 2))
    (demo_trace
       (heap (demo_state empty_tree demo_get_calls (demo_get_schedule 2)))
       (threads (demo_state empty_tree demo_get_calls (demo_get_schedule 2)))
       (drop 2 (demo_get_schedule 4)))
    (demo_state
       (heap (demo_state empty_tree demo_get_calls (demo_get_schedule 2)))
       (threads (demo_state empty_tree demo_get_calls (demo_get_schedule 2)))
       (drop 2 (demo_get_schedule 4))) ∧
  threads (demo_state
             (heap (demo_state empty_tree demo_get_calls (demo_get_schedule 2)))
             (threads (demo_state empty_tree demo_get_calls (demo_get_schedule 2)))
             (drop 2 (demo_get_schedule 4))) !! 1%nat
    = Some (GetRet 16 32) ∧
  32 = 32.
Proof.
  assert (reachable 1 id8 (demo_state empty_tree demo_get_calls (demo_get_schedule 2)))
    as Hreach by (apply demo_reachable, demo_get_calls_ok).
  assert (threads (demo_state empty_tree demo_get_calls (demo_get_schedule 2))
          = [InsertRet 16 32 true; get_call 1 16]) as Hts
    by (vm_compute; reflexivity).
  pose proof (demo_exec
                (heap (demo_state empty_tree demo_get_calls (demo_get_schedule 2)))
                (threads (demo_state empty_tree demo_get_calls (demo_get_schedule 2)))
                (drop 2 (demo_get_schedule 4))) as Hex.
  assert (threads (demo_state
             (heap (demo_state empty_tree demo_get_calls (demo_get_schedule 2)))
             (threads (demo_state empty_tree demo_get_calls (demo_get_schedule 2)))
             (drop 2 (demo_get_schedule 4))) !! 1%nat
          = Some (GetRet 16 32)) as Hret by (vm_compute; reflexivity).
  split; [exact Hreach|]. split; [exact Hts|]. split; [exact Hex|].
  split; [exact Hret|].
  refine (get_after_insert 1 id8 sizeof_1_pos sizeof_1_small id8_range
            _ _ _ 0%nat 1%nat 16 32 32 Hreach _ _ Hex Hret).
  - rewrite Hts. reflexivity.
  - rewrite Hts. reflexivity.
Defined.

Lemma reachable_tree_shape_witness :
  reachable 1 id8 (demo_state empty_tree demo_split_calls (demo_split_schedule 9)) ∧
  on_path 1
    (heap (demo_state empty_tree demo_split_calls (demo_split_schedule 9)))
    1 (ChildSlot 100 0) 1 ∧
  load (heap (demo_state empty_tree demo_split_calls (demo_split_schedule 9)))
    (ChildSlot 100 0) = Some (RadixElement_leaf 514) ∧
  (1 ≤ S (top 1))%nat ∧
  (RadixElement_leaf 514 = RadixElement_empty ∨
   ∃ p, RadixElement_leaf 514 = RadixElement_leaf p ∧ valid_ptr p = true ∧
        agree_upto 1 1 (id8 p) 1 ∧
        RadixTree_get 1 id8
          (heap (demo_state empty_tree demo_split_calls (demo_split_schedule 9)))
          (id8 p) = Some p).
Proof.
  assert (reachable 1 id8
            (demo_state empty_tree demo_split_calls (demo_split_schedule 9)))
    as Hreach by (apply demo_reachable, demo_split_calls_ok).
  assert (on_path 1
            (heap (demo_state empty_tree demo_split_calls (demo_split_schedule 9)))
            1 (ChildSlot 100 0) 1) as Hp.
  { apply (on_path_child 1 _ 1 RootSlot 0 100).
    - apply on_path_root.
    - vm_compute. reflexivity.
    - reflexivity. }
  assert (load (heap (demo_state empty_tree demo_split_calls (demo_split_schedule 9)))
            (ChildSlot 100 0) = Some (RadixElement_leaf 514)) as Hl
    by (vm_compute; reflexivity).
  destruct (reachable_tree_shape 1 id8 sizeof_1_pos sizeof_1_small id8_range
              _ 1 (ChildSlot 100 0) 1%nat _ Hreach Hp Hl) as (Hd & _ & Hleaf & _).
  split; [exact Hreach|]. split; [exact Hp|]. split; [exact Hl|].
  split; [exact Hd|]. apply Hleaf. reflexivity.
Defined.

Lemma call_step_bound_witness :
  built_by_inserts 1 id8 (demo_tree []) ∧
  Forall (is_call 1 id8) demo_split_calls ∧
  exec 1 id8 (mkSystem (demo_tree []) demo_split_calls)
    (demo_trace (demo_tree []) demo_split_calls (demo_split_schedule 9))
    (demo_state (demo_tree []) demo_split_calls (demo_split_schedule 9)) ∧
  threads (demo_state (demo_tree []) demo_split_calls (demo_split_schedule 9)) !! 1%nat
    = Some (InsertRet 1 514 true) ∧
  length (events_of 1 (demo_trace (demo_tree []) demo_split_calls
                         (demo_split_schedule 9))) = 7%nat ∧
  (length (events_of 1 (demo_trace (demo_tree []) demo_split_calls
                          (demo_split_schedule 9)))
   ≤ call_fuel 1 (InsertRet 1 514 true))%nat ∧
  Z.of_nat (call_fuel 1 (InsertRet 1 514 true)) = 6 * (TOP_LEVEL 1 + 2).
Proof.
  assert (built_by_inserts 1 id8 (demo_tree [])) as Hb
    by (apply demo_tree_built; constructor).
  pose proof (demo_exec (demo_tree []) demo_split_calls (demo_split_schedule 9)) as Hex.
  assert (threads (demo_state (demo_tree []) demo_split_calls (demo_split_schedule 9))
            !! 1%nat = Some (InsertRet 1 514 true)) as Hi
    by (vm_compute; reflexivity).
  destruct (call_step_bound 1 id8 sizeof_1_pos sizeof_1_small id8_range
              _ _ _ _ 1%nat _ Hb demo_split_calls_ok Hex Hi) as [Hle Hfuel].
  split; [exact Hb|]. split; [exact demo_split_calls_ok|]. split; [exact Hex|].
  split; [exact Hi|]. split; [vm_compute; reflexivity|].
  split; [exact Hle|exact Hfuel].
Defined.

Lemma no_node_lost_witness :
  reachable 1 id8 (demo_state empty_tree demo_split_calls (demo_split_schedule 5)) ∧
  is_Some (nodes (heap (demo_state empty_tree demo_split_calls (demo_split_schedule 5)))
             !! 100) ∧
  (referenced 1
     (heap (demo_state empty_tree demo_split_calls (demo_split_schedule 5))) 100 ∨
   ∃ i key v eptr level e,
     threads (demo_state empty_tree demo_split_calls (demo_split_schedule 5)) !! i
     = Some (Insert key v eptr level (InsCas e 100))).
Proof.
  assert (reachable 1 id8
            (demo_state empty_tree demo_split_calls (demo_split_schedule 5)))
    as Hreach by (apply demo_reachable, demo_split_calls_ok).
  assert (is_Some (nodes (heap (demo_state empty_tree demo_split_calls
                                  (demo_split_schedule 5))) !! 100)) as Hn
    by (vm_compute; eexists; reflexivity).
  destruct (no_node_lost 1 id8 sizeof_1_pos sizeof_1_small id8_range
              _ 100 Hreach Hn) as (Hown & _).
  split; [exact Hreach|]. split; [exact Hn|exact Hown].
Defined.

Lemma insert_all_first_wins_witness :
  built_by_inserts 1 id8 (demo_tree [32]) ∧
  Forall (λ v, valid_ptr v = true) [514; 1026] ∧
  first_with_id id8 1 [514; 1026] = 514 ∧
  ∃ h' r,
    insert_all 1 id8 (demo_tree [32]) [514; 1026] = Some h' ∧
    RadixTree_get 1 id8 (demo_tree [32]) 1 = Some r ∧
    RadixTree_get 1 id8 h' 1
      = Some (if r =? 0 then first_with_id id8 1 [514; 1026] else r).
Proof.
  assert (built_by_inserts 1 id8 (demo_tree [32])) as Hb
    by (apply demo_tree_built; repeat constructor).
  assert (Forall (λ v, valid_ptr v = true) [514; 1026]) as Hvs
    by (repeat constructor).
  split; [exact Hb|]. split; [exact Hvs|]. split; [reflexivity|].
  exact (insert_all_first_wins 1 id8 sizeof_1_pos sizeof_1_small id8_range
           (demo_tree [32]) [514; 1026] 1 Hb Hvs).
Defined.

Lemma insert_order_irrelevant_witness :
  built_by_inserts 1 id8 (demo_tree [34]) ∧
  Forall (λ v, valid_ptr v = true) [32; 514] ∧
  NoDup (id8 <$> [32; 514]) ∧ [32; 514] ≡ₚ [514; 32] ∧
  ∃ h1 h2,
    insert_all 1 id8 (demo_tree [34]) [32; 514] = Some h1 ∧
    insert_all 1 id8 (demo_tree [34]) [514; 32] = Some h2 ∧
    ∀ k, RadixTree_get 1 id8 h1 k = RadixTree_get 1 id8 h2 k.
Proof.
  assert (built_by_inserts 1 id8 (demo_tree [34])) as Hb
    by (apply demo_tree_built; repeat constructor).
  assert (Forall (λ v, valid_ptr v = true) [32; 514]) as Hvs
    by (repeat constructor).
  assert (NoDup (id8 <$> [32; 514])) as Hnd
    by (refine (bool_decide_unpack (NoDup (id8 <$> [32; 514])) _);
        vm_compute; exact I).
  assert ([32; 514] ≡ₚ [514; 32]) as Hperm by apply perm_swap.
  split; [exact Hb|]. split; [exact Hvs|]. split; [exact Hnd|].
  split; [exact Hperm|].
  exact (insert_order_irrelevant 1 id8 sizeof_1_pos sizeof_1_small id8_range
           (demo_tree [34]) [32; 514] [514; 32] Hb Hvs Hnd Hperm).
Defined.


Lemma get_linearizable_witness :
  reachable 1 id8 (demo_state empty_tree demo_get_calls (demo_get_schedule 1)) ∧
  threads (demo_state empty_tree demo_get_calls (demo_get_schedule 1)) !! 1%nat
    = Some (get_call 1 16) ∧
  exec 1 id8 (demo_state empty_tree demo_get_calls (demo_get_schedule 1))
    (demo_trace
       (heap (demo_state empty_tree demo_get_calls (demo_get_schedule 1)))
       (threads (demo_state empty_tree demo_get_calls (demo_get_schedule 1)))
       (drop 1 (demo_get_schedule 4)))
    (demo_state
       (heap (demo_state empty_tree demo_get_calls (demo_get_schedule 1)))
       (threads (demo_state empty_tree demo_get_calls (demo_get_schedule 1)))
       (drop 1 (demo_get_schedule 4))) ∧
  threads (demo_state
             (heap (demo_state empty_tree demo_get_calls (demo_get_schedule 1)))
             (threads (demo_state empty_tree demo_get_calls (demo_get_schedule 1)))
             (drop 1 (demo_get_schedule 4))) !! 1%nat
    = Some (GetRet 16 32) ∧
  ∃ r0 r1,
    RadixTree_get 1 id8
      (heap (demo_state empty_tree demo_get_calls (demo_get_schedule 1))) 16
      = Some r0 ∧
    RadixTree_get 1 id8
      (heap (demo_state
               (heap (demo_state empty_tree demo_get_calls (demo_get_schedule 1)))
               (threads (demo_state empty_tree demo_get_calls (demo_get_schedule 1)))
               (drop 1 (demo_get_schedule 4)))) 16
      = Some r1 ∧
    (32 = r0 ∨ 32 = r1).
Proof.
  assert (reachable 1 id8 (demo_state empty_tree demo_get_calls (demo_get_schedule 1)))
    as Hreach by (apply demo_reachable, demo_get_calls_ok).
  assert (threads (demo_state empty_tree demo_get_calls (demo_get_schedule 1))
            !! 1%nat = Some (get_call 1 16)) as Hj
    by (vm_compute; reflexivity).
  pose proof (demo_exec
                (heap (demo_state empty_tree demo_get_calls (demo_get_schedule 1)))
                (threads (demo_state empty_tree demo_get_calls (demo_get_schedule 1)))
                (drop 1 (demo_get_schedule 4))) as Hex.
  assert (threads (demo_state
             (heap (demo_state empty_tree demo_get_calls (demo_get_schedule 1)))
             (threads (demo_state empty_tree demo_get_calls (demo_get_schedule 1)))
             (drop 1 (demo_get_schedule 4))) !! 1%nat
          = Some (GetRet 16 32)) as Hret by (vm_compute; reflexivity).
  destruct (get_linearizable 1 id8 sizeof_1_pos sizeof_1_small id8_range
              _ _ _ 1%nat 16 32 Hreach Hj Hex Hret)
    as (r0 & r1 & H0 & H1 & Hor & _).
  split; [exact Hreach|]. split; [exact Hj|]. split; [exact Hex|].
  split; [exact Hret|]. exists r0, r1.
  split; [exact H0|]. split; [exact H1|exact Hor].
Defined.

Lemma insert_linearizable_witness :
  reachable 1 id8 (demo_state empty_tree demo_race_calls []) ∧
  threads (demo_state empty_tree demo_race_calls []) !! 1%nat
    = Some (insert_call 1 id8 514) ∧
  exec 1 id8 (demo_state empty_tree demo_race_calls [])
    (demo_trace empty_tree demo_race_calls (demo_race_schedule 5))
    (demo_state empty_tree demo_race_calls (demo_race_schedule 5)) ∧
  threads (demo_state empty_tree demo_race_calls (demo_race_schedule 5)) !! 1%nat
    = Some (InsertRet 1 514 false) ∧
  ∃ p, p ≠ 0 ∧ id8 p = 1 ∧
       RadixTree_get 1 id8
         (heap (demo_state empty_tree demo_race_calls (demo_race_schedule 5))) 1
       = Some p.
Proof.
  assert (reachable 1 id8 (demo_state empty_tree demo_race_calls [])) as Hreach
    by (apply demo_reachable, demo_race_calls_ok).
  assert (threads (demo_state empty_tree demo_race_calls []) !! 1%nat
          = Some (insert_call 1 id8 514)) as Hi by reflexivity.
  assert (exec 1 id8 (demo_state empty_tree demo_race_calls [])
            (demo_trace empty_tree demo_race_calls (demo_race_schedule 5))
            (demo_state empty_tree demo_race_calls (demo_race_schedule 5))) as Hex
    by exact (demo_exec empty_tree demo_race_calls (demo_race_schedule 5)).
  assert (threads (demo_state empty_tree demo_race_calls (demo_race_schedule 5))
            !! 1%nat = Some (InsertRet 1 514 false)) as Hret
    by (vm_compute; reflexivity).
  destruct (insert_linearizable 1 id8 sizeof_1_pos sizeof_1_small id8_range
              _ _ _ 1%nat 1 514 false Hreach Hi Hex Hret) as [_ Hp].
  split; [exact Hreach|]. split; [exact Hi|]. split; [exact Hex|].
  split; [exact Hret|exact Hp].
Defined.

Lemma insert_step_bound_witness :
  Forall (is_call 1 id8) demo_split_calls ∧
  exec 1 id8 (mkSystem empty_tree demo_split_calls)
    (demo_trace empty_tree demo_split_calls (demo_split_schedule 9))
    (demo_state empty_tree demo_split_calls (demo_split_schedule 9)) ∧
  built_by_inserts 1 id8 (demo_tree [32]) ∧ valid_ptr 514 = true ∧
  events_of 1 (demo_trace empty_tree demo_split_calls (demo_split_schedule 9))
    = [EvLoad; EvLocal; EvAlloc; EvSplitCasOk; EvLoad; EvDescend; EvLeafCasOk] ∧
  Z.of_nat (count_events is_descend
              (events_of 1 (demo_trace empty_tree demo_split_calls
                              (demo_split_schedule 9))))
  ≤ KEY_BITS 1 / BITS ∧
  Z.of_nat (length (events_of 1 (demo_trace empty_tree demo_split_calls
                                   (demo_split_schedule 9))))
  ≤ 6 * (KEY_BITS 1 / BITS + 1) ∧
  ∃ b h', RadixTree_insert 1 id8 (demo_tree [32]) 514 = Some (b, h').
Proof.
  assert (built_by_inserts 1 id8 (demo_tree [32])) as Hb
    by (apply demo_tree_built; repeat constructor).
  pose proof (demo_exec empty_tree demo_split_calls (demo_split_schedule 9)) as Hex.
  destruct (insert_step_bound 1 id8 sizeof_1_pos sizeof_1_small id8_range
              _ _ _ 1%nat (demo_tree [32]) 514 16 demo_split_calls_ok Hex Hb eq_refl)
    as ((Hdesc & _ & _ & Hall) & (evs & h' & b & _ & Hins & _) & _).
  split; [exact demo_split_calls_ok|]. split; [exact Hex|]. split; [exact Hb|].
  split; [reflexivity|]. split; [vm_compute; reflexivity|].
  split; [exact Hdesc|]. split; [exact Hall|]. exists b, h'. exact Hins.
Defined.

(** C8 as stated fails: the tree holds the value 32 (id [0x10]) and one
    thread inserts the value 34 (id [0x11]), alone, so that no CAS fails.
    The two ids share their first chunk, so the insertion splits the root
    slot and then the child slot: it loads a slot 5 times and performs 3
    CAS, 12 steps in all, where [KEY_BITS / BITS + k] is [2 + 0]. *)
Lemma insert_step_bound_counterexample :
  ∃ evs h',
    run 1 id8 (insert_fuel 1) (demo_tree [32]) (insert_call 1 id8 34)
      = Some (evs, h', InsertRet 17 34 true) ∧
    evs = [EvLoad; EvLocal; EvAlloc; EvSplitCasOk;
           EvLoad; EvDescend; EvLocal; EvAlloc; EvSplitCasOk;
           EvLoad; EvDescend; EvLeafCasOk] ∧
    count_events is_cas_fail evs = 0%nat ∧
    count_events is_cas evs = 3%nat ∧
    count_events is_slot_access evs = 8%nat ∧
    KEY_BITS 1 / BITS = 2 ∧
    ¬ (Z.of_nat (count_events is_cas evs)
       ≤ KEY_BITS 1 / BITS + Z.of_nat (count_events is_cas_fail evs)) ∧
    ¬ (Z.of_nat (count_events is_slot_access evs)
       ≤ KEY_BITS 1 / BITS + Z.of_nat (count_events is_cas_fail evs)) ∧
    ¬ (Z.of_nat (length evs)
       ≤ KEY_BITS 1 / BITS + Z.of_nat (count_events is_cas_fail evs)).
Proof.
  eexists _, _. split; [vm_compute; reflexivity|].
  split; [reflexivity|]. split; [reflexivity|]. split; [reflexivity|].
  split; [reflexivity|]. split; [reflexivity|].
  split; [|split]; vm_compute; intros H; apply H; reflexivity.
Qed.

(** * A JSON value container (src/univalue/lib/univalue.cpp)

    A [UniValue] holds a type tag, a string, a vector of key/value pairs and
    a vector of values.  Each mutator is embedded as a function from the
    object before the call to the object after it.  [push_back],
    [push_backV] and [__pushKV] copy their argument before they change the
    receiver, so they are given its value.  [pushKV] and [pushKVs] read
    their argument while they change the receiver, so they are given an
    [Arg], which also says whether the argument overlaps the receiver, and
    they return no result where the source has none of its own. *)

Module univalue.

Inductive VType : Type := VNULL | VOBJ | VARR | VSTR | VNUM | VBOOL.

#[global] Instance VType_eq_dec : EqDecision VType.
Proof. solve_decision. Defined.

(** The data members that univalue.cpp reads and writes. *)
#[local] Set Warnings "-register-all".
Inductive UniValue : Type := mkUniValue {
  typ : VType;
  val : string;
  entries : list (string * UniValue);
  values : list UniValue
}.

Section UniValue.

(** [const UniValue NullUniValue;], built by the default constructor that
    univalue.h declares. *)
Variable NullUniValue : UniValue.

(** Whether [getJsonToken], defined in another file, reads the whole string
    as one number token. *)
Variable getJsonToken_number : string → bool.

Definition boolTrueVal : string := "1".

Definition set_typ (t : VType) (u : UniValue) : UniValue :=
  mkUniValue t (val u) (entries u) (values u).
Definition set_val (s : string) (u : UniValue) : UniValue :=
  mkUniValue (typ u) s (entries u) (values u).
Definition set_entries (es : list (string * UniValue)) (u : UniValue) : UniValue :=
  mkUniValue (typ u) (val u) es (values u).
Definition set_values (vs : list UniValue) (u : UniValue) : UniValue :=
  mkUniValue (typ u) (val u) (entries u) vs.

Definition clear (u : UniValue) : UniValue :=
  set_values [] (set_entries [] (set_val "" (set_typ VNULL u))).


Definition setBool (val_ : bool) (u : UniValue) : UniValue :=
  let u := set_typ VBOOL (clear u) in
  if val_ then set_val boolTrueVal u else u.



Definition setStr (val_ : string) (u : UniValue) : UniValue :=
  set_val val_ (set_typ VSTR (clear u)).

Definition setArray (u : UniValue) : UniValue := set_typ VARR (clear u).

Definition setObject (u : UniValue) : UniValue := set_typ VOBJ (clear u).

Definition push_back (val_ : UniValue) (u : UniValue) : UniValue :=
  if negb (bool_decide (typ u = VARR)) then u
  else set_values (values u ++ [val_]) u.

(** [push_backV(const std::vector<UniValue> &)]: one [insert] at the end. *)
Definition push_backV (vec : list UniValue) (u : UniValue) : UniValue :=
  if negb (bool_decide (typ u = VARR)) then u
  else set_values (values u ++ vec) u.

(** [push_backV(std::vector<UniValue> &&)]: one [emplace_back] per item;
    the second component is what is left in [vec]. *)
Definition push_backV_move (vec : list UniValue) (u : UniValue)
    : UniValue * list UniValue :=
  if negb (bool_decide (typ u = VARR)) then (u, vec)
  else (foldl (λ u item, set_values (values u ++ [item]) u) u vec, []).

Definition __pushKV (key : string) (val_ : UniValue) (u : UniValue) : UniValue :=
  set_entries (entries u ++ [(key, val_)]) u.

(** The loop of [find]: the position of the first entry with the key and
    the value stored there. *)
Fixpoint find_entry (key : string) (es : list (string * UniValue))
    : option (nat * UniValue) :=
  match es with
  | [] => None
  | entry :: es' =>
      if String.eqb entry.1 key then Some (0%nat, entry.2)
      else prod_map S id <$> find_entry key es'
  end.

(** [find(key)]: a pointer to the value of an entry, or [None] for
    [nullptr]. *)
Definition find (key : string) (u : UniValue) : option (nat * UniValue) :=
  find_entry key (entries u).

(** An argument taken by reference.  [Separate v] is an object of value
    [v] that shares no part with the receiver; [Overlapping v] is the
    receiver itself, a part of it, or an object that holds it, and [v] is
    its value when the call starts. *)
Inductive Arg : Type :=
| Separate (v : UniValue)
| Overlapping (v : UniValue).

Definition arg_value (a : Arg) : UniValue :=
  match a with
  | Separate v | Overlapping v => v
  end.

(** [*found = val_], the member-wise copy assignment.  From an argument
    that overlaps the receiver it reads the entry while it overwrites it;
    what it then stores depends on the order in which the library copies
    the members and their elements, and the model gives no result. *)
Definition assign (found : nat) (val_ : Arg) (u : UniValue) : option UniValue :=
  match val_ with
  | Separate v =>
      Some (set_entries (alter (λ entry, (entry.1, v)) found (entries u)) u)
  | Overlapping _ => None
  end.

(** [pushKV]; the [emplace_back] of [__pushKV] builds the new entry before
    it moves the old ones, whatever the argument refers to. *)
Definition pushKV (key : string) (val_ : Arg) (check : bool)
    (u : UniValue) : option UniValue :=
  if negb (bool_decide (typ u = VOBJ)) then Some u
  else
    match (if check then find key u else None) with
    | Some (found, _) => assign found val_ u
    | None => Some (__pushKV key (arg_value val_) u)
    end.

(** [pushKVs(const UniValue &obj)].  The loop walks the entries of [obj]
    and appends each to the entries of the receiver; when [obj] overlaps the
    receiver and has an entry, the loop appends to storage it is reading
    from, which a reallocation releases, and the model gives no result. *)
Definition pushKVs (obj : Arg) (u : UniValue) : option UniValue :=
  if negb (bool_decide (typ u = VOBJ))
     || negb (bool_decide (typ (arg_value obj) = VOBJ))
  then Some u
  else
    match obj with
    | Separate o =>
        Some (foldl (λ u entry, set_entries (entries u ++ [entry]) u) u
                (entries o))
    | Overlapping o =>
        match entries o with
        | [] => Some u
        | _ :: _ => None
        end
    end.

(** [pushKVs(UniValue &&obj)]: the second component is what is left in
    [obj].  An [obj] that overlaps the receiver is changed by the final
    [obj.setObject()] as a part of the receiver; the model gives no result
    for it. *)
Definition pushKVs_move (obj : Arg) (u : UniValue)
    : option (UniValue * UniValue) :=
  if negb (bool_decide (typ u = VOBJ))
     || negb (bool_decide (typ (arg_value obj) = VOBJ))
  then Some (u, arg_value obj)
  else
    match obj with
    | Separate o =>
        Some (foldl (λ u entry, set_entries (entries u ++ [entry]) u) u
                (entries o),
              setObject o)
    | Overlapping _ => None
    end.

(** [pushKV] without [check], once per entry of a list that is no part of
    the receiver. *)
Fixpoint pushKV_each (es : list (string * UniValue)) (u : UniValue)
    : option UniValue :=
  match es with
  | [] => Some u
  | entry :: es' =>
      match pushKV entry.1 (Separate entry.2) false u with
      | Some u' => pushKV_each es' u'
      | None => None
      end
  end.

(** [operator[](const std::string &key)] *)
Definition at_key (key : string) (u : UniValue) : UniValue :=
  match find key u with
  | Some (_, found) => found
  | None => NullUniValue
  end.

(** [operator[](size_t index)]; a list has an element at [index] exactly
    when [index] is less than its size. *)
Definition at_index (index : nat) (u : UniValue) : UniValue :=
  match typ u with
  | VOBJ =>
      match entries u !! index with
      | Some entry => entry.2
      | None => NullUniValue
      end
  | VARR =>
      match values u !! index with
      | Some v => v
      | None => NullUniValue
      end
  | _ => NullUniValue
  end.

Definition front (u : UniValue) : UniValue :=
  match typ u with
  | VOBJ =>
      match entries u with
      | entry :: _ => entry.2
      | [] => NullUniValue
      end
  | VARR =>
      match values u with
      | v :: _ => v
      | [] => NullUniValue
      end
  | _ => NullUniValue
  end.

Definition back (u : UniValue) : UniValue :=
  match typ u with
  | VOBJ =>
      match last (entries u) with
      | Some entry => entry.2
      | None => NullUniValue
      end
  | VARR =>
      match last (values u) with
      | Some v => v
      | None => NullUniValue
      end
  | _ => NullUniValue
  end.

(** [operator==] of [std::vector]: equal sizes and equal elements. *)
Definition vector_eq {A} (eq : A → A → bool) : list A → list A → bool :=
  fix go l l' :=
    match l, l' with
    | [], [] => true
    | x :: l, y :: l' => eq x y && go l l'
    | _, _ => false
    end.

(** [operator==] *)
Fixpoint operator_eq (a b : UniValue) {struct a} : bool :=
  if negb (bool_decide (typ a = typ b)) then false
  else
    match typ a with
    | VBOOL | VNUM | VSTR => String.eqb (val a) (val b)
    | VARR => vector_eq operator_eq (values a) (values b)
    | VOBJ =>
        vector_eq (λ x y, String.eqb x.1 y.1 && operator_eq x.2 y.2)
          (entries a) (entries b)
    | VNULL => true
    end.

(** The number of children of an object or of an array. *)
Definition count (u : UniValue) : nat :=
  match typ u with
  | VOBJ => length (entries u)
  | VARR => length (values u)
  | _ => 0%nat
  end.

(** What every member function keeps true of the data members. *)
Fixpoint invariant (u : UniValue) : Prop :=
  match typ u with
  | VSTR | VNUM => True
  | VBOOL => val u = "" ∨ val u = boolTrueVal
  | _ => val u = ""
  end ∧
  (typ u ≠ VOBJ → entries u = []) ∧
  (typ u ≠ VARR → values u = []) ∧
  (fix all l := match l with [] => True | x :: l => invariant x ∧ all l end)
    (values u) ∧
  (fix all l := match l with [] => True | x :: l => invariant x.2 ∧ all l end)
    (entries u).

Lemma UniValue_ind' (P : UniValue → Prop) :
  (∀ t v es xs, Forall (λ e, P e.2) es → Forall P xs →
                P (mkUniValue t v es xs)) →
  ∀ u, P u.
Proof.
  intros H. fix IH 1. intros [t v es xs]. apply H.
  - induction es as [|e es IHes]; constructor; [apply IH|apply IHes].
  - induction xs as [|x xs IHxs]; constructor; [apply IH|apply IHxs].
Qed.


(** ** Field updates *)

Lemma set_values_values vs u : values (set_values vs u) = vs.
Proof. done. Qed.

Lemma set_values_twice vs vs' u :
  set_values vs (set_values vs' u) = set_values vs u.
Proof. done. Qed.

Lemma set_entries_twice es es' u :
  set_entries es (set_entries es' u) = set_entries es u.
Proof. done. Qed.

Lemma set_values_same u : set_values (values u) u = u.
Proof. by destruct u. Qed.

Lemma set_entries_same u : set_entries (entries u) u = u.
Proof. by destruct u. Qed.

(** ** [find] *)

Lemma find_entry_Some key es i v :
  find_entry key es = Some (i, v) ↔
  es !! i = Some (key, v) ∧
  ∀ j e, (j < i)%nat → es !! j = Some e → e.1 ≠ key.
Proof.
  revert i. induction es as [|[k w] es IH]; intros i; cbn.
  - split; [done|]. by intros [? _].
  - destruct (String.eqb_spec k key) as [->|Hne].
    + split.
      * intros [= <- <-]. split; [done|]. intros j e Hj. lia.
      * intros [Hi Hfirst]. destruct i as [|i]; [cbn in Hi; congruence|].
        by destruct (Hfirst 0%nat (key, w) ltac:(lia) eq_refl).
    + split.
      * destruct (find_entry key es) as [[i' v']|] eqn:Hf; [|done]. cbn.
        intros [= <- <-]. destruct (proj1 (IH i') eq_refl) as [Hi Hfirst].
        split; [done|].
        intros [|j] e Hj; cbn; [by intros [= <-]|]. apply Hfirst. lia.
      * intros [Hi Hfirst]. destruct i as [|i]; [cbn in Hi; congruence|].
        cbn in Hi.
        assert (find_entry key es = Some (i, v)) as ->; [|done].
        apply IH. split; [done|]. intros j e Hj He.
        apply (Hfirst (S j) e); [lia|done].
Qed.

Lemma find_entry_None key es :
  find_entry key es = None ↔ ∀ e, e ∈ es → e.1 ≠ key.
Proof.
  induction es as [|[k w] es IH]; cbn.
  - split; [|done]. by intros _ e ?%elem_of_nil.
  - destruct (String.eqb_spec k key) as [->|Hne].
    + split; [done|]. intros H. by destruct (H (key, w)); [left|].
    + rewrite fmap_None, IH. split.
      * intros H e [->|He]%elem_of_cons; [done|by apply H].
      * intros H e He. apply H. by right.
Qed.

Lemma find_entry_app key es es' :
  find_entry key (es ++ es') =
  match find_entry key es with
  | Some r => Some r
  | None => prod_map (λ i, length es + i)%nat id <$> find_entry key es'
  end.
Proof.
  induction es as [|[k w] es IH]; cbn.
  - by destruct (find_entry key es') as [[i v]|].
  - destruct (String.eqb k key); [done|]. rewrite IH.
    destruct (find_entry key es) as [[i v]|]; [done|].
    by destruct (find_entry key es') as [[i v]|].
Qed.




Lemma foldl_push_entries es u :
  foldl (λ u entry, set_entries (entries u ++ [entry]) u) u es =
  set_entries (entries u ++ es) u.
Proof.
  revert u. induction es as [|e es IH]; intros u; cbn.
  - by rewrite app_nil_r, set_entries_same.
  - rewrite IH. cbn. by rewrite <- app_assoc.
Qed.

Lemma foldl_push_values vs u :
  foldl (λ u item, set_values (values u ++ [item]) u) u vs =
  set_values (values u ++ vs) u.
Proof.
  revert u. induction vs as [|x vs IH]; intros u; cbn.
  - by rewrite app_nil_r, set_values_same.
  - rewrite IH. cbn. by rewrite <- app_assoc.
Qed.

(** X16: [find] returns the first entry whose key is the one asked for: it
    points to position [i] with value [v] exactly when entry [i] is
    [(key, v)] and no earlier entry has that key; and it returns [nullptr]
    exactly when no entry has the key. *)
Theorem find_first_entry (key : string) (u : UniValue) (i : nat) (v : UniValue) :
  (find key u = Some (i, v) ↔
   entries u !! i = Some (key, v) ∧
   ∀ j e, (j < i)%nat → entries u !! j = Some e → e.1 ≠ key) ∧
  (find key u = None ↔ ∀ e, e ∈ entries u → e.1 ≠ key).
Proof. split; [apply find_entry_Some|apply find_entry_None]. Qed.



Lemma pushKV_each_object es : ∀ u,
  typ u = VOBJ → pushKV_each es u = Some (set_entries (entries u ++ es) u).
Proof.
  induction es as [|[k x] es IH]; intros u Hu; cbn [pushKV_each fst snd].
  - by rewrite app_nil_r, set_entries_same.
  - unfold pushKV. rewrite (bool_decide_true _ Hu). cbn [negb arg_value].
    rewrite IH by done. cbn. by rewrite <- app_assoc.
Qed.

Lemma pushKV_each_other es : ∀ u, typ u ≠ VOBJ → pushKV_each es u = Some u.
Proof.
  induction es as [|[k x] es IH]; intros u Hu; cbn [pushKV_each fst snd];
    [done|].
  unfold pushKV. rewrite (bool_decide_false _ Hu). cbn [negb]. by apply IH.
Qed.

(** X19: [pushKVs] with an argument that is no part of the receiver is
    [pushKV] without [check], once per entry of the argument.  Between two
    objects it returns and appends the entries of the argument, so for a key
    that both have [operator[]] still returns the value of the receiver; the
    overload that moves from its argument leaves an empty object there.  If
    either side is not an object, nothing happens, whatever the argument
    refers to.  With an argument that overlaps the receiver and has an
    entry, the model gives no result. *)
Theorem pushKVs_appends (obj u : UniValue) :
  pushKVs (Separate obj) u =
    (if bool_decide (typ obj = VOBJ)
     then pushKV_each (entries obj) u
     else Some u) ∧
  pushKVs_move (Separate obj) u =
    ((λ u', (u', if bool_decide (typ u = VOBJ) && bool_decide (typ obj = VOBJ)
                 then setObject obj else obj)) <$> pushKVs (Separate obj) u) ∧
  (typ u = VOBJ → typ obj = VOBJ →
   ∃ u', pushKVs (Separate obj) u = Some u' ∧
     entries u' = entries u ++ entries obj ∧
     ∀ k, at_key k u' =
          match find k u with
          | Some (_, old) => old
          | None => at_key k obj
          end) ∧
  (typ u ≠ VOBJ ∨ typ obj ≠ VOBJ →
   ∀ a, arg_value a = obj →
        pushKVs a u = Some u ∧ pushKVs_move a u = Some (u, obj)) ∧
  (typ u = VOBJ → typ obj = VOBJ →
   pushKVs_move (Overlapping obj) u = None ∧
   pushKVs (Overlapping obj) u =
     match entries obj with
     | [] => Some u
     | _ :: _ => None
     end).
Proof.
  unfold pushKVs, pushKVs_move. cbn [arg_value]. split_and!.
  - destruct (decide (typ obj = VOBJ)) as [Ho|Ho].
    2: { rewrite (bool_decide_false _ Ho). by rewrite orb_true_r. }
    rewrite (bool_decide_true _ Ho), orb_false_r. cbn [negb].
    destruct (decide (typ u = VOBJ)) as [Hu|Hu].
    + rewrite (bool_decide_true _ Hu). cbn [negb].
      by rewrite foldl_push_entries, pushKV_each_object.
    + rewrite (bool_decide_false _ Hu). cbn [negb].
      by rewrite pushKV_each_other.
  - destruct (bool_decide (typ u = VOBJ)), (bool_decide (typ obj = VOBJ)); done.
  - intros Hu Ho. rewrite (bool_decide_true _ Hu), (bool_decide_true _ Ho).
    cbn [negb orb]. rewrite foldl_push_entries. eexists. split; [done|].
    split; [done|].
    intros k. unfold at_key, find. cbn. rewrite find_entry_app.
    destruct (find_entry k (entries u)) as [[j x]|]; [done|].
    by destruct (find_entry k (entries obj)) as [[j x]|].
  - intros Hor a <-. destruct Hor as [Hu|Ho].
    + by rewrite (bool_decide_false _ Hu).
    + by rewrite (bool_decide_false _ Ho), orb_true_r.
  - intros Hu Ho. by rewrite (bool_decide_true _ Hu), (bool_decide_true _ Ho).
Qed.


(** X21: [push_backV] is [push_back] once per element of the vector, in
    order, and both overloads build the same array; the one that moves from
    the vector leaves it empty. *)
Theorem push_backV_is_push_back (vec : list UniValue) (u : UniValue) :
  push_backV vec u = foldl (λ u item, push_back item u) u vec ∧
  push_backV_move vec u =
    (push_backV vec u, if bool_decide (typ u = VARR) then [] else vec).
Proof.
  unfold push_backV, push_backV_move.
  destruct (decide (typ u = VARR)) as [Hu|Hu].
  - rewrite (bool_decide_true _ Hu). cbn [negb].
    rewrite foldl_push_values. split; [|done].
    revert u Hu. induction vec as [|x vec IH]; intros u Hu; cbn [foldl].
    + by rewrite app_nil_r, set_values_same.
    + assert (push_back x u = set_values (values u ++ [x]) u) as ->
        by (unfold push_back; by rewrite (bool_decide_true _ Hu)).
      rewrite <- IH by done. cbn. by rewrite <- app_assoc.
  - rewrite (bool_decide_false _ Hu). cbn [negb]. split; [|done].
    induction vec as [|x vec IH]; [done|]. cbn [foldl].
    assert (push_back x u = u) as ->
      by (unfold push_back; by rewrite (bool_decide_false _ Hu)).
    done.
Qed.

(** X22: [front] is [operator[]] at index 0 and [back] is [operator[]] at the
    last index; [operator[]] returns a child for an index below the number
    of children of an object or an array, and [NullUniValue] for every other
    index and for every value that is neither object nor array. *)
Theorem index_front_back (u : UniValue) (i : nat) :
  front u = at_index 0 u ∧
  back u = at_index (pred (count u)) u ∧
  ((count u ≤ i)%nat → at_index i u = NullUniValue) ∧
  ((i < count u)%nat →
   (typ u = VARR ∧ values u !! i = Some (at_index i u)) ∨
   (typ u = VOBJ ∧ ∃ k, entries u !! i = Some (k, at_index i u))).
Proof.
  unfold front, back, at_index, count.
  destruct u as [t v es xs]. cbn [typ entries values].
  destruct t; split_and!; try done; try lia.
  - by destruct es.
  - by rewrite last_lookup.
  - intros Hi. by rewrite lookup_ge_None_2.
  - intros Hi. right. split; [done|].
    destruct (lookup_lt_is_Some_2 es i Hi) as [[k x] Hx]. rewrite Hx. by exists k.
  - by destruct xs.
  - by rewrite last_lookup.
  - intros Hi. by rewrite lookup_ge_None_2.
  - intros Hi. left. split; [done|].
    destruct (lookup_lt_is_Some_2 xs i Hi) as [x Hx]. by rewrite Hx.
Qed.

(** ** [operator==] *)

Lemma operator_eq_unfold a b :
  operator_eq a b =
  if negb (bool_decide (typ a = typ b)) then false
  else
    match typ a with
    | VBOOL | VNUM | VSTR => String.eqb (val a) (val b)
    | VARR => vector_eq operator_eq (values a) (values b)
    | VOBJ =>
        vector_eq (λ x y, String.eqb x.1 y.1 && operator_eq x.2 y.2)
          (entries a) (entries b)
    | VNULL => true
    end.
Proof. by destruct a. Qed.

Lemma vector_eq_refl {A} (f : A → A → bool) l :
  Forall (λ x, f x x = true) l → vector_eq f l l = true.
Proof. induction 1 as [|x l Hx Hl IH]; cbn; [done|]. by rewrite Hx, IH. Qed.

Lemma vector_eq_sym {A} (f : A → A → bool) l l' :
  Forall (λ x, ∀ y, f x y = f y x) l → vector_eq f l l' = vector_eq f l' l.
Proof.
  intros H. revert l'. induction H as [|x l Hx Hl IH]; intros [|y l']; cbn;
    try done.
  by rewrite Hx, IH.
Qed.

Lemma vector_eq_trans {A} (f : A → A → bool) l l' l'' :
  Forall (λ x, ∀ y z, f x y = true → f y z = true → f x z = true) l →
  vector_eq f l l' = true → vector_eq f l' l'' = true →
  vector_eq f l l'' = true.
Proof.
  intros H. revert l' l''.
  induction H as [|x l Hx Hl IH]; intros [|y l'] [|z l'']; cbn; try done.
  intros [Hxy Hl']%andb_true_iff [Hyz Hl'']%andb_true_iff.
  apply andb_true_iff. split; [by eapply Hx|by eapply IH].
Qed.

Lemma vector_eq_iff {A} (f : A → A → bool) (Q : A → Prop) l l' :
  Forall (λ x, ∀ y, Q y → (f x y = true ↔ x = y)) l → Forall Q l' →
  vector_eq f l l' = true ↔ l = l'.
Proof.
  intros H. revert l'.
  induction H as [|x l Hx Hl IH]; intros [|y l'] HQ; cbn; try done.
  apply Forall_cons in HQ as [Hy HQ].
  rewrite andb_true_iff, (Hx y Hy), (IH l' HQ). split.
  - by intros [-> ->].
  - by intros [= -> ->].
Qed.

Lemma operator_eq_refl a : operator_eq a a = true.
Proof.
  induction a as [t v es xs IHes IHxs] using UniValue_ind'.
  rewrite operator_eq_unfold. cbn [typ val entries values].
  rewrite bool_decide_true by done. cbn [negb].
  destruct t; try done; try apply String.eqb_refl.
  - apply vector_eq_refl. eapply Forall_impl; [exact IHes|].
    intros [k x] Hx. cbn in *. by rewrite String.eqb_refl, Hx.
  - by apply vector_eq_refl.
Qed.

Lemma operator_eq_sym a : ∀ b, operator_eq a b = operator_eq b a.
Proof.
  induction a as [t v es xs IHes IHxs] using UniValue_ind'.
  intros [t' v' es' xs']. rewrite !operator_eq_unfold.
  cbn [typ val entries values].
  destruct (decide (t = t')) as [<-|Hne].
  2: { rewrite !bool_decide_false by congruence. done. }
  rewrite !bool_decide_true by done. cbn [negb].
  destruct t; try done; try apply String.eqb_sym.
  - rewrite (vector_eq_sym _ es es'); [done|].
    eapply Forall_impl; [exact IHes|].
    intros [k x] Hx [k' x']. cbn in *. by rewrite String.eqb_sym, Hx.
  - by rewrite (vector_eq_sym _ xs xs').
Qed.

Lemma operator_eq_trans a : ∀ b c,
  operator_eq a b = true → operator_eq b c = true → operator_eq a c = true.
Proof.
  induction a as [t v es xs IHes IHxs] using UniValue_ind'.
  intros [t' v' es' xs'] [t'' v'' es'' xs'']. rewrite !operator_eq_unfold.
  cbn [typ val entries values].
  destruct (decide (t = t')) as [<-|Hne].
  2: { rewrite (bool_decide_false (t = t')) by done. done. }
  destruct (decide (t = t'')) as [<-|Hne].
  2: { rewrite (bool_decide_false (t = t'')) by done.
       rewrite (bool_decide_true (t = t)) by done. done. }
  rewrite !bool_decide_true by done. cbn [negb].
  destruct t; try done.
  - apply vector_eq_trans. eapply Forall_impl; [exact IHes|].
    intros [k x] Hx [k' x'] [k'' x'']. cbn in *.
    intros [Hk Hxx]%andb_true_iff [Hk' Hxx']%andb_true_iff.
    apply String.eqb_eq in Hk, Hk'. subst.
    rewrite String.eqb_refl. cbn. by eapply Hx.
  - by apply vector_eq_trans.
  - intros ->%String.eqb_eq. done.
  - intros ->%String.eqb_eq. done.
  - intros ->%String.eqb_eq. done.
Qed.

(** X23: [operator==] is an equivalence: every value equals itself, the
    order of the operands does not matter, and two values equal to a third
    are equal to each other. *)
Theorem operator_eq_equivalence (a b c : UniValue) :
  operator_eq a a = true ∧
  operator_eq a b = operator_eq b a ∧
  (operator_eq a b = true → operator_eq b c = true → operator_eq a c = true).
Proof.
  split_and!;
    [apply operator_eq_refl|apply operator_eq_sym|apply operator_eq_trans].
Qed.

(** ** The invariant of the data members *)

Lemma invariant_unfold u :
  invariant u ↔
  match typ u with
  | VSTR | VNUM => True
  | VBOOL => val u = "" ∨ val u = boolTrueVal
  | _ => val u = ""
  end ∧
  (typ u ≠ VOBJ → entries u = []) ∧
  (typ u ≠ VARR → values u = []) ∧
  Forall invariant (values u) ∧
  Forall (λ e, invariant e.2) (entries u).
Proof.
  assert (∀ l, (fix all (l : list UniValue) : Prop :=
                  match l with [] => True | x :: l => invariant x ∧ all l end) l
               ↔ Forall invariant l) as Hv.
  { induction l as [|x l IH]; [by split; [constructor|]|].
    by rewrite Forall_cons, <- IH. }
  assert (∀ l, (fix all (l : list (string * UniValue)) : Prop :=
                  match l with [] => True | x :: l => invariant x.2 ∧ all l end) l
               ↔ Forall (λ e, invariant e.2) l) as He.
  { induction l as [|x l IH]; [by split; [constructor|]|].
    by rewrite Forall_cons, <- IH. }
  destruct u as [t v es xs]. cbn [invariant typ val entries values].
  by rewrite Hv, He.
Qed.

(** X24: on values that satisfy the invariant of the data members,
    [operator==] holds exactly between identical values. *)
Theorem operator_eq_iff (a b : UniValue) :
  invariant a → invariant b → operator_eq a b = true ↔ a = b.
Proof.
  revert b. induction a as [t v es xs IHes IHxs] using UniValue_ind'.
  intros [t' v' es' xs'] Ha Hb.
  apply invariant_unfold in Ha as (Hv & He & Hx & Hxs & Hes).
  apply invariant_unfold in Hb as (Hv' & He' & Hx' & Hxs' & Hes').
  rewrite operator_eq_unfold. cbn [typ val entries values] in *.
  destruct (decide (t = t')) as [<-|Hne].
  2: { rewrite bool_decide_false by done. cbn. split; [done|congruence]. }
  rewrite bool_decide_true by done. cbn [negb].
  destruct t.
  - rewrite Hv, Hv', He, He', Hx, Hx' by done. done.
  - rewrite Hv, Hv', Hx, Hx' by done.
    rewrite (vector_eq_iff _ (λ e, invariant e.2) es es'); [|
      |done].
    + split; [by intros ->|by intros [= ->]].
    + pose proof (conj Hes IHes) as Hboth%Forall_and.
      eapply Forall_impl; [exact Hboth|]. cbn beta.
      intros [k x] [Hinv IH] [k' x'] Hinv'. cbn in *.
      rewrite andb_true_iff, String.eqb_eq, (IH x' Hinv Hinv'). split.
      * by intros [-> ->].
      * by intros [= -> ->].
  - rewrite Hv, Hv', He, He' by done.
    rewrite (vector_eq_iff _ invariant xs xs'); [|
      |done].
    + split; [by intros ->|by intros [= ->]].
    + pose proof (conj Hxs IHxs) as Hboth%Forall_and.
      eapply Forall_impl; [exact Hboth|]. cbn beta.
      intros x [Hinv IH] x' Hinv'. by apply IH.
  - rewrite He, He', Hx, Hx' by done. rewrite String.eqb_eq.
    split; [by intros ->|by intros [= ->]].
  - rewrite He, He', Hx, Hx' by done. rewrite String.eqb_eq.
    split; [by intros ->|by intros [= ->]].
  - rewrite He, He', Hx, Hx' by done. rewrite String.eqb_eq.
    split; [by intros ->|by intros [= ->]].
Qed.


End UniValue.

(** ** The properties at concrete values *)

Definition demo_null : UniValue := mkUniValue VNULL "" [] [].

(** The object [{"a": true, "b": "y"}] and the array [["y", null]]. *)
Definition demo_obj : UniValue :=
  __pushKV "b" (setStr "y" demo_null)
    (__pushKV "a" (setBool true demo_null) (setObject demo_null)).

Definition demo_arr : UniValue :=
  push_back demo_null (push_back (setStr "y" demo_null) (setArray demo_null)).


Lemma demo_obj_invariant : invariant demo_obj.
Proof. cbn. repeat split; try done. by right. Qed.

Lemma demo_arr_invariant : invariant demo_arr.
Proof. cbn. by repeat split. Qed.

(** The object [{"a": null}], and [demo_obj] with a string left in a data
    member that [operator==] does not read for an object. *)
Definition demo_obj2 : UniValue :=
  __pushKV "a" demo_null (setObject demo_null).

Definition demo_obj_junk : UniValue := set_val "junk" demo_obj.



Lemma pushKVs_appends_witness :
  typ demo_obj = VOBJ ∧ typ demo_obj2 = VOBJ ∧
  ∃ u', pushKVs (Separate demo_obj2) demo_obj = Some u' ∧
    entries u' = entries demo_obj ++ entries demo_obj2 ∧
    at_key demo_null "a" u' = setBool true demo_null.
Proof.
  destruct (pushKVs_appends demo_null demo_obj2 demo_obj) as (_ & _ & H & _).
  destruct (H eq_refl eq_refl) as (u' & Hp & H1 & H2).
  split; [reflexivity|]. split; [reflexivity|]. exists u'.
  split; [exact Hp|]. split; [exact H1|exact (H2 "a")].
Defined.


Lemma index_front_back_witness :
  (count demo_arr ≤ 5)%nat ∧ at_index demo_null 5 demo_arr = demo_null ∧
  (1 < count demo_arr)%nat ∧
  back demo_null demo_arr = at_index demo_null 1 demo_arr.
Proof.
  destruct (index_front_back demo_null demo_arr 5) as (_ & Hback & Hout & _).
  assert (count demo_arr ≤ 5)%nat as Hle by (cbv; lia).
  split; [exact Hle|]. split; [exact (Hout Hle)|].
  split; [cbv; lia|exact Hback].
Defined.

Lemma operator_eq_equivalence_witness :
  operator_eq demo_obj demo_obj_junk = true ∧
  operator_eq demo_obj_junk demo_obj = true ∧
  operator_eq demo_obj demo_obj = true.
Proof.
  destruct (operator_eq_equivalence demo_obj demo_obj_junk demo_obj)
    as (_ & _ & Htrans).
  assert (operator_eq demo_obj demo_obj_junk = true) as H1 by reflexivity.
  assert (operator_eq demo_obj_junk demo_obj = true) as H2 by reflexivity.
  split; [exact H1|]. split; [exact H2|exact (Htrans H1 H2)].
Defined.

Lemma operator_eq_iff_witness :
  invariant demo_obj ∧ invariant demo_arr ∧
  (operator_eq demo_obj demo_arr = true ↔ demo_obj = demo_arr).
Proof.
  split; [exact demo_obj_invariant|]. split; [exact demo_arr_invariant|].
  exact (operator_eq_iff demo_obj demo_arr demo_obj_invariant demo_arr_invariant).
Defined.


End univalue.
